(** * LightRail RAG kernel: chunking, token estimation, vector store, retrieval

    A shallow embedding of [src/processing/chunking.ts],
    [src/processing/tokenization.ts], [src/rag/embeddings.ts],
    [src/rag/vector-store.ts] and [src/rag/retrieval.ts], followed by the
    properties of these functions that the specification states.

    Conventions.
    - A JavaScript string is the list of its UTF-16 code units ([list N]).
    - A JavaScript [number] that holds a length, an index, a count or a
      configured size is a [Z]; a similarity score or an embedding component
      is a binary64 [float].
    - A loop whose exit is not structural takes a [fuel] bound and answers
      [None] when the bound is used up; a call that uses up every bound does
      not return.
    - [new Date()] is an argument: the clock reading in milliseconds.
    - An [async] method is its outcome: the value the promise resolves to,
      or the error it rejects with. Calls to the logger change no result and
      are left out. *)

From Stdlib Require Import String Ascii.
From Stdlib Require Import List ZArith NArith Lia Bool Floats Uint63 Sorted.
From Equations Require Import Equations.
From Stdlib Require DecimalString DecimalZ DecimalPos.
Import ListNotations.

Set Implicit Arguments.

(* ================================================================== *)
(** ** The JavaScript primitives the sources rely on *)

Module JS.

Definition jsstring : Type := list N.

(** A string literal, one code unit per character. *)
Definition lit (s : string) : jsstring :=
  map N_of_ascii (list_ascii_of_string s).

(** [s.repeat(n)]. *)
Fixpoint repeat_str (s : jsstring) (n : nat) : jsstring :=
  match n with
  | O => []
  | S k => s ++ repeat_str s k
  end.

Definition len (A : Type) (l : list A) : Z := Z.of_nat (length l).

(** Truthiness of a string: the empty string is falsy. *)
Definition truthy (s : jsstring) : bool :=
  match s with
  | [] => false
  | _ :: _ => true
  end.

(** WhiteSpace and LineTerminator code units: the set of [\s] and of
    [String.prototype.trim]. *)
Definition isWhiteSpace (c : N) : bool :=
  ((9 <=? c) && (c <=? 13) || (c =? 32) || (c =? 160) || (c =? 5760)
   || (8192 <=? c) && (c <=? 8202) || (c =? 8232) || (c =? 8233)
   || (c =? 8239) || (c =? 8287) || (c =? 12288) || (c =? 65279))%N.

Fixpoint trimStart (s : jsstring) : jsstring :=
  match s with
  | [] => []
  | c :: r => if isWhiteSpace c then trimStart r else s
  end.

Definition trimEnd (s : jsstring) : jsstring := rev (trimStart (rev s)).

Definition trim (s : jsstring) : jsstring := trimEnd (trimStart s).

(** The relative index of [slice]: a negative index counts from the end,
    and the result is clamped to [0 .. n]. *)
Definition relIndex (n : nat) (i : Z) : nat :=
  if (i <? 0)%Z then Z.to_nat (Z.max (Z.of_nat n + i) 0)
  else Z.to_nat (Z.min i (Z.of_nat n)).

(** [l.slice(start, end)], on strings and on arrays. *)
Definition slice (A : Type) (l : list A) (start end_ : Z) : list A :=
  let from := relIndex (length l) start in
  let to := relIndex (length l) end_ in
  firstn (to - from) (skipn from l).

(** [l.slice(start)]. *)
Definition sliceFrom (A : Type) (l : list A) (start : Z) : list A :=
  skipn (relIndex (length l) start) l.

Fixpoint startsWith (pat s : jsstring) : bool :=
  match pat, s with
  | [], _ => true
  | _ :: _, [] => false
  | p :: pat', c :: s' => (p =? c)%N && startsWith pat' s'
  end.

(** [split] on a non-empty separator: [skip] counts the code units of a
    matched separator still to be passed over; the head of the answer is
    the piece being read. *)
Fixpoint split_go (sep s : jsstring) (skip : nat) : list jsstring :=
  match s with
  | [] => [[]]
  | c :: r =>
      match skip with
      | S k => split_go sep r k
      | O =>
          if startsWith sep s then [] :: split_go sep r (length sep - 1)
          else match split_go sep r 0 with
               | p :: ps => (c :: p) :: ps
               | [] => [[c]]
               end
      end
  end.

(** [s.split(sep)] for a string separator; the empty separator splits
    into code units. *)
Definition split (s sep : jsstring) : list jsstring :=
  match sep with
  | [] => map (fun c => [c]) s
  | _ :: _ => split_go sep s 0
  end.

(** [s.split(/\s+/)]: [inWs] says the previous code unit was part of the
    separator run being passed over. *)
Fixpoint splitWs_go (s : jsstring) (inWs : bool) : list jsstring :=
  match s with
  | [] => [[]]
  | c :: r =>
      if isWhiteSpace c then
        if inWs then splitWs_go r true else [] :: splitWs_go r true
      else match splitWs_go r false with
           | p :: ps => (c :: p) :: ps
           | [] => [[c]]
           end
  end.

Definition splitWs (s : jsstring) : list jsstring := splitWs_go s false.

(** [s.lastIndexOf(pat)]; [None] stands for [-1]. *)
Fixpoint lastIndexOf_go (pat s : jsstring) (i : nat) (best : option nat)
  : option nat :=
  match s with
  | [] => if startsWith pat [] then Some i else best
  | _ :: r =>
      lastIndexOf_go pat r (S i) (if startsWith pat s then Some i else best)
  end.

Definition lastIndexOf (s pat : jsstring) : option nat :=
  lastIndexOf_go pat s 0 None.

(** [parts.join(sep)]. *)
Fixpoint join (parts : list jsstring) (sep : jsstring) : jsstring :=
  match parts with
  | [] => []
  | [p] => p
  | p :: ps => p ++ sep ++ join ps sep
  end.

(** [s.includes(pat)]. *)
Fixpoint includes (s pat : jsstring) : bool :=
  startsWith pat s ||
  match s with
  | [] => false
  | _ :: r => includes r pat
  end.

(** A [Record<string, unknown>] as its [Object.entries], each value carried
    as its template-literal rendering, [None] for [undefined]. *)
Definition Metadata : Type := list (jsstring * option jsstring).

End JS.
Import JS.

Local Open Scope Z_scope.

(* ================================================================== *)
(** ** [src/processing/chunking.ts] *)

Module Chunking.

Record ChunkConfig := {
  maxChunkSize : Z;
  chunkOverlap : Z;
  separators : list jsstring;
  preserveStructure : bool
}.

(** [Partial<ChunkConfig>]: an absent key is [None]. *)
Record PartialChunkConfig := {
  p_maxChunkSize : option Z;
  p_chunkOverlap : option Z;
  p_separators : option (list jsstring);
  p_preserveStructure : option bool
}.

Record TextChunk := {
  content : jsstring;
  index : Z;
  startOffset : Z;
  endOffset : Z;
  metadata : option Metadata
}.

Definition defaultConfig : ChunkConfig :=
  {| maxChunkSize := 1000;
     chunkOverlap := 200;
     separators := [[10; 10]; [10]; lit ". "; lit ", "; lit " "]%N;
     preserveStructure := true |}.

Definition orDefault (A : Type) (o : option A) (d : A) : A :=
  match o with
  | Some a => a
  | None => d
  end.

(** [{ ...defaultConfig, ...config }]. *)
Definition spread (config : PartialChunkConfig) : ChunkConfig :=
  {| maxChunkSize := orDefault (p_maxChunkSize config) (maxChunkSize defaultConfig);
     chunkOverlap := orDefault (p_chunkOverlap config) (chunkOverlap defaultConfig);
     separators := orDefault (p_separators config) (separators defaultConfig);
     preserveStructure :=
       orDefault (p_preserveStructure config) (preserveStructure defaultConfig) |}.

Definition emptyConfig : PartialChunkConfig :=
  {| p_maxChunkSize := None; p_chunkOverlap := None;
     p_separators := None; p_preserveStructure := None |}.

Section Split.
Variable cfg : ChunkConfig.

(** The hard split:
    [for (let i = 0; i < text.length; i += maxChunkSize - chunkOverlap)
       result.push(text.slice(i, i + maxChunkSize))]. *)
Fixpoint hardSplit (fuel : nat) (text : jsstring) (i : Z)
  : option (list jsstring) :=
  if i <? len text then
    match fuel with
    | O => None
    | S fuel' =>
        match hardSplit fuel' text (i + (maxChunkSize cfg - chunkOverlap cfg)) with
        | None => None
        | Some result => Some (slice text i (i + maxChunkSize cfg) :: result)
        end
    end
  else Some [].

(** The body of [for (const part of parts)], with the recursive call on
    the finer separators passed in as [recurse]; the loop state is
    [result] and [current], and the tail is the final
    [if (current) result.push(current)]. *)
Fixpoint accumulate (recurse : jsstring -> option (list jsstring))
    (separator : jsstring) (parts : list jsstring)
    (result : list jsstring) (current : jsstring)
  : option (list jsstring) :=
  match parts with
  | [] => Some (if truthy current then result ++ [current] else result)
  | part :: parts' =>
      let potentialChunk :=
        if truthy current then current ++ separator ++ part else part in
      if len potentialChunk <=? maxChunkSize cfg then
        accumulate recurse separator parts' result potentialChunk
      else
        let result := if truthy current then result ++ [current] else result in
        if len part >? maxChunkSize cfg then
          match recurse part with
          | None => None
          | Some subChunks =>
              accumulate recurse separator parts' (result ++ subChunks) []
          end
        else accumulate recurse separator parts' result part
  end.

(** [splitRecursively(text, separators)]. *)
Fixpoint splitRecursively (fuel : nat) (seps : list jsstring) (text : jsstring)
  : option (list jsstring) :=
  if len text <=? maxChunkSize cfg then Some [text]
  else
    match seps with
    | [] => hardSplit fuel text 0
    | separator :: rest =>
        accumulate (splitRecursively fuel rest) separator
          (split text separator) [] []
    end.

(** The overlap loop over [rawChunks]: [prev] is [rawChunks[i - 1]] when
    [i > 0]. *)
Fixpoint overlapLoop (rawChunks : list jsstring) (prev : option jsstring)
    (i : Z) (currentOffset : Z) : list TextChunk :=
  match rawChunks with
  | [] => []
  | raw :: rest =>
      let content :=
        match prev with
        | Some prevChunk =>
            if chunkOverlap cfg >? 0
            then sliceFrom prevChunk (- chunkOverlap cfg) ++ raw
            else raw
        | None => raw
        end in
      let startOffset := currentOffset in
      let currentOffset := currentOffset + len raw in
      {| content := trim content;
         index := i;
         startOffset := startOffset;
         endOffset := currentOffset;
         metadata := None |}
      :: overlapLoop rest (Some raw) (i + 1) currentOffset
  end.

End Split.

(** [chunkText(text, config)]; [None] when a loop used up [fuel]. *)
Definition chunkText (fuel : nat) (text : jsstring) (config : PartialChunkConfig)
  : option (list TextChunk) :=
  let cfg := spread config in
  match splitRecursively cfg fuel (separators cfg) text with
  | None => None
  | Some rawChunks =>
      Some (filter (fun c => len (content c) >? 0)
              (overlapLoop cfg rawChunks None 0 0))
  end.

(** [mergeSmallChunks]: the loop state is [merged] and [current]
    ([None] for [null]); each [current] is a fresh copy, so the input
    chunks are never written to. *)
Fixpoint mergeLoop (minSize : Z) (chunks : list TextChunk)
    (merged : list TextChunk) (current : option TextChunk) : list TextChunk :=
  match chunks with
  | [] =>
      match current with
      | Some cur =>
          merged ++ [{| content := content cur; index := len merged;
                        startOffset := startOffset cur;
                        endOffset := endOffset cur;
                        metadata := metadata cur |}]
      | None => merged
      end
  | chunk :: rest =>
      match current with
      | None => mergeLoop minSize rest merged (Some chunk)
      | Some cur =>
          if len (content cur) <? minSize then
            mergeLoop minSize rest merged
              (Some {| content := content cur ++ [10; 10]%N ++ content chunk;
                       index := index cur;
                       startOffset := startOffset cur;
                       endOffset := endOffset chunk;
                       metadata := metadata cur |})
          else
            mergeLoop minSize rest (merged ++ [cur])
              (Some {| content := content chunk; index := len (merged ++ [cur]);
                       startOffset := startOffset chunk;
                       endOffset := endOffset chunk;
                       metadata := metadata chunk |})
      end
  end.

Definition mergeSmallChunks (chunks : list TextChunk) (minSize : Z)
  : list TextChunk :=
  mergeLoop minSize chunks [] None.

End Chunking.

(* ================================================================== *)
(** ** [src/processing/tokenization.ts]: [GPTTokenCounter] *)

Module Tokenization.

(** The character class of the punctuation pattern: full stop, comma,
    exclamation and question mark, semicolon, colon, both quote marks,
    and the round, square and curly brackets. *)
Definition isPunctuation (c : N) : bool :=
  existsb (N.eqb c) [46; 44; 33; 63; 59; 58; 39; 34; 40; 41; 91; 93; 123; 125]%N.

(** [tokens] of [count] just before [Math.ceil], doubled: every summand is
    a multiple of one half, so twice the sum is an integer. *)
Definition tokens2 (text : jsstring) : Z :=
  let words := splitWs text in
  2 * len words
  + len (filter isPunctuation text)
  + 2 * fold_left
          (fun acc word => if len word >? 10 then acc + len word / 5 else acc)
          words 0.

(** [count(text)]: [Math.ceil(tokens)]. *)
Definition count (text : jsstring) : Z := (tokens2 text + 1) / 2.

(** The binary search of [truncate]:
    [while (high - low > 10) { mid = floor((low + high) / 2); ... }];
    the answer is the final [low]. *)
Equations? searchLoop (text : jsstring) (maxTokens : Z) (low high : nat)
  : nat by wf (high - low)%nat lt :=
  searchLoop text maxTokens low high with lt_dec 10 (high - low) => {
    | left _ =>
        if count (slice text 0 (Z.of_nat ((low + high) / 2))) <=? maxTokens
        then searchLoop text maxTokens ((low + high) / 2) high
        else searchLoop text maxTokens low ((low + high) / 2);
    | right _ => low }.
Proof.
  all: assert (low < (low + high) / 2)%nat
    by (apply Nat.div_le_lower_bound; lia).
  all: assert ((low + high) / 2 < high)%nat
    by (apply Nat.Div0.div_lt_upper_bound; lia).
  all: change (fst (Nat.divmod (low + high) 1 0 1)) with ((low + high) / 2)%nat.
  all: lia.
Qed.

Definition toFloat (n : nat) : float :=
  PrimFloat.of_uint63 (Uint63.of_Z (Z.of_nat n)).

(** [lastSentence > low * 0.7], where [lastSentence] is the answer of
    [lastIndexOf] and [None] its [-1]. *)
Definition pastSeventyPercent (lastSentence : option nat) (low : nat) : bool :=
  match lastSentence with
  | None => false
  | Some i => PrimFloat.ltb (toFloat low * 0x1.6666666666666p-1)%float (toFloat i)
  end.

Definition truncate (text : jsstring) (maxTokens : Z) : jsstring :=
  if count text <=? maxTokens then text
  else
    let low := searchLoop text maxTokens 0 (length text) in
    let truncated := slice text 0 (Z.of_nat low) in
    let lastSentence := lastIndexOf truncated [46; 32]%N in
    let truncated :=
      match lastSentence with
      | Some i =>
          if pastSeventyPercent lastSentence low
          then slice truncated 0 (Z.of_nat i + 1)
          else truncated
      | None => truncated
      end in
    trim truncated.

(** The loop of [split]; [None] when [fuel] iterations did not empty
    [remaining]. *)
Fixpoint splitLoop (fuel : nat) (maxTokens : Z) (remaining : jsstring)
    (parts : list jsstring) : option (list jsstring) :=
  if len remaining >? 0 then
    if count remaining <=? maxTokens then Some (parts ++ [remaining])
    else
      match fuel with
      | O => None
      | S fuel' =>
          let truncated := truncate remaining maxTokens in
          splitLoop fuel' maxTokens
            (trim (sliceFrom remaining (len truncated)))
            (parts ++ [truncated])
      end
  else Some parts.

Definition split (fuel : nat) (text : jsstring) (maxTokens : Z)
  : option (list jsstring) :=
  splitLoop fuel maxTokens text [].

End Tokenization.

(* ================================================================== *)
(** ** Thrown errors *)

(** The [Error]s the sources throw, one constructor per message. *)
Inductive Error : Type :=
| EmbeddingDimensionsMismatch (expected got : Z)
| QueryDimensionsMismatch (expected got : Z)
| SameDimensions
| ProviderError (status : Z).

Inductive result (A : Type) : Type :=
| Ok (a : A)
| Throw (e : Error).
Arguments Ok {A} a.
Arguments Throw {A} e.

Definition bind (A B : Type) (r : result A) (k : A -> result B) : result B :=
  match r with
  | Ok a => k a
  | Throw e => Throw e
  end.

Notation "x <- r ;; k" := (bind r (fun x => k))
  (at level 61, r at next level, right associativity).

(* ================================================================== *)
(** ** [src/rag/embeddings.ts]: the similarity functions *)

Module Embeddings.

Local Open Scope float_scope.

Record EmbeddingResult := {
  embedding : list float;
  text : jsstring;
  model : jsstring;
  dimensions : Z
}.

(** The three accumulators of the loop of [cosineSimilarity]. *)
Definition cosineStep (acc : float * float * float) (ab : float * float)
  : float * float * float :=
  let '(dotProduct, magnitudeA, magnitudeB) := acc in
  let '(a, b) := ab in
  (dotProduct + a * b, magnitudeA + a * a, magnitudeB + b * b).

Definition cosineSimilarity (a b : list float) : result float :=
  if negb (len a =? len b)%Z then Throw SameDimensions
  else
    let '(dotProduct, magnitudeA, magnitudeB) :=
      fold_left cosineStep (combine a b) (0, 0, 0) in
    let magnitudeA := PrimFloat.sqrt magnitudeA in
    let magnitudeB := PrimFloat.sqrt magnitudeB in
    if (magnitudeA =? 0) || (magnitudeB =? 0) then Ok 0
    else Ok (dotProduct / (magnitudeA * magnitudeB)).

Definition euclideanDistance (a b : list float) : result float :=
  if negb (len a =? len b)%Z then Throw SameDimensions
  else
    Ok (PrimFloat.sqrt
          (fold_left (fun sum ab => let diff := fst ab - snd ab in sum + diff * diff)
             (combine a b) 0)).

End Embeddings.

(* ================================================================== *)
(** ** [Array.prototype.sort] *)

(** The sort is stable. [negative a b] says that [comparefn(a, b) < 0]; an
    element is placed behind the elements that compare negative against it
    and in front of all others. For a comparator that orders the elements
    consistently every stable sort gives this array. *)
Section ArraySort.
Variable A : Type.
Variable negative : A -> A -> bool.

Fixpoint place (x : A) (sorted : list A) : list A :=
  match sorted with
  | [] => [x]
  | e :: rest => if negative e x then e :: place x rest else x :: e :: rest
  end.

Fixpoint sort (l : list A) : list A :=
  match l with
  | [] => []
  | x :: rest => place x (sort rest)
  end.
End ArraySort.

(* ================================================================== *)
(** ** [src/rag/vector-store.ts]: [InMemoryVectorStore] *)

Module VectorStore.

Record VectorDocument := {
  id : jsstring;
  content : jsstring;
  embedding : list float;
  metadata : option Metadata;
  createdAt : Z
}.

(** [Omit<VectorDocument, 'createdAt'>]. *)
Record NewDocument := {
  n_id : jsstring;
  n_content : jsstring;
  n_embedding : list float;
  n_metadata : option Metadata
}.

Record SearchResult := {
  document : VectorDocument;
  score : float;
  distance : option float
}.

Inductive SimilarityMetric := cosine | euclidean.

Record VectorStoreConfig := {
  dimensions : Z;
  similarityMetric : SimilarityMetric;
  maxDocuments : option Z
}.

(** [Partial<VectorStoreConfig>]. *)
Record PartialConfig := {
  p_dimensions : option Z;
  p_similarityMetric : option SimilarityMetric;
  p_maxDocuments : option Z
}.

(** A [Map<string, VectorDocument>] as its entries in insertion order. *)
Definition DocMap : Type := list (jsstring * VectorDocument).

Record Store := {
  documents : DocMap;
  config : VectorStoreConfig
}.

Definition str_eq_dec : forall a b : jsstring, {a = b} + {a <> b} :=
  list_eq_dec N.eq_dec.

(** [Map.prototype.has]. *)
Fixpoint mapHas (m : DocMap) (k : jsstring) : bool :=
  match m with
  | [] => false
  | (k', _) :: rest => if str_eq_dec k' k then true else mapHas rest k
  end.

(** [Map.prototype.get]. *)
Fixpoint mapGet (m : DocMap) (k : jsstring) : option VectorDocument :=
  match m with
  | [] => None
  | (k', v) :: rest => if str_eq_dec k' k then Some v else mapGet rest k
  end.

(** [Map.prototype.set]: an existing key keeps its place, a new key goes
    last. *)
Fixpoint mapSet (m : DocMap) (k : jsstring) (v : VectorDocument) : DocMap :=
  match m with
  | [] => [(k, v)]
  | (k', v') :: rest =>
      if str_eq_dec k' k then (k', v) :: rest else (k', v') :: mapSet rest k v
  end.

(** [Map.prototype.delete], without its boolean. *)
Fixpoint mapDelete (m : DocMap) (k : jsstring) : DocMap :=
  match m with
  | [] => []
  | (k', v') :: rest =>
      if str_eq_dec k' k then rest else (k', v') :: mapDelete rest k
  end.

(** [Array.from(m.values())]. *)
Definition values (m : DocMap) : list VectorDocument := map snd m.

(** The constructor: [dimensions: config.dimensions || 1536], and so on. *)
Definition new (cfg : PartialConfig) : Store :=
  {| documents := [];
     config :=
       {| dimensions :=
            match p_dimensions cfg with
            | Some d => if d =? 0 then 1536 else d
            | None => 1536
            end;
          similarityMetric :=
            match p_similarityMetric cfg with
            | Some m => m
            | None => cosine
            end;
          maxDocuments := p_maxDocuments cfg |} |}.

(** [this.config.maxDocuments && this.documents.size >= this.config.maxDocuments]. *)
Definition atCapacity (s : Store) : bool :=
  match maxDocuments (config s) with
  | Some n => negb (n =? 0) && (len (documents s) >=? n)
  | None => false
  end.

(** The comparator [(a, b) => a.createdAt.getTime() - b.createdAt.getTime()]
    is negative. *)
Definition olderFirst (a b : VectorDocument) : bool :=
  createdAt a - createdAt b <? 0.

(** The eviction step of [add]. *)
Definition evictOldest (s : Store) : DocMap :=
  if atCapacity s then
    match sort olderFirst (values (documents s)) with
    | oldest :: _ => mapDelete (documents s) (id oldest)
    | [] => documents s
    end
  else documents s.

(** [add(doc)], with the reading [now] of the clock. *)
Definition add (s : Store) (doc : NewDocument) (now : Z) : result Store :=
  if negb (len (n_embedding doc) =? dimensions (config s)) then
    Throw (EmbeddingDimensionsMismatch (dimensions (config s)) (len (n_embedding doc)))
  else
    Ok {| documents :=
            mapSet (evictOldest s) (n_id doc)
              {| id := n_id doc; content := n_content doc;
                 embedding := n_embedding doc; metadata := n_metadata doc;
                 createdAt := now |};
          config := config s |}.

(** [addBatch(docs)]: one [add] per document, in order, each with the
    clock reading of its call, stopping at the first that throws. *)
Fixpoint addBatch (s : Store) (calls : list (NewDocument * Z)) : result Store :=
  match calls with
  | [] => Ok s
  | (doc, now) :: rest => s' <- add s doc now ;; addBatch s' rest
  end.

(** The score and distance of one document in [search]. *)
Definition scoreOf (s : Store) (query : list float) (doc : VectorDocument)
  : result (float * option float) :=
  match similarityMetric (config s) with
  | cosine =>
      sc <- Embeddings.cosineSimilarity query (embedding doc) ;;
      Ok (sc, None)
  | euclidean =>
      d <- Embeddings.euclideanDistance query (embedding doc) ;;
      Ok ((1 / (1 + d))%float, Some d)
  end.

(** The scan of [search] over the documents. *)
Fixpoint scan (s : Store) (query : list float)
    (filter : option (VectorDocument -> bool)) (docs : list VectorDocument)
  : result (list SearchResult) :=
  match docs with
  | [] => Ok []
  | doc :: rest =>
      if match filter with Some f => negb (f doc) | None => false end
      then scan s query filter rest
      else
        sd <- scoreOf s query doc ;;
        results <- scan s query filter rest ;;
        Ok ({| document := doc; score := fst sd; distance := snd sd |} :: results)
  end.

(** The comparator [(a, b) => b.score - a.score] is negative. *)
Definition higherFirst (a b : SearchResult) : bool :=
  PrimFloat.ltb (score b - score a)%float 0%float.

(** [search(query, topK = 5, filter)]. *)
Definition search (s : Store) (query : list float) (topK : option Z)
    (filter : option (VectorDocument -> bool)) : result (list SearchResult) :=
  if negb (len query =? dimensions (config s)) then
    Throw (QueryDimensionsMismatch (dimensions (config s)) (len query))
  else
    results <- scan s query filter (values (documents s)) ;;
    Ok (slice (sort higherFirst results) 0
          (match topK with Some k => k | None => 5 end)).

Definition get (s : Store) (k : jsstring) : option VectorDocument :=
  mapGet (documents s) k.

Definition delete (s : Store) (k : jsstring) : bool * Store :=
  (mapHas (documents s) k,
   {| documents := mapDelete (documents s) k; config := config s |}).

Definition clear (s : Store) : Store :=
  {| documents := []; config := config s |}.

Definition size (s : Store) : Z := len (documents s).

Definition export (s : Store) : list VectorDocument := values (documents s).

Definition import (s : Store) (docs : list VectorDocument) : Store :=
  {| documents := fold_left (fun m doc => mapSet m (id doc) doc) docs (documents s);
     config := config s |}.

End VectorStore.

(* ================================================================== *)
(** ** [src/rag/retrieval.ts]: [Retriever] *)

Module Retrieval.

Import VectorStore.

Record RetrievalConfig := {
  topK : Z;
  minScore : float;
  maxContextLength : Z;
  includeMetadata : bool
}.

(** [Partial<RetrievalConfig>]. *)
Record PartialRetrievalConfig := {
  p_topK : option Z;
  p_minScore : option float;
  p_maxContextLength : option Z;
  p_includeMetadata : option bool
}.

Record RetrievalResult := {
  query : jsstring;
  documents : list SearchResult;
  context : jsstring;
  tokenEstimate : Z
}.

Definition defaultConfig : RetrievalConfig :=
  {| topK := 5; minScore := 0.5%float; maxContextLength := 4000;
     includeMetadata := true |}.

(** [{ ...base, ...options }]. *)
Definition spread (base : RetrievalConfig) (options : PartialRetrievalConfig)
  : RetrievalConfig :=
  {| topK := match p_topK options with Some v => v | None => topK base end;
     minScore :=
       match p_minScore options with Some v => v | None => minScore base end;
     maxContextLength :=
       match p_maxContextLength options with
       | Some v => v
       | None => maxContextLength base
       end;
     includeMetadata :=
       match p_includeMetadata options with
       | Some v => v
       | None => includeMetadata base
       end |}.

(** The entries of the metadata with a defined value, each as [k: v]. *)
Fixpoint metaPairs (m : Metadata) : list jsstring :=
  match m with
  | [] => []
  | (k, Some v) :: rest => (k ++ lit ": " ++ v) :: metaPairs rest
  | (_, None) :: rest => metaPairs rest
  end.

Definition formatDocument (r : SearchResult) (cfg : RetrievalConfig) : jsstring :=
  let parts :=
    match includeMetadata cfg, VectorStore.metadata (document r) with
    | true, Some m =>
        let metaStr := join (metaPairs m) (lit ", ") in
        if truthy metaStr then [lit "[" ++ metaStr ++ lit "]"] else []
    | _, _ => []
    end in
  join (parts ++ [VectorStore.content (document r)]) [10%N].

(** The loop of [buildContext], with its [break]. *)
Fixpoint collect (cfg : RetrievalConfig) (results : list SearchResult)
    (currentLength : Z) : list jsstring :=
  match results with
  | [] => []
  | r :: rest =>
      let docContent := formatDocument r cfg in
      if currentLength + len docContent >? maxContextLength cfg then []
      else docContent :: collect cfg rest (currentLength + len docContent)
  end.

Definition buildContext (results : list SearchResult) (cfg : RetrievalConfig)
  : jsstring :=
  join (collect cfg results 0) ([10; 10]%N ++ lit "---" ++ [10; 10]%N).

Section Retriever.
(** The fields of a [Retriever]: the store, the embedding provider (its
    [embed], which may throw) and the configuration. *)
Variable vectorStore : Store.
Variable embed : jsstring -> result Embeddings.EmbeddingResult.
Variable this_config : RetrievalConfig.

Definition retrieve (q : jsstring) (options : PartialRetrievalConfig)
  : result RetrievalResult :=
  let cfg := spread this_config options in
  queryEmbedding <- embed q ;;
  results <- search vectorStore (Embeddings.embedding queryEmbedding)
               (Some (topK cfg)) (Some (fun _ => true)) ;;
  let filtered :=
    filter (fun r => PrimFloat.leb (minScore cfg) (score r)) results in
  let context := buildContext filtered cfg in
  Ok {| query := q; documents := filtered; context := context;
        tokenEstimate := (len context + 3) / 4 |}.
End Retriever.

End Retrieval.

(* ================================================================== *)
(** ** Vocabulary of the statements *)

Module Spec.

(** The first code unit is white space. *)
Definition startsWithWs (s : jsstring) : bool :=
  match s with
  | [] => false
  | c :: _ => isWhiteSpace c
  end.

(** The last code unit is white space. *)
Definition endsWithWs (s : jsstring) : bool := startsWithWs (rev s).

(** Every code unit is white space. *)
Definition whitespaceOnly (s : jsstring) : Prop :=
  Forall (fun c => isWhiteSpace c = true) s.

(** A well-formed chunking configuration. *)
Definition validConfig (cfg : Chunking.ChunkConfig) : Prop :=
  0 <= Chunking.chunkOverlap cfg < Chunking.maxChunkSize cfg.

(** A malformed one. *)
Definition malformedConfig (cfg : Chunking.ChunkConfig) : Prop :=
  Chunking.chunkOverlap cfg >= Chunking.maxChunkSize cfg
  \/ Chunking.maxChunkSize cfg <= 0.

(** The last [n] elements. *)
Definition lastN (A : Type) (n : nat) (l : list A) : list A :=
  skipn (length l - n) l.

(** The entry that [add(doc)] writes at clock reading [now]. *)
Definition stored (call : VectorStore.NewDocument * Z)
  : jsstring * VectorStore.VectorDocument :=
  (VectorStore.n_id (fst call),
   {| VectorStore.id := VectorStore.n_id (fst call);
      VectorStore.content := VectorStore.n_content (fst call);
      VectorStore.embedding := VectorStore.n_embedding (fst call);
      VectorStore.metadata := VectorStore.n_metadata (fst call);
      VectorStore.createdAt := snd call |}).

(** Every entry is filed under the id of its document. *)
Definition keysAreIds (m : VectorStore.DocMap) : Prop :=
  Forall (fun kv => fst kv = VectorStore.id (snd kv)) m.

(** The states of a [Map] that the store can be in: its keys are distinct,
    and each is the id of its document. *)
Definition wellFormed (s : VectorStore.Store) : Prop :=
  NoDup (map fst (VectorStore.documents s))
  /\ keysAreIds (VectorStore.documents s).

(** Creation times do not decrease along the entries. *)
Definition oldestFirst (m : VectorStore.DocMap) : Prop :=
  Sorted Z.le (map VectorStore.createdAt (VectorStore.values m)).

(** The value of [topK] in [search], 5 when the argument is left out. *)
Definition effectiveTopK (topK : option Z) : Z :=
  match topK with
  | Some k => k
  | None => 5
  end.

(** The documents that the filter of [search] lets through. *)
Definition passing (flt : option (VectorStore.VectorDocument -> bool))
    (docs : list VectorStore.VectorDocument) : list VectorStore.VectorDocument :=
  filter (fun d => match flt with Some f => f d | None => true end) docs.

(** Every stored embedding has the configured dimension. *)
Definition dimensioned (s : VectorStore.Store) : Prop :=
  Forall (fun d => len (VectorStore.embedding d)
                   = VectorStore.dimensions (VectorStore.config s))
    (VectorStore.values (VectorStore.documents s)).

(** The score that [search] computes for the document is not NaN. *)
Definition scoreIsNumber (s : VectorStore.Store) (query : list float)
    (d : VectorStore.VectorDocument) : Prop :=
  match VectorStore.scoreOf s query d with
  | Ok sd => PrimFloat.is_nan (fst sd) = false
  | Throw _ => True
  end.

(** The score of a result is the cosine similarity of the query and the
    document, or [1 / (1 + d)] for their euclidean distance [d]. *)
Definition scoredBy (s : VectorStore.Store) (query : list float)
    (r : VectorStore.SearchResult) : Prop :=
  match VectorStore.similarityMetric (VectorStore.config s) with
  | VectorStore.cosine =>
      Embeddings.cosineSimilarity query
        (VectorStore.embedding (VectorStore.document r))
      = Ok (VectorStore.score r)
  | VectorStore.euclidean =>
      exists d,
        Embeddings.euclideanDistance query
          (VectorStore.embedding (VectorStore.document r)) = Ok d
        /\ VectorStore.score r = (1 / (1 + d))%float
  end.

(** The scores do not increase along the results. *)
Definition descending (results : list VectorStore.SearchResult) : Prop :=
  Sorted (fun a b => PrimFloat.leb (VectorStore.score b) (VectorStore.score a) = true)
    results.

End Spec.
Import Spec.

(* ================================================================== *)
(** ** Concrete inputs *)

Module Sample.

Import Chunking.

Definition chunkConfig (maxSize overlap : Z) : PartialChunkConfig :=
  {| p_maxChunkSize := Some maxSize; p_chunkOverlap := Some overlap;
     p_separators := None; p_preserveStructure := None |}.

(** ["A".repeat(500) + "\n\n" + "B".repeat(500)]. *)
Definition twoParagraphs : jsstring :=
  repeat_str (lit "A") 500 ++ [10; 10]%N ++ repeat_str (lit "B") 500.

Definition chunkOf (s : jsstring) (i from to : Z) : TextChunk :=
  {| content := s; index := i; startOffset := from; endOffset := to;
     metadata := None |}.

(** A chunk of [n] code units. *)
Definition chunkOfLength (n : nat) : TextChunk :=
  chunkOf (repeat_str (lit "x") n) 0 0 (Z.of_nat n).

Definition doc (name : string) (e : list float) : VectorStore.NewDocument :=
  {| VectorStore.n_id := lit name; VectorStore.n_content := lit name;
     VectorStore.n_embedding := e; VectorStore.n_metadata := None |}.

(** The binary64 values of the literals [0.9] and [0.1]. *)
Definition nineTenths : float := 0x1.ccccccccccccdp-1%float.
Definition oneTenth : float := 0x1.999999999999ap-4%float.

(** [new InMemoryVectorStore({ dimensions, maxDocuments })]. *)
Definition storeOf (dimensions : Z) (maxDocuments : option Z) : VectorStore.Store :=
  VectorStore.new
    {| VectorStore.p_dimensions := Some dimensions;
       VectorStore.p_similarityMetric := None;
       VectorStore.p_maxDocuments := maxDocuments |}.

Definition orEmpty (r : result VectorStore.Store) : VectorStore.Store :=
  match r with
  | Ok s => s
  | Throw _ => storeOf 0 None
  end.

(** Three documents of dimension 2; the squares of the components of [b]
    overflow. *)
Definition overflowStore : VectorStore.Store :=
  orEmpty (VectorStore.addBatch (storeOf 2 None)
             [(doc "a" [-1; -1]%float, 1);
              (doc "b" [0x1p1023; 0x1p1023]%float, 2);
              (doc "c" [1; 1]%float, 3)]).

(** A store of dimension 3 into which a document of dimension 2 was
    imported. *)
Definition importedShort : VectorStore.Store :=
  VectorStore.import (storeOf 3 None)
    [{| VectorStore.id := lit "short"; VectorStore.content := lit "short";
        VectorStore.embedding := [1; 0]%float; VectorStore.metadata := None;
        VectorStore.createdAt := 1 |}].

(** One document, ["hello"], of dimension 3. *)
Definition helloStore : VectorStore.Store :=
  orEmpty (VectorStore.addBatch (storeOf 3 None)
             [(doc "hello" [1; 0; 0]%float, 1)]).

(** An embedding provider that maps every text to [[1, 0, 0]]. *)
Definition unitEmbed (text : jsstring) : result Embeddings.EmbeddingResult :=
  Ok {| Embeddings.embedding := [1; 0; 0]%float; Embeddings.text := text;
        Embeddings.model := lit "local-tfidf"; Embeddings.dimensions := 3 |}.

Definition retrievalOptions (minScore : option float) (maxContextLength : option Z)
  : Retrieval.PartialRetrievalConfig :=
  {| Retrieval.p_topK := None; Retrieval.p_minScore := minScore;
     Retrieval.p_maxContextLength := maxContextLength;
     Retrieval.p_includeMetadata := None |}.

(** The store of the capacity test: two documents under [maxDocuments = 2]. *)
Definition fullStore : VectorStore.Store :=
  orEmpty (VectorStore.addBatch (storeOf 3 (Some 2))
             [(doc "doc1" [0.5; 0.25; 0.125]%float, 1);
              (doc "doc2" [0.25; 0.5; 0.75]%float, 2)]).

End Sample.

(* ================================================================== *)
(** ** [src/rag/vector-store.ts]: [addBatch] as the store it leaves *)

Module VectorStoreRun.

Import VectorStore.

(** [addBatch(docs)] writes to the store as it goes: the store it leaves
    behind and the error it rejects with, if any. *)
Fixpoint addBatchRun (s : Store) (calls : list (NewDocument * Z))
  : Store * option Error :=
  match calls with
  | [] => (s, None)
  | (doc, now) :: rest =>
      match add s doc now with
      | Ok s' => addBatchRun s' rest
      | Throw e => (s, Some e)
      end
  end.

End VectorStoreRun.

(* ================================================================== *)
(** ** [src/processing/chunking.ts]: [chunkBySentences] *)

Module Sentences.

Import Chunking.

(** The class [[.!?]]. *)
Definition isTerminator (c : N) : bool :=
  ((c =? 46) || (c =? 33) || (c =? 63))%N.

(** [text.match(/[^.!?]*[.!?]+/g)], as the list of matches: [cur] is the
    match being read and [inRun] says that its run of terminators has begun.
    A match ends where the run ends; what follows the last run matches
    nothing. *)
Fixpoint matchSentences (s : jsstring) (cur : jsstring) (inRun : bool)
  : list jsstring :=
  match s with
  | [] => if inRun then [cur] else []
  | c :: r =>
      if isTerminator c then matchSentences r (cur ++ [c]) true
      else if inRun then cur :: matchSentences r [c] false
      else matchSentences r (cur ++ [c]) false
  end.

(** [text.match(sentenceRegex) || [text]]. *)
Definition sentencesOf (text : jsstring) : list jsstring :=
  match matchSentences text [] false with
  | [] => [text]
  | m :: ms => m :: ms
  end.

(** The loop
    [for (let i = 0; i < sentences.length; i += sentencesPerChunk)];
    [count] is [chunks.length]. *)
Fixpoint sentenceLoop (fuel : nat) (sentences : list jsstring)
    (sentencesPerChunk : Z) (i : Z) (count : Z) (currentOffset : Z)
  : option (list TextChunk) :=
  if i <? len sentences then
    match fuel with
    | O => None
    | S fuel' =>
        let content :=
          trim (join (slice sentences i (i + sentencesPerChunk)) [32%N]) in
        match sentenceLoop fuel' sentences sentencesPerChunk
                (i + sentencesPerChunk) (count + 1)
                (currentOffset + (len content + 1)) with
        | None => None
        | Some chunks =>
            Some ({| content := content; index := count;
                     startOffset := currentOffset;
                     endOffset := currentOffset + len content;
                     metadata := None |} :: chunks)
        end
    end
  else Some [].

(** [chunkBySentences(text, sentencesPerChunk = 5)]. *)
Definition chunkBySentences (fuel : nat) (text : jsstring)
    (sentencesPerChunk : option Z) : option (list TextChunk) :=
  sentenceLoop fuel (sentencesOf text)
    (match sentencesPerChunk with Some n => n | None => 5 end) 0 0 0.

End Sentences.

(* ================================================================== *)
(** ** [src/processing/tokenization.ts]: [SimpleTokenCounter] *)

Module SimpleTokenCounter.

(** An integer as a binary64 number; the conversion is exact below [2^53]
    in absolute value. *)
Definition floatOfZ (z : Z) : float :=
  if z <? 0 then PrimFloat.opp (PrimFloat.of_uint63 (Uint63.of_Z (- z)))
  else PrimFloat.of_uint63 (Uint63.of_Z z).

(** The answer of [lastIndexOf] as an integer, [-1] for no occurrence. *)
Definition indexOr (i : option nat) : Z :=
  match i with
  | Some n => Z.of_nat n
  | None => -1
  end.

(** [index > maxChars * factor]. *)
Definition beyond (index : option nat) (maxChars : Z) (factor : float) : bool :=
  PrimFloat.ltb (floatOfZ maxChars * factor)%float (floatOfZ (indexOr index)).

(** The binary64 value of the literal [0.9]; [0.7] is
    [0x1.6666666666666p-1] and [0.5] is exact. *)
Definition ninety : float := 0x1.ccccccccccccdp-1%float.
Definition seventy : float := 0x1.6666666666666p-1%float.

Section Counter.
(** The field [charsPerToken]; [createTokenCounter] builds the counter with
    4, and [count] is given for positive integers. *)
Variable charsPerToken : Z.

(** [Math.ceil(text.length / charsPerToken)]. *)
Definition count (text : jsstring) : Z :=
  (len text + charsPerToken - 1) / charsPerToken.

Definition truncate (text : jsstring) (maxTokens : Z) : jsstring :=
  let maxChars := maxTokens * charsPerToken in
  if len text <=? maxChars then text
  else
    let truncated := slice text 0 maxChars in
    let lastSentence := lastIndexOf truncated [46; 32]%N in
    if beyond lastSentence maxChars seventy
    then slice truncated 0 (indexOr lastSentence + 1)
    else
      let lastSpace := lastIndexOf truncated [32%N] in
      if beyond lastSpace maxChars ninety
      then slice truncated 0 (indexOr lastSpace) ++ lit "..."
      else truncated ++ lit "...".

(** The split point of one round of [split]. *)
Definition splitPoint (remaining : jsstring) (maxChars : Z) : Z :=
  let lastSentence := lastIndexOf (slice remaining 0 maxChars) [46; 32]%N in
  if beyond lastSentence maxChars 0.5%float then indexOr lastSentence + 1
  else
    let lastSpace := lastIndexOf (slice remaining 0 maxChars) [32%N] in
    if beyond lastSpace maxChars seventy then indexOr lastSpace
    else maxChars.

(** The loop of [split]; [None] when [fuel] rounds did not empty
    [remaining]. *)
Fixpoint splitLoop (fuel : nat) (maxChars : Z) (remaining : jsstring)
    (parts : list jsstring) : option (list jsstring) :=
  if len remaining >? 0 then
    if len remaining <=? maxChars then Some (parts ++ [remaining])
    else
      match fuel with
      | O => None
      | S fuel' =>
          splitLoop fuel' maxChars
            (trim (sliceFrom remaining (splitPoint remaining maxChars)))
            (parts ++ [trim (slice remaining 0 (splitPoint remaining maxChars))])
      end
  else Some parts.

Definition split (fuel : nat) (text : jsstring) (maxTokens : Z)
  : option (list jsstring) :=
  splitLoop fuel (maxTokens * charsPerToken) text [].

End Counter.

End SimpleTokenCounter.

(* ================================================================== *)
(** ** [src/rag/embeddings.ts]: [LocalEmbeddingProvider] *)

Module LocalEmbedding.

(** [ToInt32]: the integer modulo [2^32], as a signed 32-bit integer. *)
Definition toInt32 (z : Z) : Z := (z + 2 ^ 31) mod 2 ^ 32 - 2 ^ 31.

(** One round of [hashString]:
    [hash = ((hash << 5) - hash) + char; hash = hash & hash]. The shift
    answers a 32-bit integer, the subtraction and the addition are exact,
    and [&] takes the sum back to 32 bits. *)
Definition hashStep (hash : Z) (char : N) : Z :=
  toInt32 (toInt32 (hash * 2 ^ 5) - hash + Z.of_N char).

Definition hashString (str : jsstring) : Z := fold_left hashStep str 0.

(** [embedding[index] += 1]; the index of [computeTFIDF] is within the
    array whenever the array has a component. *)
Fixpoint bump (embedding : list float) (index : nat) : list float :=
  match embedding, index with
  | [], _ => []
  | v :: rest, O => (v + 1)%float :: rest
  | v :: rest, S i => v :: bump rest i
  end.

(** The histogram loop of [computeTFIDF]:
    [index = Math.abs(hash) % this.dimensions]. *)
Definition histogram (dimensions : nat) (tokens : list jsstring) : list float :=
  fold_left
    (fun embedding token =>
       bump embedding
         (Z.to_nat (Z.rem (Z.abs (hashString token)) (Z.of_nat dimensions))))
    tokens (repeat 0%float dimensions).

(** [computeTFIDF(tokens)]; [dimensions] is the length of
    [new Array(this.dimensions)]. *)
Definition computeTFIDF (dimensions : nat) (tokens : list jsstring) : list float :=
  let embedding := histogram dimensions tokens in
  let magnitude :=
    PrimFloat.sqrt (fold_left (fun sum val => sum + val * val)%float embedding 0%float) in
  if PrimFloat.ltb 0 magnitude
  then map (fun v => v / magnitude)%float embedding
  else embedding.

End LocalEmbedding.

(* ================================================================== *)
(** ** [src/rag/retrieval.ts]: [Indexer] *)

Module Indexer.

Import VectorStore.

(** The template-literal rendering of an integer: its decimal digits, with
    a minus sign for a negative one (integers below [10^21] in absolute
    value are rendered so). *)
Definition decimal (z : Z) : jsstring :=
  lit (DecimalString.NilZero.string_of_int (Z.to_int z)).

(** [`doc-${Date.now()}-${this.idCounter++}`], for the clock reading [now]
    and the counter before the increment. *)
Definition docId (now counter : Z) : jsstring :=
  lit "doc-" ++ decimal now ++ lit "-" ++ decimal counter.

(** The fields of an [Indexer] that change: the store and the counter. *)
Record Indexer := {
  vectorStore : Store;
  idCounter : Z
}.

Section Provider.
(** [embeddingProvider.embed], which may throw. *)
Variable embed : jsstring -> result Embeddings.EmbeddingResult.

(** [index(content, metadata)], with the clock reading [now] of the id and
    the reading [added] of the [add]: the indexer it leaves, and the id or
    the error. The counter is used up also when the call throws. *)
Definition index (ix : Indexer) (content : jsstring) (metadata : option Metadata)
    (now added : Z) : Indexer * result jsstring :=
  let id := docId now (idCounter ix) in
  let counter := idCounter ix + 1 in
  match embed content with
  | Throw e => ({| vectorStore := vectorStore ix; idCounter := counter |}, Throw e)
  | Ok embedding =>
      match add (vectorStore ix)
              {| n_id := id; n_content := content;
                 n_embedding := Embeddings.embedding embedding;
                 n_metadata := metadata |} added with
      | Throw e =>
          ({| vectorStore := vectorStore ix; idCounter := counter |}, Throw e)
      | Ok s' => ({| vectorStore := s'; idCounter := counter |}, Ok id)
      end
  end.

(** One call of [index] after the other on the same indexer: the indexer
    left at the end and the outcome of each call. *)
Fixpoint indexEach (ix : Indexer)
    (calls : list (jsstring * option Metadata * Z * Z))
  : Indexer * list (result jsstring) :=
  match calls with
  | [] => (ix, [])
  | (content, metadata, now, added) :: rest =>
      let (ix', r) := index ix content metadata now added in
      let (final, rs) := indexEach ix' rest in
      (final, r :: rs)
  end.

End Provider.

(** The ids among the outcomes. *)
Fixpoint idsOf (outcomes : list (result jsstring)) : list jsstring :=
  match outcomes with
  | [] => []
  | Ok k :: rest => k :: idsOf rest
  | Throw _ :: rest => idsOf rest
  end.

End Indexer.

(* ================================================================== *)
(** ** Vocabulary of the further statements *)

Module Terms.

(** The merged chunk [c] is the group of a first chunk and the chunks
    behind it: their contents joined by a blank line, from the start of the
    first to the end of the last, with the metadata of the first. *)
Definition mergedFrom (group : Chunking.TextChunk * list Chunking.TextChunk)
    (c : Chunking.TextChunk) : Prop :=
  Chunking.content c
  = join (map Chunking.content (fst group :: snd group)) [10; 10]%N
  /\ Chunking.startOffset c = Chunking.startOffset (fst group)
  /\ Chunking.endOffset c = Chunking.endOffset (last (snd group) (fst group))
  /\ Chunking.metadata c = Chunking.metadata (fst group).

(** The chunks of the groups, in order. *)
Definition ungroup (groups : list (Chunking.TextChunk * list Chunking.TextChunk))
  : list Chunking.TextChunk :=
  concat (map (fun g => fst g :: snd g) groups).

(** The chunks are numbered from [count] on and laid out from [offset] on:
    each ends its length behind its start, and the next starts one code
    unit behind that end. *)
Fixpoint chained (count offset : Z) (chunks : list Chunking.TextChunk) : Prop :=
  match chunks with
  | [] => True
  | c :: rest =>
      Chunking.index c = count
      /\ Chunking.startOffset c = offset
      /\ Chunking.endOffset c = offset + len (Chunking.content c)
      /\ chained (count + 1) (Chunking.endOffset c + 1) rest
  end.

(** No code unit of [s] is a sentence terminator. *)
Definition unterminated (s : jsstring) : Prop :=
  Forall (fun c => Sentences.isTerminator c = false) s.

(** [s] is a run of other code units and then a non-empty run of sentence
    terminators. *)
Definition sentence (s : jsstring) : Prop :=
  exists body c run,
    s = body ++ c :: run
    /\ unterminated body
    /\ Forall (fun c => Sentences.isTerminator c = true) (c :: run).

(** The summand of [count] for a long word. *)
Definition extra (word : jsstring) : Z :=
  if len word >? 10 then len word / 5 else 0.

(** The words' share of twice the token count: 2 for each word, and twice
    its long-word summand. *)
Fixpoint weight (words : list jsstring) : Z :=
  match words with
  | [] => 0
  | w :: rest => 2 + 2 * extra w + weight rest
  end.

(** A binary64 value that is not below zero: its sign bit is clear, or it
    is NaN. *)
Definition notNegative (x : spec_float) : Prop :=
  match x with
  | S754_zero s | S754_infinity s | S754_finite s _ _ => s = false
  | S754_nan => True
  end.

(** The polynomial [s[0] * 31^(n-1) + ... + s[n-1]] over the code units of
    [s], without wrap-around. *)
Definition polynomial (str : jsstring) : Z :=
  fold_left (fun h c => 31 * h + Z.of_N c) str 0.

End Terms.
Import Terms.

(* ================================================================== *)
(** * Properties *)

Unset Implicit Arguments.

(** ** Strings *)

Example split_comma : split (lit "a,b,") (lit ",") = [lit "a"; lit "b"; lit ""].
Proof. reflexivity. Qed.

Example split_two : split (lit "xaby") (lit "ab") = [lit "x"; lit "y"].
Proof. reflexivity. Qed.

Example split_of_empty : split (lit "") (lit ",") = [lit ""].
Proof. reflexivity. Qed.

Example splitWs_padded : splitWs (lit " a  b ") = [lit ""; lit "a"; lit "b"; lit ""].
Proof. reflexivity. Qed.

Example trim_padded : trim (lit "  hi there ") = lit "hi there".
Proof. reflexivity. Qed.

Example slice_negative_end : slice (lit "abcdef") 0 (-1) = lit "abcde".
Proof. reflexivity. Qed.

Example sliceFrom_negative : sliceFrom (lit "abcdef") (-2) = lit "ef".
Proof. reflexivity. Qed.

Example lastIndexOf_sentence : lastIndexOf (lit "a. b. c") (lit ". ") = Some 4%nat.
Proof. reflexivity. Qed.

Lemma len_nonneg (A : Type) (l : list A) : 0 <= len l.
Proof. unfold len. lia. Qed.

Lemma len_app (A : Type) (l1 l2 : list A) : len (l1 ++ l2) = len l1 + len l2.
Proof. unfold len. rewrite length_app. lia. Qed.

Lemma truthy_false (s : jsstring) : truthy s = false -> s = [].
Proof. destruct s; [reflexivity | discriminate]. Qed.

Lemma trimStart_length (s : jsstring) : (length (trimStart s) <= length s)%nat.
Proof.
  induction s as [|c r IH]; simpl; [lia|].
  destruct (isWhiteSpace c); simpl; lia.
Qed.

Lemma trim_length (s : jsstring) : (length (trim s) <= length s)%nat.
Proof.
  unfold trim, trimEnd. rewrite length_rev.
  etransitivity; [apply trimStart_length|].
  rewrite length_rev. apply trimStart_length.
Qed.

Lemma trimStart_head (s : jsstring) : startsWithWs (trimStart s) = false.
Proof.
  induction s as [|c r IH]; simpl; [reflexivity|].
  destruct (isWhiteSpace c) eqn:E; [exact IH | simpl; exact E].
Qed.

(** Trimming the front of a string whose last code unit is no white space
    keeps that code unit. *)
Lemma trimStart_keeps_last (l : jsstring) (c : N) :
  isWhiteSpace c = false -> exists u, trimStart (l ++ [c]) = u ++ [c].
Proof.
  intros Hc. induction l as [|x l IH]; simpl.
  - rewrite Hc. exists []. reflexivity.
  - destruct (isWhiteSpace x).
    + exact IH.
    + exists (x :: l). reflexivity.
Qed.

Lemma trim_no_trailing_ws (s : jsstring) : endsWithWs (trim s) = false.
Proof.
  unfold endsWithWs, trim, trimEnd. rewrite rev_involutive.
  apply trimStart_head.
Qed.

Lemma trim_no_leading_ws (s : jsstring) : startsWithWs (trim s) = false.
Proof.
  unfold trim, trimEnd.
  pose proof (trimStart_head s) as Hh.
  destruct (trimStart s) as [|c t]; [reflexivity|].
  simpl in Hh. simpl rev.
  destruct (trimStart_keeps_last (rev t) c Hh) as [u Hu].
  rewrite Hu, rev_app_distr. simpl. exact Hh.
Qed.

Lemma trimStart_whitespaceOnly (s : jsstring) :
  whitespaceOnly s -> trimStart s = [].
Proof.
  induction 1 as [|c r Hc _ IH]; simpl; [reflexivity|].
  rewrite Hc. exact IH.
Qed.

Lemma trim_whitespaceOnly (s : jsstring) : whitespaceOnly s -> trim s = [].
Proof.
  intros H. unfold trim. rewrite (trimStart_whitespaceOnly s H). reflexivity.
Qed.

Lemma relIndex_le (n : nat) (i : Z) : (relIndex n i <= n)%nat.
Proof. unfold relIndex. destruct (i <? 0) eqn:E; lia. Qed.

Lemma relIndex_0 (n : nat) : relIndex n 0 = 0%nat.
Proof. unfold relIndex. simpl. lia. Qed.

Lemma slice_0_0 (A : Type) (l : list A) : slice l 0 0 = [].
Proof. unfold slice. rewrite relIndex_0. reflexivity. Qed.

Lemma sliceFrom_0 (A : Type) (l : list A) : sliceFrom l 0 = l.
Proof. unfold sliceFrom. rewrite relIndex_0. reflexivity. Qed.

Lemma slice_window_length (A : Type) (l : list A) (i w : Z) :
  0 <= i -> 0 <= w -> len (slice l i (i + w)) <= w.
Proof.
  intros Hi Hw. unfold slice, len.
  rewrite length_firstn. unfold relIndex.
  destruct (i <? 0) eqn:E1; [lia|].
  destruct (i + w <? 0) eqn:E2; lia.
Qed.

Lemma sliceFrom_tail_length (A : Type) (l : list A) (k : Z) :
  0 < k -> len (sliceFrom l (- k)) <= k.
Proof.
  intros Hk. unfold sliceFrom, len, relIndex.
  rewrite length_skipn.
  destruct (- k <? 0) eqn:E; lia.
Qed.

Lemma Forall_firstn_skipn (A : Type) (P : A -> Prop) (n : nat) (l : list A) :
  Forall P l -> Forall P (firstn n l) /\ Forall P (skipn n l).
Proof.
  intros H. rewrite <- (firstn_skipn n l) in H.
  apply Forall_app in H. exact H.
Qed.

Lemma Forall_slice (A : Type) (P : A -> Prop) (l : list A) (i j : Z) :
  Forall P l -> Forall P (slice l i j).
Proof.
  intros H. unfold slice.
  apply Forall_firstn_skipn, Forall_firstn_skipn, H.
Qed.

Lemma Forall_sliceFrom (A : Type) (P : A -> Prop) (l : list A) (i : Z) :
  Forall P l -> Forall P (sliceFrom l i).
Proof.
  intros H. unfold sliceFrom. apply Forall_firstn_skipn, H.
Qed.

Lemma startsWith_Forall (P : N -> Prop) (pat s : jsstring) :
  startsWith pat s = true -> Forall P s -> Forall P pat.
Proof.
  revert s. induction pat as [|p pat IH]; intros s Hs HP; [constructor|].
  destruct s as [|c s]; [discriminate|].
  simpl in Hs. apply andb_true_iff in Hs as [Hpc Hrest].
  apply N.eqb_eq in Hpc. subst c.
  inversion HP; subst. constructor; eauto.
Qed.

Lemma startsWith_app (pat post : jsstring) : startsWith pat (pat ++ post) = true.
Proof.
  induction pat as [|p pat IH]; simpl; [reflexivity|].
  rewrite N.eqb_refl. exact IH.
Qed.

Lemma includes_unfold (s pat : jsstring) :
  includes s pat =
  startsWith pat s || match s with [] => false | _ :: r => includes r pat end.
Proof. destruct s; reflexivity. Qed.

Lemma includes_infix (pre pat post : jsstring) :
  includes (pre ++ pat ++ post) pat = true.
Proof.
  induction pre as [|c pre IH].
  - rewrite includes_unfold. simpl app. rewrite startsWith_app. reflexivity.
  - change ((c :: pre) ++ pat ++ post) with (c :: (pre ++ pat ++ post)).
    rewrite includes_unfold, IH. apply orb_true_r.
Qed.

(** The pieces of a split are no longer than the string, and their code
    units are code units of the string. *)
Lemma split_go_parts (sep s : jsstring) (skip : nat) :
  split_go sep s skip <> []
  /\ Forall (fun p => length p <= length s)%nat (split_go sep s skip).
Proof.
  revert skip. induction s as [|c r IH]; intros skip; simpl.
  - split; [discriminate | repeat constructor].
  - destruct skip as [|k].
    + destruct (startsWith sep (c :: r)).
      * split; [discriminate|]. constructor; [simpl; lia|].
        destruct (IH (length sep - 1)%nat) as [_ H].
        eapply Forall_impl; [|exact H]. simpl. intros; lia.
      * destruct (IH 0%nat) as [Hne H].
        destruct (split_go sep r 0) as [|p ps]; [contradiction|].
        split; [discriminate|].
        inversion H; subst. constructor; [simpl; lia|].
        eapply Forall_impl; [|eassumption]. simpl. intros; lia.
    + destruct (IH k) as [Hne H]. split; [exact Hne|].
      eapply Forall_impl; [|exact H]. simpl. intros; lia.
Qed.

Lemma split_parts_length (s sep : jsstring) :
  Forall (fun p => length p <= length s)%nat (split s sep).
Proof.
  unfold split. destruct sep as [|x sep].
  - apply Forall_forall. intros p Hp. apply in_map_iff in Hp as [c [<- Hc]].
    destruct s; [contradiction | simpl; lia].
  - apply split_go_parts.
Qed.

Lemma split_go_chars (P : N -> Prop) (sep s : jsstring) (skip : nat) :
  Forall P s ->
  Forall (Forall P) (split_go sep s skip)
  /\ (Forall P sep \/ (length (split_go sep s skip) <= 1)%nat).
Proof.
  revert skip. induction s as [|c r IH]; intros skip HP; simpl.
  - split; [repeat constructor | right; lia].
  - inversion HP as [|? ? Hc Hr]; subst.
    destruct skip as [|k]; [|apply IH; assumption].
    destruct (startsWith sep (c :: r)) eqn:E.
    + split.
      * constructor; [constructor | apply IH; assumption].
      * left. eapply startsWith_Forall; eassumption.
    + destruct (IH 0%nat Hr) as [H1 H2].
      destruct (split_go sep r 0) as [|p ps].
      * split; [repeat constructor; assumption | right; simpl; lia].
      * inversion H1; subst. split.
        -- constructor; [constructor; assumption | assumption].
        -- destruct H2 as [H2|H2]; [left; exact H2 | right; simpl in *; lia].
Qed.

Lemma split_chars (P : N -> Prop) (s sep : jsstring) :
  Forall P s ->
  Forall (Forall P) (split s sep)
  /\ (Forall P sep \/ (length (split s sep) <= 1)%nat).
Proof.
  intros HP. unfold split. destruct sep as [|x sep].
  - split; [|left; constructor].
    apply Forall_forall. intros p Hp. apply in_map_iff in Hp as [c [<- Hc]].
    rewrite Forall_forall in HP. repeat constructor. auto.
  - apply split_go_chars. exact HP.
Qed.

(** ** The chunker *)

Section ChunkingFacts.
Import Chunking.
Variable cfg : ChunkConfig.

Let fits (c : jsstring) : Prop := len c <= maxChunkSize cfg.

Lemma hardSplit_unfold (fuel : nat) (text : jsstring) (i : Z) :
  hardSplit cfg fuel text i =
  if i <? len text then
    match fuel with
    | O => None
    | S fuel' =>
        match hardSplit cfg fuel' text (i + (maxChunkSize cfg - chunkOverlap cfg)) with
        | None => None
        | Some result => Some (slice text i (i + maxChunkSize cfg) :: result)
        end
    end
  else Some [].
Proof. destruct fuel; reflexivity. Qed.

Lemma splitRecursively_unfold (fuel : nat) (seps : list jsstring) (text : jsstring) :
  splitRecursively cfg fuel seps text =
  if len text <=? maxChunkSize cfg then Some [text]
  else
    match seps with
    | [] => hardSplit cfg fuel text 0
    | separator :: rest =>
        accumulate cfg (splitRecursively cfg fuel rest) separator
          (split text separator) [] []
    end.
Proof. destruct seps; reflexivity. Qed.

(** With a positive stride the hard split ends within [text.length - i]
    rounds, and each window fits. *)
Lemma hardSplit_total (fuel : nat) :
  validConfig cfg ->
  forall (text : jsstring) (i : Z),
    0 <= i -> (Z.to_nat (len text - i) <= fuel)%nat ->
    exists r, hardSplit cfg fuel text i = Some r /\ Forall fits r.
Proof.
  intros [Hov Hmax]. induction fuel as [|fuel IH]; intros text i Hi Hfuel;
    rewrite hardSplit_unfold; destruct (i <? len text) eqn:E;
    try (exists []; split; [reflexivity | constructor]).
  - apply Z.ltb_lt in E. lia.
  - apply Z.ltb_lt in E.
    destruct (IH text (i + (maxChunkSize cfg - chunkOverlap cfg)))
      as [r [Hr Hfit]]; [lia | lia |].
    rewrite Hr. eexists; split; [reflexivity|].
    constructor; [|exact Hfit].
    unfold fits. apply slice_window_length; lia.
Qed.

(** With a stride that is not positive a hard split that starts inside
    the text uses up every bound. *)
Lemma hardSplit_diverges (fuel : nat) :
  maxChunkSize cfg - chunkOverlap cfg <= 0 ->
  forall (text : jsstring) (i : Z),
    i < len text -> hardSplit cfg fuel text i = None.
Proof.
  intros Hstride. induction fuel as [|fuel IH]; intros text i Hi;
    rewrite hardSplit_unfold; destruct (i <? len text) eqn:E;
    try (apply Z.ltb_ge in E; lia); [reflexivity|].
  rewrite IH; [reflexivity | lia].
Qed.

Lemma hardSplit_chars (P : N -> Prop) (fuel : nat) :
  forall (text : jsstring) (i : Z) (r : list jsstring),
    hardSplit cfg fuel text i = Some r -> Forall P text -> Forall (Forall P) r.
Proof.
  induction fuel as [|fuel IH]; intros text i r Hr HP;
    rewrite hardSplit_unfold in Hr; destruct (i <? len text);
    try discriminate; try (injection Hr as <-; constructor).
  destruct (hardSplit cfg fuel text (i + (maxChunkSize cfg - chunkOverlap cfg)))
    as [r'|] eqn:E; [|discriminate].
  injection Hr as <-. constructor; [apply Forall_slice, HP | eauto].
Qed.

Section Accumulate.
Variable recurse : jsstring -> option (list jsstring).
Variable separator : jsstring.

Lemma accumulate_total :
  0 <= maxChunkSize cfg ->
  forall (parts result : list jsstring) (current : jsstring),
    (forall part, In part parts ->
                  exists r, recurse part = Some r /\ Forall fits r) ->
    Forall fits result -> fits current ->
    exists out,
      accumulate cfg recurse separator parts result current = Some out
      /\ Forall fits out.
Proof.
  intros Hmax. induction parts as [|part parts IH];
    intros result current Hrec Hres Hcur; simpl.
  - eexists; split; [reflexivity|].
    destruct (truthy current); [|exact Hres].
    apply Forall_app; split; [exact Hres | repeat constructor; exact Hcur].
  - assert (Hrec' : forall p, In p parts ->
              exists r, recurse p = Some r /\ Forall fits r)
      by (intros p Hp; apply Hrec; right; exact Hp).
    assert (Hres' : Forall fits
              (if truthy current then result ++ [current] else result)).
    { destruct (truthy current); [|exact Hres].
      apply Forall_app; split; [exact Hres | repeat constructor; exact Hcur]. }
    match goal with |- context [len ?p <=? _] => destruct (len p <=? maxChunkSize cfg) eqn:E end.
    + apply IH; [exact Hrec' | exact Hres | apply Z.leb_le, E].
    + destruct (len part >? maxChunkSize cfg) eqn:E2.
      * destruct (Hrec part (or_introl eq_refl)) as [sub [Hsub Hfit]].
        rewrite Hsub. apply IH; [exact Hrec' | | exact Hmax].
        apply Forall_app; split; assumption.
      * apply IH; [exact Hrec' | exact Hres' |].
        unfold fits. rewrite Z.gtb_ltb in E2. apply Z.ltb_ge in E2. exact E2.
Qed.

Lemma accumulate_chars (P : N -> Prop) :
  forall (parts result : list jsstring) (current : jsstring)
         (out : list jsstring),
    (forall part sub, In part parts -> recurse part = Some sub ->
                      Forall (Forall P) sub) ->
    Forall (Forall P) parts -> Forall (Forall P) result -> Forall P current ->
    Forall P separator \/ parts = []
      \/ (current = [] /\ (length parts <= 1)%nat) ->
    accumulate cfg recurse separator parts result current = Some out ->
    Forall (Forall P) out.
Proof.
  induction parts as [|part parts IH];
    intros result current out Hrec Hparts Hres Hcur Hsep Hout; simpl in Hout.
  - injection Hout as <-. destruct (truthy current); [|exact Hres].
    apply Forall_app; split; [exact Hres | repeat constructor; exact Hcur].
  - inversion Hparts as [|? ? Hpart Hparts']; subst.
    assert (Hrec' : forall p sub, In p parts -> recurse p = Some sub ->
              Forall (Forall P) sub)
      by (intros p sub Hp; apply Hrec; right; exact Hp).
    assert (Hsep' : Forall P separator \/ parts = []).
    { destruct Hsep as [H|[H|[_ H]]]; [left; exact H | discriminate |].
      right. destruct parts; [reflexivity | simpl in H; lia]. }
    assert (Hsep'' : forall c : jsstring, Forall P separator \/ parts = []
                    \/ (c = [] /\ (length parts <= 1)%nat)).
    { intros c. destruct Hsep' as [H|H]; auto. }
    assert (Hpot : Forall P
              (if truthy current then current ++ separator ++ part else part)).
    { destruct (truthy current) eqn:T; [|exact Hpart].
      destruct Hsep as [H|[H|[H _]]];
        [| discriminate | subst current; discriminate].
      repeat (apply Forall_app; split); assumption. }
    assert (Hres' : Forall (Forall P)
              (if truthy current then result ++ [current] else result)).
    { destruct (truthy current); [|exact Hres].
      apply Forall_app; split; [exact Hres | repeat constructor; exact Hcur]. }
    match type of Hout with context [len ?p <=? _] =>
      destruct (len p <=? maxChunkSize cfg) end.
    + exact (IH _ _ _ Hrec' Hparts' Hres Hpot (Hsep'' _) Hout).
    + destruct (len part >? maxChunkSize cfg).
      * destruct (recurse part) as [sub|] eqn:Hsub; [|discriminate].
        refine (IH _ _ _ Hrec' Hparts' _ _ (Hsep'' _) Hout); [|constructor].
        apply Forall_app; split; [exact Hres'|].
        eapply Hrec; [left; reflexivity | exact Hsub].
      * exact (IH _ _ _ Hrec' Hparts' Hres' Hpart (Hsep'' _) Hout).
Qed.
End Accumulate.

(** Under a valid configuration [splitRecursively] returns once the bound
    covers the text, and every raw unit fits [maxChunkSize]. *)
Lemma splitRecursively_total (fuel : nat) :
  validConfig cfg ->
  forall (seps : list jsstring) (text : jsstring),
    (length text <= fuel)%nat ->
    exists raw, splitRecursively cfg fuel seps text = Some raw /\ Forall fits raw.
Proof.
  intros Hv. induction seps as [|separator rest IH]; intros text Hfuel;
    rewrite splitRecursively_unfold;
    destruct (len text <=? maxChunkSize cfg) eqn:E;
    try (eexists; split; [reflexivity|];
         repeat constructor; apply Z.leb_le, E).
  - apply hardSplit_total; [exact Hv | lia | unfold len; lia].
  - apply accumulate_total; [destruct Hv; lia | | constructor |].
    + intros part Hpart. apply IH.
      pose proof (split_parts_length text separator) as Hl.
      rewrite Forall_forall in Hl. specialize (Hl part Hpart). lia.
    + unfold fits, len. simpl. destruct Hv; lia.
Qed.

Lemma splitRecursively_chars (P : N -> Prop) (fuel : nat) :
  forall (seps : list jsstring) (text : jsstring) (raw : list jsstring),
    splitRecursively cfg fuel seps text = Some raw ->
    Forall P text -> Forall (Forall P) raw.
Proof.
  induction seps as [|separator rest IH]; intros text raw Hraw HP;
    rewrite splitRecursively_unfold in Hraw;
    destruct (len text <=? maxChunkSize cfg);
    try (injection Hraw as <-; repeat constructor; exact HP).
  - eapply hardSplit_chars; eassumption.
  - destruct (split_chars P text separator HP) as [Hparts Hsep].
    refine (accumulate_chars _ separator P _ [] [] raw _ Hparts
              (Forall_nil _) (Forall_nil _) _ Hraw).
    + intros part sub Hpart Hsub. eapply IH; [exact Hsub|].
      rewrite Forall_forall in Hparts. auto.
    + destruct Hsep as [H|H]; [left; exact H | right; right; auto].
Qed.

(** The chunks of the overlap loop are trimmed. *)
Lemma overlapLoop_trimmed (raw : list jsstring) :
  forall (prev : option jsstring) (i off : Z),
    Forall (fun c => startsWithWs (content c) = false
                     /\ endsWithWs (content c) = false)
      (overlapLoop cfg raw prev i off).
Proof.
  induction raw as [|r raw IH]; intros prev i off; simpl; constructor.
  - simpl. split; [apply trim_no_leading_ws | apply trim_no_trailing_ws].
  - apply IH.
Qed.

(** A chunk is at most [chunkOverlap] longer than its raw unit. *)
Lemma overlapLoop_length (raw : list jsstring) :
  0 <= chunkOverlap cfg ->
  Forall fits raw ->
  forall (prev : option jsstring) (i off : Z),
    Forall (fun c => len (content c) <= maxChunkSize cfg + chunkOverlap cfg)
      (overlapLoop cfg raw prev i off).
Proof.
  intros Hov. induction 1 as [|r raw Hr _ IH]; intros prev i off; simpl;
    constructor; [|apply IH].
  simpl. unfold fits in Hr.
  assert (Ht : forall s : jsstring, len (trim s) <= len s)
    by (intros s; pose proof (trim_length s); unfold len; lia).
  destruct prev as [p|]; [|specialize (Ht r); lia].
  destruct (chunkOverlap cfg >? 0) eqn:E; [|specialize (Ht r); lia].
  rewrite Z.gtb_ltb in E. apply Z.ltb_lt in E.
  etransitivity; [apply Ht|]. rewrite len_app.
  pose proof (sliceFrom_tail_length _ p (chunkOverlap cfg) E). lia.
Qed.

(** White space in, nothing out. *)
Lemma overlapLoop_whitespace (raw : list jsstring) :
  Forall whitespaceOnly raw ->
  forall (prev : option jsstring) (i off : Z),
    match prev with Some p => whitespaceOnly p | None => True end ->
    filter (fun c => len (content c) >? 0) (overlapLoop cfg raw prev i off) = [].
Proof.
  induction 1 as [|r raw Hr _ IH]; intros prev i off Hprev; simpl;
    [reflexivity|].
  rewrite IH by exact Hr.
  match goal with |- context [trim ?s] => assert (Hs : whitespaceOnly s) end.
  { destruct prev as [p|]; [|exact Hr].
    destruct (chunkOverlap cfg >? 0); [|exact Hr].
    apply Forall_app; split; [apply Forall_sliceFrom, Hprev | exact Hr]. }
  rewrite (trim_whitespaceOnly _ Hs). reflexivity.
Qed.

End ChunkingFacts.

(** The raw units and the chunks of a call under a valid configuration. *)
Lemma chunkText_total (text : jsstring) (config : Chunking.PartialChunkConfig)
    (fuel : nat) :
  validConfig (Chunking.spread config) ->
  (length text <= fuel)%nat ->
  exists raw,
    Chunking.splitRecursively (Chunking.spread config) fuel
      (Chunking.separators (Chunking.spread config)) text = Some raw
    /\ Forall (fun r => len r <= Chunking.maxChunkSize (Chunking.spread config)) raw
    /\ Chunking.chunkText fuel text config =
       Some (filter (fun c => len (Chunking.content c) >? 0)
               (Chunking.overlapLoop (Chunking.spread config) raw None 0 0)).
Proof.
  intros Hv Hfuel.
  destruct (splitRecursively_total (Chunking.spread config) fuel Hv
              (Chunking.separators (Chunking.spread config)) text Hfuel)
    as [raw [Hraw Hfit]].
  exists raw. split; [exact Hraw|]. split; [exact Hfit|].
  unfold Chunking.chunkText. rewrite Hraw. reflexivity.
Qed.

(** A text no longer than [maxChunkSize] is its own single raw unit, under
    every configuration and every bound. *)
Lemma chunkText_short (text : jsstring) (config : Chunking.PartialChunkConfig)
    (fuel : nat) :
  len text <= Chunking.maxChunkSize (Chunking.spread config) ->
  Chunking.chunkText fuel text config =
  Some (if truthy (trim text)
        then [Sample.chunkOf (trim text) 0 0 (len text)]
        else []).
Proof.
  intros Hlen. unfold Chunking.chunkText.
  rewrite splitRecursively_unfold.
  apply Z.leb_le in Hlen. rewrite Hlen. simpl.
  destruct (trim text) as [|c t] eqn:E; simpl; [reflexivity|].
  replace (len (c :: t) >? 0) with true; [reflexivity|].
  symmetry. rewrite Z.gtb_ltb. apply Z.ltb_lt. unfold len. simpl. lia.
Qed.

(** C10. Under a valid configuration [chunkText] returns, and every chunk it
    returns has a content that is not empty and has no white space at either
    end; a text of white space only, of any length, gives no chunk; a text no
    longer than [maxChunkSize] comes back trimmed, as one chunk. *)
Theorem chunkText_content_trimmed (text : jsstring)
    (config : Chunking.PartialChunkConfig) (fuel : nat) :
  validConfig (Chunking.spread config) ->
  (length text <= fuel)%nat ->
  exists chunks,
    Chunking.chunkText fuel text config = Some chunks
    /\ Forall (fun c => Chunking.content c <> []
                        /\ startsWithWs (Chunking.content c) = false
                        /\ endsWithWs (Chunking.content c) = false) chunks
    /\ (whitespaceOnly text -> chunks = [])
    /\ (len text <= Chunking.maxChunkSize (Chunking.spread config) ->
        chunks = if truthy (trim text)
                 then [Sample.chunkOf (trim text) 0 0 (len text)]
                 else []).
Proof.
  intros Hv Hfuel.
  destruct (chunkText_total text config fuel Hv Hfuel) as [raw [Hraw [_ Hch]]].
  eexists. split; [exact Hch|]. split; [|split].
  - apply Forall_forall. intros c Hc. apply filter_In in Hc as [Hc Hlen].
    pose proof (overlapLoop_trimmed (Chunking.spread config) raw None 0 0) as Ht.
    rewrite Forall_forall in Ht. specialize (Ht c Hc).
    split; [|exact Ht].
    intros Hnil. rewrite Hnil in Hlen. discriminate.
  - intros Hws. apply overlapLoop_whitespace; [|exact I].
    eapply splitRecursively_chars; eassumption.
  - intros Hlen. pose proof (chunkText_short text config fuel Hlen) as Hs.
    rewrite Hch in Hs. injection Hs as Hs. exact Hs.
Qed.

(** C10, on [" hi "] with the default configuration: one chunk, ["hi"]. *)
Lemma chunkText_content_trimmed_witness :
  Chunking.chunkText 4 (lit " hi ") Chunking.emptyConfig
  = Some [Sample.chunkOf (lit "hi") 0 0 4].
Proof.
  destruct (chunkText_content_trimmed (lit " hi ") Chunking.emptyConfig 4)
    as [chunks [Hch [_ [_ Hshort]]]].
  - unfold validConfig. simpl. lia.
  - simpl. lia.
  - rewrite Hch, Hshort; [reflexivity|]. vm_compute. discriminate.
Defined.

(** C4, as stated, fails: with [maxChunkSize = 5] and [chunkOverlap = 2] the
    text ["aaaaa bbbbb"] splits at its space into two raw units of five code
    units, no hard split takes place, and the second chunk has seven. *)
Lemma chunkText_overlap_exceeds_maxChunkSize :
  validConfig (Chunking.spread (Sample.chunkConfig 5 2))
  /\ split (lit "aaaaa bbbbb") (lit " ") = [lit "aaaaa"; lit "bbbbb"]
  /\ Chunking.splitRecursively (Chunking.spread (Sample.chunkConfig 5 2)) 11
       (Chunking.separators (Chunking.spread (Sample.chunkConfig 5 2)))
       (lit "aaaaa bbbbb") = Some [lit "aaaaa"; lit "bbbbb"]
  /\ Chunking.chunkText 11 (lit "aaaaa bbbbb") (Sample.chunkConfig 5 2)
     = Some [Sample.chunkOf (lit "aaaaa") 0 0 5;
             Sample.chunkOf (lit "aabbbbb") 1 5 10]
  /\ (len (lit "aabbbbb") >? 5) = true.
Proof.
  split; [unfold validConfig; simpl; lia|].
  repeat split; reflexivity.
Qed.

(** C4, amended. Under a valid configuration [chunkText] returns; every raw
    unit, a hard-split window included, has at most [maxChunkSize] code
    units, and every chunk content at most [maxChunkSize + chunkOverlap],
    so at most [maxChunkSize] when [chunkOverlap = 0]. *)
Theorem chunkText_content_length (text : jsstring)
    (config : Chunking.PartialChunkConfig) (fuel : nat) :
  validConfig (Chunking.spread config) ->
  (length text <= fuel)%nat ->
  exists raw chunks,
    Chunking.splitRecursively (Chunking.spread config) fuel
      (Chunking.separators (Chunking.spread config)) text = Some raw
    /\ Forall (fun r => len r <= Chunking.maxChunkSize (Chunking.spread config)) raw
    /\ Chunking.chunkText fuel text config = Some chunks
    /\ Forall (fun c => len (Chunking.content c)
                        <= Chunking.maxChunkSize (Chunking.spread config)
                           + Chunking.chunkOverlap (Chunking.spread config)) chunks
    /\ (Chunking.chunkOverlap (Chunking.spread config) = 0 ->
        Forall (fun c => len (Chunking.content c)
                         <= Chunking.maxChunkSize (Chunking.spread config)) chunks).
Proof.
  intros Hv Hfuel.
  destruct (chunkText_total text config fuel Hv Hfuel) as [raw [Hraw [Hfit Hch]]].
  exists raw. eexists. split; [exact Hraw|]. split; [exact Hfit|].
  split; [exact Hch|].
  assert (Hall : Forall (fun c => len (Chunking.content c)
                   <= Chunking.maxChunkSize (Chunking.spread config)
                      + Chunking.chunkOverlap (Chunking.spread config))
            (filter (fun c => len (Chunking.content c) >? 0)
               (Chunking.overlapLoop (Chunking.spread config) raw None 0 0))).
  { apply Forall_forall. intros c Hc. apply filter_In in Hc as [Hc _].
    pose proof (overlapLoop_length (Chunking.spread config) raw
                  (proj1 Hv) Hfit None 0 0) as Hl.
    rewrite Forall_forall in Hl. exact (Hl c Hc). }
  split; [exact Hall|].
  intros H0. rewrite H0, Z.add_0_r in Hall. exact Hall.
Qed.

(** C4, on ["A".repeat(500) + "\n\n" + "B".repeat(500)] with
    [maxChunkSize = 200] and [chunkOverlap = 0]: more than one chunk, each of
    at most 200 code units. *)
Lemma chunkText_content_length_witness :
  exists chunks,
    Chunking.chunkText 1002 Sample.twoParagraphs (Sample.chunkConfig 200 0)
    = Some chunks
    /\ (1 < length chunks)%nat
    /\ Forall (fun c => len (Chunking.content c) <= 200) chunks.
Proof.
  destruct (chunkText_content_length Sample.twoParagraphs
              (Sample.chunkConfig 200 0) 1002)
    as [raw [chunks [_ [_ [Hch [_ Hmax]]]]]].
  - unfold validConfig. simpl. lia.
  - vm_compute. repeat constructor.
  - exists chunks. split; [exact Hch|]. split; [|exact (Hmax eq_refl)].
    vm_compute in Hch. injection Hch as <-. simpl. lia.
Defined.

(** C3, as stated, fails: with [chunkOverlap = maxChunkSize = 10] the call
    on ["hi"] throws nothing and returns the text as a chunk, before any loop
    bound is touched. *)
Lemma chunkText_malformed_returns :
  malformedConfig (Chunking.spread (Sample.chunkConfig 10 10))
  /\ Chunking.chunkText 0 (lit "hi") (Sample.chunkConfig 10 10)
     = Some [Sample.chunkOf (lit "hi") 0 0 2].
Proof.
  split; [left; simpl; lia | reflexivity].
Qed.

(** C3, amended. [chunkText] checks nothing about its configuration: under
    a malformed one, a text no longer than [maxChunkSize] is returned as one
    trimmed chunk, or as no chunk when it trims to the empty string. *)
Theorem chunkText_unvalidated (text : jsstring)
    (config : Chunking.PartialChunkConfig) (fuel : nat) :
  malformedConfig (Chunking.spread config) ->
  len text <= Chunking.maxChunkSize (Chunking.spread config) ->
  Chunking.chunkText fuel text config =
  Some (if truthy (trim text)
        then [Sample.chunkOf (trim text) 0 0 (len text)]
        else []).
Proof.
  intros _ Hlen. apply chunkText_short. exact Hlen.
Qed.

(** C3, on the empty text with [maxChunkSize = 0]: no chunk, no error. *)
Lemma chunkText_unvalidated_witness :
  Chunking.chunkText 0 (lit "") (Sample.chunkConfig 0 0) = Some [].
Proof.
  apply (chunkText_unvalidated (lit "") (Sample.chunkConfig 0 0) 0).
  - right. simpl. lia.
  - vm_compute. discriminate.
Defined.

(** Under [chunkOverlap = maxChunkSize = 2] the call on ["aaaaa"] reaches
    the hard split with stride 0 and never returns. *)
Lemma chunkText_malformed_diverges (fuel : nat) :
  Chunking.chunkText fuel (lit "aaaaa") (Sample.chunkConfig 2 2) = None.
Proof.
  unfold Chunking.chunkText.
  repeat (rewrite splitRecursively_unfold; simpl).
  rewrite hardSplit_diverges; [reflexivity | simpl; lia | vm_compute; reflexivity].
Qed.

(** The length of the answer of the merge loop, and when it is short of the
    bound. *)
Lemma mergeLoop_length (minSize : Z) (chunks : list Chunking.TextChunk) :
  forall (merged : list Chunking.TextChunk) (cur : Chunking.TextChunk),
    (length (Chunking.mergeLoop minSize chunks merged (Some cur))
     <= length merged + 1 + length chunks)%nat
    /\ ((len (Chunking.content cur) < minSize /\ chunks <> [])
        \/ (exists i c, nth_error chunks i = Some c
                        /\ len (Chunking.content c) < minSize
                        /\ (S i < length chunks)%nat) ->
        (length (Chunking.mergeLoop minSize chunks merged (Some cur))
         < length merged + 1 + length chunks)%nat).
Proof.
  induction chunks as [|chunk rest IH]; intros merged cur; simpl.
  - rewrite length_app. simpl. split; [lia|].
    intros [[_ H]|[i [c [H _]]]]; [contradiction|].
    destruct i; discriminate.
  - destruct (len (Chunking.content cur) <? minSize) eqn:E.
    + match goal with |- context [Chunking.mergeLoop _ _ _ (Some ?c)] =>
        destruct (IH merged c) as [Hle _] end.
      split; [lia | intros _; lia].
    + match goal with |- context [Chunking.mergeLoop _ _ ?m (Some ?c)] =>
        destruct (IH m c) as [Hle Hlt] end.
      rewrite length_app in Hle, Hlt. simpl in Hle, Hlt.
      split; [lia|].
      apply Z.ltb_ge in E.
      intros [[Hshort _]|[i [c [Hnth [Hshort Hsucc]]]]]; [lia|].
      destruct i as [|j]; simpl in Hnth.
      * injection Hnth as <-.
        assert (rest <> []) by (destruct rest; [simpl in Hsucc; lia | discriminate]).
        specialize (Hlt (or_introl (conj Hshort H))). lia.
      * assert (Hex : exists i c, nth_error rest i = Some c
                        /\ len (Chunking.content c) < minSize
                        /\ (S i < length rest)%nat)
          by (exists j, c; repeat split; [assumption | assumption | lia]).
        specialize (Hlt (or_intror Hex)). lia.
Qed.

(** C8. [mergeSmallChunks] returns no more chunks than it is given, and
    fewer when some chunk that has a successor is shorter than [minSize]. *)
Theorem mergeSmallChunks_count (chunks : list Chunking.TextChunk) (minSize : Z) :
  (length (Chunking.mergeSmallChunks chunks minSize) <= length chunks)%nat
  /\ ((exists i c, nth_error chunks i = Some c
                   /\ len (Chunking.content c) < minSize
                   /\ (S i < length chunks)%nat) ->
      (length (Chunking.mergeSmallChunks chunks minSize) < length chunks)%nat).
Proof.
  unfold Chunking.mergeSmallChunks.
  destruct chunks as [|first rest]; simpl.
  - split; [lia|]. intros [i [c [H _]]]. destruct i; discriminate.
  - destruct (mergeLoop_length minSize rest [] first) as [Hle Hlt].
    simpl in Hle, Hlt. split; [lia|].
    intros [i [c [Hnth [Hshort Hsucc]]]].
    destruct i as [|j]; simpl in Hnth.
    + injection Hnth as <-.
      assert (rest <> []) by (destruct rest; [simpl in Hsucc; lia | discriminate]).
      specialize (Hlt (or_introl (conj Hshort H))). lia.
    + assert (Hex : exists i c, nth_error rest i = Some c
                      /\ len (Chunking.content c) < minSize
                      /\ (S i < length rest)%nat)
        by (exists j, c; repeat split; [assumption | assumption | simpl in Hsucc; lia]).
      specialize (Hlt (or_intror Hex)). lia.
Qed.

(** C8, on chunks of 5, 10 and 49 code units with [minSize = 30]: fewer than
    three chunks come back. *)
Lemma mergeSmallChunks_count_witness :
  (length (Chunking.mergeSmallChunks
             [Sample.chunkOfLength 5; Sample.chunkOfLength 10;
              Sample.chunkOfLength 49] 30) < 3)%nat.
Proof.
  apply (proj2 (mergeSmallChunks_count
                  [Sample.chunkOfLength 5; Sample.chunkOfLength 10;
                   Sample.chunkOfLength 49] 30)).
  exists 0%nat, (Sample.chunkOfLength 5).
  split; [reflexivity|]. split; [vm_compute; reflexivity | simpl; lia].
Defined.

(** ** The token counter *)

Lemma splitLoop_unfold (fuel : nat) (maxTokens : Z) (remaining : jsstring)
    (parts : list jsstring) :
  Tokenization.splitLoop fuel maxTokens remaining parts =
  if len remaining >? 0 then
    if Tokenization.count remaining <=? maxTokens then Some (parts ++ [remaining])
    else
      match fuel with
      | O => None
      | S fuel' =>
          Tokenization.splitLoop fuel' maxTokens
            (trim (sliceFrom remaining
                     (len (Tokenization.truncate remaining maxTokens))))
            (parts ++ [Tokenization.truncate remaining maxTokens])
      end
  else Some parts.
Proof. destruct fuel; reflexivity. Qed.

Example count_words_and_punctuation :
  Tokenization.count (lit "hello, supercalifragilistic!") = 7.
Proof. reflexivity. Qed.

Example count_of_empty : Tokenization.count (lit "") = 1.
Proof. reflexivity. Qed.

Lemma truncate_two_words : Tokenization.truncate (lit "a b") 1 = [].
Proof. vm_compute. reflexivity. Qed.

Lemma splitLoop_two_words_stuck (fuel : nat) :
  forall parts, Tokenization.splitLoop fuel 1 (lit "a b") parts = None.
Proof.
  induction fuel as [|fuel IH]; intros parts; rewrite splitLoop_unfold;
    change (len (lit "a b") >? 0) with true;
    change (Tokenization.count (lit "a b") <=? 1) with false; cbv iota;
    [reflexivity|].
  rewrite truncate_two_words.
  change (trim (sliceFrom (lit "a b") (len (@nil N)))) with (lit "a b").
  apply IH.
Qed.

(** The binary search is not entered for a text of ten code units or
    fewer: a text that short and over the budget is truncated to the empty
    string. *)
Lemma truncate_short_over_budget (text : jsstring) (maxTokens : Z) :
  (length text <= 10)%nat -> maxTokens < Tokenization.count text ->
  Tokenization.truncate text maxTokens = [].
Proof.
  intros Hshort Hover. unfold Tokenization.truncate.
  replace (Tokenization.count text <=? maxTokens) with false
    by (symmetry; apply Z.leb_gt; exact Hover).
  rewrite Tokenization.searchLoop_equation_1.
  destruct (lt_dec 10 (length text - 0)) as [Hlt|Hge]; [lia|].
  rewrite Tokenization.searchLoop_clause_1_equation_2.
  change (Z.of_nat 0) with 0. rewrite slice_0_0. reflexivity.
Qed.

(** X1. On a text of one to ten code units that is trimmed already and
    counts more than [maxTokens] tokens, [split] makes no progress and never
    returns. *)
Lemma split_short_over_budget (text : jsstring) (maxTokens : Z) :
  (0 < length text <= 10)%nat -> maxTokens < Tokenization.count text ->
  trim text = text ->
  forall fuel, Tokenization.split fuel text maxTokens = None.
Proof.
  intros [Hpos Hshort] Hover Htrim fuel. unfold Tokenization.split.
  generalize (@nil jsstring).
  induction fuel as [|fuel IH]; intros parts; rewrite splitLoop_unfold;
    replace (len text >? 0) with true
      by (symmetry; rewrite Z.gtb_ltb; apply Z.ltb_lt; unfold len; lia);
    replace (Tokenization.count text <=? maxTokens) with false
      by (symmetry; apply Z.leb_gt; exact Hover);
    [reflexivity|].
  rewrite (truncate_short_over_budget text maxTokens Hshort Hover).
  change (len (@nil N)) with 0. rewrite sliceFrom_0, Htrim. apply IH.
Qed.

(** C9 fails on the code. ["a b"] counts two tokens; [truncate("a b", 1)]
    is the empty string, because the binary search is not entered for a
    text of ten code units or fewer and [low] stays 0; so the remainder of
    [split("a b", 1)] is ["a b"] again after every round, and the call never
    returns. *)
Theorem split_two_words_never_returns :
  Tokenization.count (lit "a b") = 2
  /\ Tokenization.truncate (lit "a b") 1 = []
  /\ trim (sliceFrom (lit "a b") (len (Tokenization.truncate (lit "a b") 1)))
     = lit "a b"
  /\ forall fuel, Tokenization.split fuel (lit "a b") 1 = None.
Proof.
  split; [reflexivity|]. split; [apply truncate_two_words|].
  split; [rewrite truncate_two_words; reflexivity|].
  intros fuel. apply splitLoop_two_words_stuck.
Qed.

(** ** The sort *)

Section SortFacts.
Variable A : Type.
Variable negative : A -> A -> bool.

(** An array in which no element compares negative against its predecessor
    is left as it is. *)
Lemma sort_of_sorted (l : list A) :
  Sorted (fun a b => negative b a = false) l -> sort negative l = l.
Proof.
  induction 1 as [|x l Hs IH Hhd]; simpl; [reflexivity|].
  rewrite IH. destruct Hhd as [|e rest He]; simpl; [reflexivity|].
  rewrite He. reflexivity.
Qed.

Lemma place_length (x : A) (l : list A) :
  length (place negative x l) = S (length l).
Proof.
  induction l as [|e rest IH]; simpl; [reflexivity|].
  destruct (negative e x); simpl; [rewrite IH|]; reflexivity.
Qed.

Lemma sort_length (l : list A) : length (sort negative l) = length l.
Proof.
  induction l as [|x rest IH]; simpl; [reflexivity|].
  rewrite place_length, IH. reflexivity.
Qed.

Lemma place_In (x y : A) (l : list A) :
  In y (place negative x l) <-> y = x \/ In y l.
Proof.
  induction l as [|e rest IH]; simpl; [intuition congruence|].
  destruct (negative e x); simpl; [rewrite IH|]; intuition congruence.
Qed.

Lemma sort_In (y : A) (l : list A) : In y (sort negative l) <-> In y l.
Proof.
  induction l as [|x rest IH]; simpl; [tauto|].
  rewrite place_In, IH. intuition congruence.
Qed.

(** When, of two elements, one compares negative against the other or is
    at least as large in the order [ge], the sorted array descends along
    [ge]. *)
Lemma place_sorted (ge : A -> A -> Prop) (x : A) (l : list A) :
  (forall e, In e l -> negative e x = true -> ge e x) ->
  (forall e, In e l -> negative e x = false -> ge x e) ->
  Sorted ge l -> Sorted ge (place negative x l).
Proof.
  intros Hpos Hneg. induction 1 as [|e rest Hs IH Hhd]; simpl.
  - repeat constructor.
  - destruct (negative e x) eqn:E.
    + constructor.
      * apply IH; intros; [apply Hpos | apply Hneg]; simpl; auto.
      * destruct Hhd as [|e' rest' He']; simpl.
        -- constructor. apply Hpos; simpl; auto.
        -- destruct (negative e' x); constructor;
             [exact He' | apply Hpos; simpl; auto].
    + constructor; [constructor; assumption|].
      constructor. apply Hneg; simpl; auto.
Qed.

Lemma sort_sorted (ge : A -> A -> Prop) (l : list A) :
  (forall e x, In e l -> In x l -> negative e x = true -> ge e x) ->
  (forall e x, In e l -> In x l -> negative e x = false -> ge x e) ->
  Sorted ge (sort negative l).
Proof.
  induction l as [|x rest IH]; intros Hpos Hneg; simpl; [constructor|].
  apply place_sorted.
  - intros e He Hn. rewrite sort_In in He. apply Hpos; simpl; auto.
  - intros e He Hn. rewrite sort_In in He. apply Hneg; simpl; auto.
  - apply IH; intros; [apply Hpos | apply Hneg]; simpl; auto.
Qed.
End SortFacts.

(** ** The map of the store *)

Section MapFacts.
Import VectorStore.

Lemma mapSet_fresh (m : DocMap) (k : jsstring) (v : VectorDocument) :
  ~ In k (map fst m) -> mapSet m k v = m ++ [(k, v)].
Proof.
  induction m as [|[k' v'] rest IH]; simpl; intros Hk; [reflexivity|].
  destruct (str_eq_dec k' k) as [->|_]; [tauto|].
  rewrite IH; [reflexivity | tauto].
Qed.

Lemma mapSet_keys (m : DocMap) (k : jsstring) (v : VectorDocument) :
  forall x, In x (map fst (mapSet m k v)) <-> x = k \/ In x (map fst m).
Proof.
  induction m as [|[k' v'] rest IH]; simpl; intros x; [intuition congruence|].
  destruct (str_eq_dec k' k) as [->|Hne]; simpl;
    [|rewrite IH]; intuition congruence.
Qed.

Lemma mapSet_NoDup (m : DocMap) (k : jsstring) (v : VectorDocument) :
  NoDup (map fst m) -> NoDup (map fst (mapSet m k v)).
Proof.
  induction m as [|[k' v'] rest IH]; simpl; intros Hnd.
  - repeat constructor. simpl. tauto.
  - inversion Hnd as [|? ? Hnotin Hrest]; subst.
    destruct (str_eq_dec k' k) as [->|Hne]; simpl.
    + constructor; assumption.
    + constructor; [|apply IH, Hrest].
      rewrite mapSet_keys. intros [->|H]; tauto.
Qed.

Lemma mapSet_keysAreIds (m : DocMap) (v : VectorDocument) :
  keysAreIds m -> keysAreIds (mapSet m (id v) v).
Proof.
  unfold keysAreIds. induction 1 as [|[k' v'] rest Hk Hrest IH]; simpl.
  - repeat constructor.
  - destruct (str_eq_dec k' (id v)) as [->|Hne];
      constructor; simpl; auto.
Qed.

Lemma mapDelete_keys (m : DocMap) (k : jsstring) :
  forall x, In x (map fst (mapDelete m k)) -> In x (map fst m).
Proof.
  induction m as [|[k' v'] rest IH]; simpl; intros x; [tauto|].
  destruct (str_eq_dec k' k); simpl; [tauto|].
  intros [H|H]; [tauto | right; apply IH, H].
Qed.

Lemma mapDelete_NoDup (m : DocMap) (k : jsstring) :
  NoDup (map fst m) -> NoDup (map fst (mapDelete m k)).
Proof.
  induction m as [|[k' v'] rest IH]; simpl; intros Hnd; [constructor|].
  inversion Hnd as [|? ? Hnotin Hrest]; subst.
  destruct (str_eq_dec k' k); simpl; [assumption|].
  constructor; [|apply IH, Hrest].
  intros H. apply Hnotin. eapply mapDelete_keys, H.
Qed.

Lemma mapDelete_keysAreIds (m : DocMap) (k : jsstring) :
  keysAreIds m -> keysAreIds (mapDelete m k).
Proof.
  unfold keysAreIds. induction 1 as [|[k' v'] rest Hk Hrest IH]; simpl.
  - constructor.
  - destruct (str_eq_dec k' k); [assumption | constructor; assumption].
Qed.

Lemma mapGet_mapHas (m : DocMap) (k : jsstring) :
  mapHas m k = match mapGet m k with Some _ => true | None => false end.
Proof.
  induction m as [|[k' v'] rest IH]; simpl; [reflexivity|].
  destruct (str_eq_dec k' k); [reflexivity | exact IH].
Qed.

(** Writing the values of a map one by one onto a map with other keys
    appends its entries. *)
Lemma import_appends (r : DocMap) :
  forall d : DocMap,
    NoDup (map fst (d ++ r)) -> keysAreIds r ->
    fold_left (fun m doc => mapSet m (id doc) doc) (values r) d = d ++ r.
Proof.
  induction r as [|[k v] rest IH]; intros d Hnd Hk; simpl.
  - rewrite app_nil_r. reflexivity.
  - inversion Hk as [|? ? Hkv Hrest]; subst. simpl in Hkv. subst k.
    rewrite mapSet_fresh.
    + change (d ++ (id v, v) :: rest) with (d ++ [(id v, v)] ++ rest).
      rewrite app_assoc. apply IH; [|exact Hrest].
      rewrite <- app_assoc. exact Hnd.
    + rewrite map_app in Hnd. simpl in Hnd.
      apply NoDup_remove_2 in Hnd. intros H. apply Hnd.
      apply in_or_app. left. exact H.
Qed.

Lemma new_wellFormed (p : PartialConfig) : wellFormed (new p).
Proof. split; constructor. Qed.

Lemma evictOldest_wellFormed (s : Store) :
  wellFormed s ->
  NoDup (map fst (evictOldest s)) /\ keysAreIds (evictOldest s).
Proof.
  intros [Hnd Hk]. unfold evictOldest.
  destruct (atCapacity s); [|split; assumption].
  destruct (sort olderFirst (values (documents s))); [split; assumption|].
  split; [apply mapDelete_NoDup | apply mapDelete_keysAreIds]; assumption.
Qed.

Lemma add_wellFormed (s s' : Store) (doc : NewDocument) (now : Z) :
  wellFormed s -> add s doc now = Ok s' -> wellFormed s'.
Proof.
  intros Hwf. unfold add.
  destruct (negb (len (n_embedding doc) =? dimensions (config s)));
    [discriminate|].
  intros H. injection H as <-.
  destruct (evictOldest_wellFormed s Hwf) as [Hnd Hk].
  split; simpl.
  - apply mapSet_NoDup, Hnd.
  - match goal with |- keysAreIds (mapSet _ _ ?v) =>
      apply (mapSet_keysAreIds _ v), Hk end.
Qed.

Lemma import_wellFormed (s : Store) (docs : list VectorDocument) :
  wellFormed s -> wellFormed (import s docs).
Proof.
  unfold wellFormed, import. simpl.
  generalize (documents s). induction docs as [|d rest IH]; intros m [Hnd Hk];
    simpl; [split; assumption|].
  apply IH. split; [apply mapSet_NoDup, Hnd | apply mapSet_keysAreIds, Hk].
Qed.

Lemma delete_wellFormed (s : Store) (k : jsstring) :
  wellFormed s -> wellFormed (snd (delete s k)).
Proof.
  intros [Hnd Hk].
  split; simpl; [apply mapDelete_NoDup | apply mapDelete_keysAreIds]; assumption.
Qed.

Lemma clear_wellFormed (s : Store) : wellFormed (clear s).
Proof. split; constructor. Qed.

End MapFacts.

(** ** The vector store: capacity *)

Section AddFacts.
Import VectorStore.

Lemma oldestFirst_sort (l : list VectorDocument) :
  Sorted Z.le (map createdAt l) -> sort olderFirst l = l.
Proof.
  intros H. apply sort_of_sorted.
  induction l as [|a l IH]; [constructor|].
  simpl in H. inversion H as [|? ? Hs Hhd]; subst.
  constructor; [apply IH, Hs|].
  destruct l as [|b l]; constructor.
  simpl in Hhd. inversion Hhd; subst.
  unfold olderFirst. apply Z.ltb_ge. lia.
Qed.

Lemma Sorted_tail (l : list Z) : Sorted Z.le l -> Sorted Z.le (tl l).
Proof. destruct 1; simpl; [constructor | assumption]. Qed.

Lemma lastN_length (A : Type) (n : nat) (l : list A) :
  (length (lastN n l) <= n)%nat.
Proof. unfold lastN. rewrite length_skipn. lia. Qed.

Lemma lastN_all (A : Type) (n : nat) (l : list A) :
  (length l <= n)%nat -> lastN n l = l.
Proof.
  intros H. unfold lastN. replace (length l - n)%nat with 0%nat by lia.
  reflexivity.
Qed.

Lemma lastN_cons (A : Type) (n : nat) (x : A) (l : list A) :
  (n <= length l)%nat -> lastN n (x :: l) = lastN n l.
Proof.
  intros H. unfold lastN. simpl length.
  replace (S (length l) - n)%nat with (S (length l - n)) by lia.
  reflexivity.
Qed.

(** One [add] of a new id to a store that is no larger than its capacity
    and holds its documents oldest first: the first entry leaves when the
    store is full, and the new entry goes last. *)
Lemma add_new_id (s : Store) (cap : Z) (doc : NewDocument) (now : Z) :
  maxDocuments (config s) = Some cap -> 0 < cap ->
  keysAreIds (documents s) -> oldestFirst (documents s) ->
  len (documents s) <= cap ->
  ~ In (n_id doc) (map fst (documents s)) ->
  len (n_embedding doc) = dimensions (config s) ->
  add s doc now =
  Ok {| documents :=
          (if len (documents s) <? cap then documents s else tl (documents s))
          ++ [stored (doc, now)];
        config := config s |}.
Proof.
  intros Hcap Hpos Hk Hold Hlen Hfresh Hdim.
  unfold add. rewrite Hdim, Z.eqb_refl. simpl negb. cbv iota.
  f_equal. f_equal.
  unfold evictOldest, atCapacity. rewrite Hcap.
  replace (cap =? 0) with false by (symmetry; apply Z.eqb_neq; lia).
  simpl negb. rewrite andb_true_l.
  destruct (len (documents s) <? cap) eqn:E.
  - apply Z.ltb_lt in E.
    replace (len (documents s) >=? cap) with false
      by (symmetry; rewrite Z.geb_leb; apply Z.leb_gt; lia).
    apply mapSet_fresh, Hfresh.
  - apply Z.ltb_ge in E.
    replace (len (documents s) >=? cap) with true
      by (symmetry; rewrite Z.geb_leb; apply Z.leb_le; lia).
    rewrite (oldestFirst_sort _ Hold).
    destruct (documents s) as [|[k v] rest] eqn:D; [unfold len in E; simpl in E; lia|].
    inversion Hk as [|? ? Hkv _]; subst. simpl in Hkv. subst k.
    simpl. destruct (str_eq_dec (id v) (id v)) as [_|Hne]; [|contradiction].
    apply mapSet_fresh. simpl in Hfresh. tauto.
Qed.

(** A run of [add] calls with new, distinct ids and a clock that does not
    go back keeps the window of the last [cap] entries. *)
Lemma addBatch_window (cap : Z) (calls : list (NewDocument * Z)) :
  0 < cap ->
  forall s : Store,
    maxDocuments (config s) = Some cap ->
    keysAreIds (documents s) ->
    len (documents s) <= cap ->
    NoDup (map fst (documents s) ++ map (fun c => n_id (fst c)) calls) ->
    Sorted Z.le (map createdAt (values (documents s)) ++ map snd calls) ->
    Forall (fun c => len (n_embedding (fst c)) = dimensions (config s)) calls ->
    exists s',
      addBatch s calls = Ok s'
      /\ config s' = config s
      /\ documents s' = lastN (Z.to_nat cap) (documents s ++ map stored calls).
Proof.
  intros Hpos. induction calls as [|[doc now] rest IH];
    intros s Hcap Hk Hlen Hnd Hsorted Hdims.
  - exists s. split; [reflexivity|]. split; [reflexivity|].
    simpl. rewrite app_nil_r. symmetry. apply lastN_all. unfold len in Hlen. lia.
  - simpl in Hnd, Hsorted. inversion Hdims as [|? ? Hdim Hdims']; subst.
    simpl in Hdim.
    assert (Hfresh : ~ In (n_id doc) (map fst (documents s))).
    { apply NoDup_remove_2 in Hnd. intros H. apply Hnd.
      apply in_or_app. left. exact H. }
    assert (Hold : oldestFirst (documents s)).
    { unfold oldestFirst. revert Hsorted.
      generalize (map createdAt (values (documents s))). intros l.
      induction l as [|a l IHl]; intros H; [constructor|].
      simpl in H. inversion H as [|? ? Hs Hhd]; subst.
      constructor; [apply IHl, Hs|].
      destruct l; constructor. simpl in Hhd. inversion Hhd. assumption. }
    simpl addBatch.
    rewrite (add_new_id s cap doc now Hcap Hpos Hk Hold Hlen Hfresh Hdim).
    simpl bind.
    match goal with |- context [addBatch ?s1 rest] => specialize (IH s1) end.
    simpl documents in IH. simpl config in IH.
    destruct (len (documents s) <? cap) eqn:E.
    + apply Z.ltb_lt in E.
      destruct IH as [s' [Hs' [Hcfg Hdocs]]]; try assumption.
      * apply Forall_app. split; [exact Hk | repeat constructor].
      * rewrite len_app. unfold len in *. simpl. lia.
      * rewrite map_app, <- app_assoc. exact Hnd.
      * unfold values. rewrite !map_app, <- app_assoc. exact Hsorted.
      * exists s'. split; [exact Hs'|]. split; [exact Hcfg|].
        rewrite Hdocs, <- app_assoc. reflexivity.
    + apply Z.ltb_ge in E.
      destruct (documents s) as [|[k v] tail] eqn:D;
        [unfold len in E; simpl in E; lia|].
      simpl tl in *.
      destruct IH as [s' [Hs' [Hcfg Hdocs]]]; try assumption.
      * apply Forall_app. split; [|repeat constructor].
        inversion Hk; assumption.
      * rewrite len_app. unfold len in *. simpl in *. lia.
      * rewrite map_app, <- app_assoc. simpl in Hnd.
        inversion Hnd; assumption.
      * unfold values. rewrite !map_app, <- app_assoc. simpl in Hsorted.
        inversion Hsorted; assumption.
      * exists s'. split; [exact Hs'|]. split; [exact Hcfg|].
        rewrite Hdocs, <- app_assoc. simpl app.
        symmetry. apply lastN_cons.
        rewrite length_app. unfold len in *. simpl in *. lia.
Qed.

End AddFacts.

(** C2, as stated, fails. [add] evicts by [createdAt], the reading of the
    clock at the call, not by the order of the calls. With
    [maxDocuments = 2], [a] is added at clock reading 5, [b] at 3 and [c] at
    4: the ids are distinct, the embeddings have the configured dimension
    and every call succeeds. At the third call [b] has the least
    [createdAt] and is evicted: the store holds [a] and [c], where the two
    most recently added are [b] and [c]. *)
Lemma add_evicts_by_clock_not_by_call :
  exists s',
    VectorStore.addBatch (Sample.storeOf 3 (Some 2))
      [(Sample.doc "a" [1; 0; 0]%float, 5);
       (Sample.doc "b" [0; 1; 0]%float, 3);
       (Sample.doc "c" [0; 0; 1]%float, 4)] = Ok s'
    /\ VectorStore.size s' = 2
    /\ map fst (VectorStore.documents s') = [lit "a"; lit "c"]
    /\ map fst
         (lastN 2
            (map stored
               [(Sample.doc "a" [1; 0; 0]%float, 5);
                (Sample.doc "b" [0; 1; 0]%float, 3);
                (Sample.doc "c" [0; 0; 1]%float, 4)]))
       = [lit "b"; lit "c"].
Proof.
  eexists. split; [reflexivity|]. repeat split.
Qed.

(** C2, amended. From a new store with [maxDocuments = cap > 0], a run of
    [add] calls with distinct ids, embeddings of the configured dimension
    and clock readings that do not go back succeeds; the store then holds
    at most [cap] documents, and they are the last [cap] that were added,
    in the order of their addition. *)
Theorem add_keeps_most_recent (p : VectorStore.PartialConfig) (cap : Z)
    (calls : list (VectorStore.NewDocument * Z)) :
  VectorStore.p_maxDocuments p = Some cap -> 0 < cap ->
  NoDup (map (fun c => VectorStore.n_id (fst c)) calls) ->
  Forall (fun c => len (VectorStore.n_embedding (fst c))
                   = VectorStore.dimensions (VectorStore.config (VectorStore.new p)))
    calls ->
  Sorted Z.le (map snd calls) ->
  exists s',
    VectorStore.addBatch (VectorStore.new p) calls = Ok s'
    /\ VectorStore.size s' <= cap
    /\ VectorStore.documents s' = lastN (Z.to_nat cap) (map stored calls).
Proof.
  intros Hcap Hpos Hnd Hdims Hsorted.
  destruct (addBatch_window cap calls Hpos (VectorStore.new p))
    as [s' [Hs' [_ Hdocs]]]; try assumption.
  - constructor.
  - unfold len. simpl. lia.
  - exists s'. split; [exact Hs'|]. simpl in Hdocs. split; [|exact Hdocs].
    unfold VectorStore.size. rewrite Hdocs. unfold len.
    pose proof (lastN_length _ (Z.to_nat cap) (map stored calls)). lia.
Qed.

(** C2, on the capacity test: with [maxDocuments = 2], after [doc1],
    [doc2] and [doc3] the store holds [doc2] and [doc3]. *)
Lemma add_keeps_most_recent_witness :
  exists s',
    VectorStore.addBatch (Sample.storeOf 3 (Some 2))
      [(Sample.doc "doc1" [0.5; 0.25; 0.125]%float, 1);
       (Sample.doc "doc2" [0.25; 0.5; 0.75]%float, 2);
       (Sample.doc "doc3" [0.75; 0.5; 0.25]%float, 2)] = Ok s'
    /\ VectorStore.size s' = 2
    /\ map fst (VectorStore.documents s') = [lit "doc2"; lit "doc3"].
Proof.
  destruct (add_keeps_most_recent
              {| VectorStore.p_dimensions := Some 3;
                 VectorStore.p_similarityMetric := None;
                 VectorStore.p_maxDocuments := Some 2 |} 2
              [(Sample.doc "doc1" [0.5; 0.25; 0.125]%float, 1);
               (Sample.doc "doc2" [0.25; 0.5; 0.75]%float, 2);
               (Sample.doc "doc3" [0.75; 0.5; 0.25]%float, 2)])
    as [s' [Hs' [_ Hdocs]]].
  - reflexivity.
  - lia.
  - repeat constructor; simpl; intuition discriminate.
  - repeat constructor.
  - simpl. repeat first [apply Sorted_cons | apply Sorted_nil
                        | apply HdRel_cons | apply HdRel_nil]; lia.
  - exists s'. split; [exact Hs'|].
    unfold VectorStore.size. rewrite Hdocs. split; reflexivity.
Defined.

Lemma mapSet_length_existing (m : VectorStore.DocMap) (k : jsstring)
    (v : VectorStore.VectorDocument) :
  VectorStore.mapHas m k = true ->
  length (VectorStore.mapSet m k v) = length m.
Proof.
  induction m as [|[k' v'] rest IH]; simpl; [discriminate|].
  destruct (VectorStore.str_eq_dec k' k); simpl; [reflexivity|].
  intros H. rewrite IH by exact H. reflexivity.
Qed.

(** At capacity, [add] with an id that is stored but is not the id of the
    oldest document evicts the oldest document all the same: the store is
    one document short afterwards. *)
Lemma add_existing_id_at_capacity (s : VectorStore.Store) (cap : Z)
    (doc : VectorStore.NewDocument) (now : Z)
    (first : jsstring * VectorStore.VectorDocument) (rest : VectorStore.DocMap) :
  VectorStore.maxDocuments (VectorStore.config s) = Some cap -> 0 < cap ->
  VectorStore.documents s = first :: rest ->
  keysAreIds (VectorStore.documents s) -> oldestFirst (VectorStore.documents s) ->
  VectorStore.size s = cap ->
  VectorStore.mapHas rest (VectorStore.n_id doc) = true ->
  len (VectorStore.n_embedding doc) = VectorStore.dimensions (VectorStore.config s) ->
  exists s',
    VectorStore.add s doc now = Ok s'
    /\ VectorStore.documents s'
       = VectorStore.mapSet rest (VectorStore.n_id doc) (snd (stored (doc, now)))
    /\ VectorStore.size s' = cap - 1.
Proof.
  intros Hcap Hpos Hdocs Hk Hold Hsize Hhas Hdim.
  unfold VectorStore.add. rewrite Hdim, Z.eqb_refl. simpl negb. cbv iota.
  eexists. split; [reflexivity|].
  unfold VectorStore.evictOldest, VectorStore.atCapacity. rewrite Hcap.
  replace (cap =? 0) with false by (symmetry; apply Z.eqb_neq; lia).
  unfold VectorStore.size in Hsize. rewrite Hsize.
  replace (cap >=? cap) with true by (symmetry; rewrite Z.geb_leb; apply Z.leb_refl).
  simpl andb. cbv iota.
  rewrite (oldestFirst_sort _ Hold). rewrite Hdocs in *.
  destruct first as [k v]. pose proof (Forall_inv Hk) as Hkv.
  simpl in Hkv. subst k.
  cbn [VectorStore.values map snd VectorStore.mapDelete].
  destruct (VectorStore.str_eq_dec (VectorStore.id v) (VectorStore.id v))
    as [_|Hne]; [|contradiction].
  split; [reflexivity|].
  unfold VectorStore.size, len in *. cbn [VectorStore.documents].
  rewrite (mapSet_length_existing _ _ _ Hhas).
  cbn [length] in Hsize. lia.
Qed.

(** C1 fails on the code. The store holds [doc1] and [doc2] under
    [maxDocuments = 2]; adding a document with the id [doc2] finds the store
    at capacity, evicts [doc1], the oldest, and then writes [doc2]: one
    document is left. *)
Theorem add_existing_id_evicts_oldest :
  VectorStore.size Sample.fullStore = 2
  /\ VectorStore.maxDocuments (VectorStore.config Sample.fullStore) = Some 2
  /\ map fst (VectorStore.documents Sample.fullStore) = [lit "doc1"; lit "doc2"]
  /\ exists after,
       VectorStore.add Sample.fullStore
         (Sample.doc "doc2" [0.75; 0.5; 0.25]%float) 3 = Ok after
       /\ VectorStore.size after = 1
       /\ map fst (VectorStore.documents after) = [lit "doc2"]
       /\ VectorStore.get after (lit "doc1") = None.
Proof.
  repeat split.
  eexists. repeat split.
Qed.

(** ** The vector store: snapshot *)

(** C7. The export of a store, imported into a new store of the same
    configuration, gives the store back: the same size and, under every id,
    the same document, so the same content and embedding. *)
Theorem export_import_roundtrip (s : VectorStore.Store)
    (p : VectorStore.PartialConfig) :
  wellFormed s ->
  VectorStore.config (VectorStore.new p) = VectorStore.config s ->
  VectorStore.import (VectorStore.new p) (VectorStore.export s) = s
  /\ VectorStore.size (VectorStore.import (VectorStore.new p) (VectorStore.export s))
     = VectorStore.size s
  /\ forall k,
       VectorStore.get (VectorStore.import (VectorStore.new p) (VectorStore.export s)) k
       = VectorStore.get s k.
Proof.
  intros [Hnd Hk] Hcfg.
  assert (H : VectorStore.import (VectorStore.new p) (VectorStore.export s) = s).
  { unfold VectorStore.import, VectorStore.export. rewrite Hcfg.
    change (VectorStore.documents (VectorStore.new p)) with (@nil (jsstring * VectorStore.VectorDocument)).
    rewrite (import_appends (VectorStore.documents s) [] Hnd Hk).
    destruct s; reflexivity. }
  rewrite H. repeat split.
Qed.

(** C7, on the store that holds [doc1] and [doc2]. *)
Lemma export_import_roundtrip_witness :
  VectorStore.import (Sample.storeOf 3 (Some 2)) (VectorStore.export Sample.fullStore)
  = Sample.fullStore.
Proof.
  apply (export_import_roundtrip Sample.fullStore
           {| VectorStore.p_dimensions := Some 3;
              VectorStore.p_similarityMetric := None;
              VectorStore.p_maxDocuments := Some 2 |}).
  - split.
    + repeat constructor; simpl; intuition discriminate.
    + repeat constructor.
  - reflexivity.
Defined.

(** ** The order of binary64 numbers *)

Section FloatOrder.

(** The number of binary digits of a mantissa brackets it between powers of two. *)
Lemma digits2_pos_bounds (m : positive) :
  2 ^ (Zpos (digits2_pos m) - 1) <= Zpos m < 2 ^ Zpos (digits2_pos m).
Proof.
  induction m as [m IH|m IH|]; simpl digits2_pos.
  - rewrite Pos2Z.inj_succ.
    replace (Z.succ (Zpos (digits2_pos m)) - 1) with (Z.succ (Zpos (digits2_pos m) - 1)) by lia.
    rewrite !Z.pow_succ_r by lia. lia.
  - rewrite Pos2Z.inj_succ.
    replace (Z.succ (Zpos (digits2_pos m)) - 1) with (Z.succ (Zpos (digits2_pos m) - 1)) by lia.
    rewrite !Z.pow_succ_r by lia. lia.
  - simpl. lia.
Qed.

Lemma shr_1_m (mrs : shr_record) :
  0 <= shr_m mrs -> shr_m (shr_1 mrs) = shr_m mrs / 2.
Proof.
  destruct mrs as [m r s]. simpl. intros Hm.
  destruct m as [|p|p]; [reflexivity | | lia].
  destruct p as [p|p|]; simpl.
  - apply Z.div_unique with 1; lia.
  - apply Z.div_unique with 0; lia.
  - reflexivity.
Qed.

Lemma iter_shr_1_m (p : positive) :
  forall mrs : shr_record,
    0 <= shr_m mrs ->
    shr_m (iter_pos shr_1 p mrs) = shr_m mrs / 2 ^ Zpos p.
Proof.
  induction p as [p IH|p IH|]; intros mrs Hm; simpl iter_pos.
  - assert (HP : 0 < 2 ^ Zpos p) by (apply Z.pow_pos_nonneg; lia).
    assert (H1 : 0 <= shr_m (shr_1 mrs))
      by (rewrite shr_1_m by exact Hm; apply Z.div_pos; lia).
    assert (H2 : 0 <= shr_m (iter_pos shr_1 p (shr_1 mrs)))
      by (rewrite IH by exact H1; apply Z.div_pos; lia).
    rewrite IH by exact H2. rewrite IH by exact H1. rewrite shr_1_m by exact Hm.
    replace (Zpos p~1) with (1 + Zpos p + Zpos p) by lia.
    rewrite !Z.pow_add_r by lia. rewrite Z.pow_1_r.
    rewrite !Z.div_div by lia. f_equal. ring.
  - assert (HP : 0 < 2 ^ Zpos p) by (apply Z.pow_pos_nonneg; lia).
    assert (H1 : 0 <= shr_m (iter_pos shr_1 p mrs))
      by (rewrite IH by exact Hm; apply Z.div_pos; lia).
    rewrite IH by exact H1. rewrite IH by exact Hm.
    replace (Zpos p~0) with (Zpos p + Zpos p) by lia.
    rewrite Z.pow_add_r by lia.
    rewrite Z.div_div by lia. reflexivity.
  - rewrite shr_1_m by exact Hm. reflexivity.
Qed.

(** Shifting a positive mantissa to its place leaves it positive, as long
    as the exponent is not below the least one. *)
Lemma shr_fexp_positive (m e : Z) (l : location) :
  0 < m -> SpecFloat.emin prec emax <= e ->
  0 < shr_m (fst (shr_fexp prec emax m e l))
  /\ SpecFloat.emin prec emax <= snd (shr_fexp prec emax m e l).
Proof.
  intros Hm He. unfold shr_fexp, shr.
  destruct m as [|m|m]; try lia.
  assert (Hrec : shr_m (shr_record_of_loc (Zpos m) l) = Zpos m)
    by (destruct l as [|[| |]]; reflexivity).
  destruct (fexp prec emax (Zdigits2 (Zpos m) + e) - e) as [|n|n] eqn:En;
    simpl fst; simpl snd; rewrite ?Hrec; try (split; lia).
  rewrite iter_shr_1_m by (rewrite Hrec; lia). rewrite Hrec.
  split; [|lia].
  pose proof (digits2_pos_bounds m) as [Hlo _].
  apply Z.div_str_pos. split; [apply Z.pow_pos_nonneg; lia|].
  etransitivity; [|exact Hlo].
  apply Z.pow_le_mono_r; [lia|].
  unfold fexp, SpecFloat.emin, Zdigits2 in *. unfold prec, emax in *. lia.
Qed.

Lemma round_nearest_even_positive (m : Z) (l : location) :
  0 < m -> 0 < round_nearest_even m l.
Proof.
  intros Hm. destruct l as [|[| |]]; simpl; try lia.
  destruct (Z.even m); lia.
Qed.

(** Rounding a positive mantissa gives a finite number or an infinity of
    the sign asked for. *)
Lemma binary_round_aux_signed (sx : bool) (m e : Z) (l : location) :
  0 < m -> SpecFloat.emin prec emax <= e ->
  (exists m' e', binary_round_aux prec emax sx m e l = S754_finite sx m' e')
  \/ binary_round_aux prec emax sx m e l = S754_infinity sx.
Proof.
  intros Hm He. unfold binary_round_aux.
  destruct (shr_fexp_positive m e l Hm He) as [H1 H2].
  destruct (shr_fexp prec emax m e l) as [mrs' e']. simpl in H1, H2.
  pose proof (round_nearest_even_positive (shr_m mrs') (loc_of_shr_record mrs') H1) as H3.
  destruct (shr_fexp_positive _ e' loc_Exact H3 H2) as [H4 _].
  destruct (shr_fexp prec emax (round_nearest_even (shr_m mrs') (loc_of_shr_record mrs')) e' loc_Exact)
    as [mrs'' e'']. simpl in H4.
  destruct (shr_m mrs'') as [|m''|m'']; try lia.
  destruct (e'' <=? emax - prec); [left; eauto | right; reflexivity].
Qed.


Lemma binary_round_signed (sx : bool) (mx : positive) (ex : Z) :
  SpecFloat.emin prec emax <= ex ->
  (exists m' e', binary_round prec emax sx mx ex = S754_finite sx m' e')
  \/ binary_round prec emax sx mx ex = S754_infinity sx.
Proof.
  intros He. unfold binary_round.
  destruct (shl_align mx ex (fexp prec emax (Zpos (digits2_pos mx) + ex)))
    as [mz ez] eqn:E.
  apply binary_round_aux_signed; [lia|].
  unfold shl_align in E.
  destruct (fexp prec emax (Zpos (digits2_pos mx) + ex) - ex);
    injection E as _ <-; [exact He | exact He |].
  unfold fexp. lia.
Qed.

(** The sign of a normalised integer is the sign of the integer. *)
Lemma binary_normalize_negative (d e : Z) :
  SpecFloat.emin prec emax <= e ->
  SFltb (binary_normalize prec emax d e false) (S754_zero false) = (d <? 0).
Proof.
  intros He. destruct d as [|m|m]; simpl binary_normalize.
  - reflexivity.
  - destruct (binary_round_signed false m e He) as [[m' [e' ->]]| ->]; reflexivity.
  - destruct (binary_round_signed true m e He) as [[m' [e' ->]]| ->]; reflexivity.
Qed.

Lemma iter_xO_pow (m d : positive) :
  Zpos (Pos.iter xO m d) = Zpos m * 2 ^ Zpos d.
Proof.
  induction d as [|d IH] using Pos.peano_ind.
  - simpl. lia.
  - rewrite Pos.iter_succ, Pos2Z.inj_xO, IH, Pos2Z.inj_succ, Z.pow_succ_r by lia.
    ring.
Qed.

Lemma shl_align_value (mx : positive) (ex ez : Z) :
  ez <= ex -> Zpos (fst (shl_align mx ex ez)) = Zpos mx * 2 ^ (ex - ez).
Proof.
  intros H. unfold shl_align.
  destruct (ez - ex) as [|d|d] eqn:E; simpl fst.
  - replace (ex - ez) with 0 by lia. simpl. lia.
  - lia.
  - rewrite iter_xO_pow. f_equal. f_equal. lia.
Qed.

Lemma bounded_digits (m : positive) (e : Z) :
  bounded prec emax m e = true ->
  SpecFloat.emin prec emax <= e
  /\ Zpos (digits2_pos m) <= prec
  /\ (SpecFloat.emin prec emax < e -> Zpos (digits2_pos m) = prec).
Proof.
  unfold bounded, canonical_mantissa, fexp, SpecFloat.emin.
  intros H. apply andb_true_iff in H as [H _]. apply Z.eqb_eq in H.
  unfold prec, emax in *. lia.
Qed.

(** Of two valid numbers the one with the smaller exponent has the smaller
    magnitude. *)
Lemma smaller_exponent (m1 m2 : positive) (e1 e2 : Z) :
  bounded prec emax m1 e1 = true -> bounded prec emax m2 e2 = true ->
  e1 < e2 -> Zpos m1 < Zpos m2 * 2 ^ (e2 - e1).
Proof.
  intros H1 H2 Hlt.
  destruct (bounded_digits m1 e1 H1) as [Hmin1 [Hd1 _]].
  destruct (bounded_digits m2 e2 H2) as [_ [_ Hd2]].
  specialize (Hd2 ltac:(lia)).
  pose proof (digits2_pos_bounds m1) as [_ Hhi].
  pose proof (digits2_pos_bounds m2) as [Hlo _].
  rewrite Hd2 in Hlo.
  assert (Hp : 2 ^ Zpos (digits2_pos m1) <= 2 ^ prec)
    by (apply Z.pow_le_mono_r; lia).
  assert (Hq : 2 ^ 1 <= 2 ^ (e2 - e1)) by (apply Z.pow_le_mono_r; lia).
  assert (Hr : 2 ^ prec = 2 ^ (prec - 1) * 2 ^ 1)
    by (rewrite <- Z.pow_add_r by (unfold prec; lia); f_equal; lia).
  assert (0 < 2 ^ (prec - 1)) by (apply Z.pow_pos_nonneg; unfold prec; lia).
  nia.
Qed.

(** Subtraction and comparison agree on the sign. *)
Lemma SFsub_negative (x y : spec_float) :
  valid_binary x = true -> valid_binary y = true ->
  x <> S754_nan -> y <> S754_nan ->
  SFltb (SF64sub x y) (S754_zero false) = SFltb x y.
Proof.
  intros Hx Hy Hnx Hny.
  destruct x as [sx|sx| |sx mx ex]; [| |contradiction|];
    (destruct y as [sy|sy| |sy my ey]; [| |contradiction|]);
    try (destruct sx, sy; reflexivity); try (destruct sx; reflexivity);
    try (destruct sy; reflexivity).
  simpl in Hx, Hy.
  destruct (bounded_digits mx ex Hx) as [Hex _].
  destruct (bounded_digits my ey Hy) as [Hey _].
  unfold SF64sub, SFsub.
  rewrite binary_normalize_negative
    by (change (IntDef.Z.min ex ey) with (Z.min ex ey); lia).
  change (IntDef.Z.min ex ey) with (Z.min ex ey).
  rewrite !shl_align_value by lia.
  unfold SFltb, SFcompare. rewrite Pos.compare_cont_spec.
  replace (Pos.switch_Eq Eq (mx ?= my)%positive) with (mx ?= my)%positive
    by (destruct (mx ?= my)%positive; reflexivity).
  assert (Ha : 0 < Zpos mx * 2 ^ (ex - Z.min ex ey))
    by (apply Z.mul_pos_pos; [lia | apply Z.pow_pos_nonneg; lia]).
  assert (Hb : 0 < Zpos my * 2 ^ (ey - Z.min ex ey))
    by (apply Z.mul_pos_pos; [lia | apply Z.pow_pos_nonneg; lia]).
  assert (Hord : match ex ?= ey with
                 | Eq => (Zpos mx * 2 ^ (ex - Z.min ex ey)
                          ?= Zpos my * 2 ^ (ey - Z.min ex ey))
                         = (mx ?= my)%positive
                 | Lt => Zpos mx * 2 ^ (ex - Z.min ex ey)
                         < Zpos my * 2 ^ (ey - Z.min ex ey)
                 | Gt => Zpos my * 2 ^ (ey - Z.min ex ey)
                         < Zpos mx * 2 ^ (ex - Z.min ex ey)
                 end).
  { destruct (Z.compare_spec ex ey) as [Heq|Hlt|Hgt].
    - subst ey. rewrite Z.min_id, Z.sub_diag. simpl (2 ^ 0).
      rewrite !Z.mul_1_r. reflexivity.
    - pose proof (smaller_exponent mx my ex ey Hx Hy Hlt).
      replace (Z.min ex ey) with ex by lia.
      rewrite Z.sub_diag. simpl (2 ^ 0). lia.
    - pose proof (smaller_exponent my mx ey ex Hy Hx Hgt).
      replace (Z.min ex ey) with ey by lia.
      rewrite Z.sub_diag. simpl (2 ^ 0). lia. }
  revert Ha Hb Hord.
  generalize (Zpos mx * 2 ^ (ex - Z.min ex ey)).
  generalize (Zpos my * 2 ^ (ey - Z.min ex ey)).
  intros b a Ha Hb Hord.
  destruct (ex ?= ey); [rewrite <- Hord; destruct (Z.compare_spec a b)| |];
    destruct sx, sy; simpl;
    first [apply Z.ltb_lt; lia | apply Z.ltb_ge; lia].
Qed.

Lemma SFcompare_antisym (x y : spec_float) :
  SFcompare y x = option_map CompOpp (SFcompare x y).
Proof.
  destruct x as [sx|sx| |sx mx ex], y as [sy|sy| |sy my ey]; simpl;
    try reflexivity; try (destruct sx; reflexivity);
    try (destruct sy; reflexivity); try (destruct sx, sy; reflexivity).
  rewrite !Pos.compare_cont_spec. simpl Pos.switch_Eq.
  rewrite (Z.compare_antisym ex ey), (Pos.compare_antisym mx my).
  destruct sx, sy; try reflexivity;
    destruct (ex ?= ey); simpl; try reflexivity;
    destruct (mx ?= my)%positive; reflexivity.
Qed.

Lemma is_nan_spec (x : float) :
  PrimFloat.is_nan x = false <-> Prim2SF x <> S754_nan.
Proof.
  unfold PrimFloat.is_nan. rewrite FloatAxioms.eqb_spec. unfold SFeqb.
  destruct (Prim2SF x) as [s|s| |s m e]; simpl.
  - split; [discriminate | reflexivity].
  - destruct s; (split; [discriminate | reflexivity]).
  - split; [discriminate | intros H; contradiction].
  - rewrite Z.compare_refl, Pos.compare_cont_refl.
    destruct s; (split; [discriminate | reflexivity]).
Qed.

(** For numbers that are not NaN, [x - y < 0] exactly when [x < y]. *)
Lemma sub_negative_iff_ltb (x y : float) :
  PrimFloat.is_nan x = false -> PrimFloat.is_nan y = false ->
  PrimFloat.ltb (x - y) 0 = PrimFloat.ltb x y.
Proof.
  intros Hx Hy. rewrite !FloatAxioms.ltb_spec, FloatAxioms.sub_spec.
  change (Prim2SF 0) with (S754_zero false).
  apply SFsub_negative; try apply Prim2SF_valid; apply is_nan_spec; assumption.
Qed.

Lemma SFcompare_defined (x y : spec_float) :
  x <> S754_nan -> y <> S754_nan -> exists c, SFcompare x y = Some c.
Proof.
  intros Hx Hy.
  destruct x as [sx|sx| |sx mx ex]; [| |contradiction|];
    (destruct y as [sy|sy| |sy my ey]; [| |contradiction|]);
    simpl; eauto.
Qed.

Lemma ltb_false_leb (x y : float) :
  PrimFloat.is_nan x = false -> PrimFloat.is_nan y = false ->
  PrimFloat.ltb x y = false -> PrimFloat.leb y x = true.
Proof.
  intros Hx Hy. rewrite FloatAxioms.ltb_spec, FloatAxioms.leb_spec. unfold SFltb, SFleb.
  rewrite (SFcompare_antisym (Prim2SF x) (Prim2SF y)).
  apply is_nan_spec in Hx, Hy.
  destruct (SFcompare_defined _ _ Hx Hy) as [c ->].
  destruct c; simpl; congruence.
Qed.

Lemma ltb_true_leb (x y : float) :
  PrimFloat.ltb x y = true -> PrimFloat.leb x y = true.
Proof.
  rewrite FloatAxioms.ltb_spec, FloatAxioms.leb_spec. unfold SFltb, SFleb.
  destruct (SFcompare (Prim2SF x) (Prim2SF y)) as [[| |]|]; congruence.
Qed.

Lemma ltb_true_not_leb (x y : float) :
  PrimFloat.ltb x y = true -> PrimFloat.leb y x = false.
Proof.
  rewrite FloatAxioms.ltb_spec, FloatAxioms.leb_spec. unfold SFltb, SFleb.
  rewrite (SFcompare_antisym (Prim2SF x) (Prim2SF y)).
  destruct (SFcompare (Prim2SF x) (Prim2SF y)) as [[| |]|]; simpl; congruence.
Qed.

End FloatOrder.

(** ** The vector store: search *)

Section SearchFacts.
Import VectorStore.

Lemma cosineSimilarity_defined (a b : list float) :
  len a = len b -> exists sc, Embeddings.cosineSimilarity a b = Ok sc.
Proof.
  intros H. unfold Embeddings.cosineSimilarity.
  rewrite H, Z.eqb_refl. simpl negb. cbv iota.
  destruct (fold_left Embeddings.cosineStep (combine a b) (0, 0, 0)%float)
    as [[dot ma] mb].
  match goal with |- context [if ?c then _ else _] => destruct c end; eauto.
Qed.

Lemma euclideanDistance_defined (a b : list float) :
  len a = len b -> exists d, Embeddings.euclideanDistance a b = Ok d.
Proof.
  intros H. unfold Embeddings.euclideanDistance.
  rewrite H, Z.eqb_refl. simpl. eauto.
Qed.

Lemma scoreOf_defined (s : Store) (query : list float) (d : VectorDocument) :
  len query = len (embedding d) ->
  exists sd, scoreOf s query d = Ok sd
             /\ scoredBy s query {| document := d; score := fst sd; distance := snd sd |}.
Proof.
  intros H. unfold scoreOf, scoredBy. simpl.
  destruct (similarityMetric (config s)).
  - destruct (cosineSimilarity_defined _ _ H) as [sc Hsc]. rewrite Hsc. simpl.
    eexists. split; reflexivity.
  - destruct (euclideanDistance_defined _ _ H) as [dist Hd]. rewrite Hd. simpl.
    eexists. split; [reflexivity|]. simpl. eauto.
Qed.

(** The scan answers with one result for each document that passes the
    filter, in their order. *)
Lemma scan_defined (s : Store) (query : list float)
    (flt : option (VectorDocument -> bool)) (docs : list VectorDocument) :
  Forall (fun d => len query = len (embedding d)) docs ->
  exists results,
    scan s query flt docs = Ok results
    /\ map document results = passing flt docs
    /\ Forall (fun r => scoredBy s query r
                        /\ scoreOf s query (document r) = Ok (score r, distance r))
         results.
Proof.
  induction 1 as [|d docs Hd _ IH]; simpl.
  - exists []. repeat split; constructor.
  - destruct IH as [results [Hscan [Hdocs Hscored]]].
    unfold passing in *. simpl.
    destruct flt as [f|]; [destruct (f d) eqn:E|]; simpl;
      try (exists results; repeat split; assumption);
      destruct (scoreOf_defined s query d Hd) as [sd [Hsd Hby]];
      rewrite Hsd, Hscan; simpl;
      (eexists; split; [reflexivity|]; split; [simpl; f_equal; exact Hdocs|]);
      (constructor; [|exact Hscored]); simpl;
      (split; [exact Hby | rewrite Hsd; destruct sd; reflexivity]).
Qed.

Lemma slice_prefix (A : Type) (l : list A) (k : Z) :
  0 <= k -> slice l 0 k = firstn (Z.to_nat (Z.min k (len l))) l.
Proof.
  intros Hk. unfold slice, relIndex, len.
  destruct (k <? 0) eqn:E; [apply Z.ltb_lt in E; lia|].
  simpl.
  replace (Z.to_nat (Z.min 0 (Z.of_nat (length l)))) with 0%nat by lia.
  rewrite Nat.sub_0_r. reflexivity.
Qed.

Lemma Sorted_firstn (A : Type) (R : A -> A -> Prop) (l : list A) :
  Sorted R l -> forall n, Sorted R (firstn n l).
Proof.
  induction 1 as [|x l Hs IH Hhd]; intros n; destruct n as [|n]; simpl;
    try constructor; [apply IH|].
  destruct Hhd as [|y l' Hy]; destruct n; simpl; constructor. exact Hy.
Qed.

(** Without a NaN among the scores, the comparator of [search] orders the
    results by descending score. *)
Lemma sort_higherFirst_descending (results : list SearchResult) :
  Forall (fun r => PrimFloat.is_nan (score r) = false) results ->
  descending (sort higherFirst results).
Proof.
  intros Hnum. rewrite Forall_forall in Hnum.
  apply sort_sorted; intros e x He Hx; unfold higherFirst;
    rewrite sub_negative_iff_ltb by auto; intros H.
  - apply ltb_true_leb, H.
  - apply ltb_false_leb; auto.
Qed.

End SearchFacts.

(** C5, as stated, fails. The store holds [a], [b] and [c], whose scores
    against the query [[1, 1]] are about -1, NaN and about 1: the squares of
    the components of [b] overflow, and its similarity is infinity over
    infinity. Against NaN the comparator answers NaN, so the sort leaves the
    three in place, the lowest score first. With [topK = -1] the slice drops
    the last result and two are returned. And in a store that imported an
    embedding of another dimension the similarity function throws. *)
Lemma search_not_ranked :
  exists ra rb rc,
    VectorStore.search Sample.overflowStore [1; 1]%float (Some 3) None
    = Ok [ra; rb; rc]
    /\ map VectorStore.id (map VectorStore.document [ra; rb; rc])
       = [lit "a"; lit "b"; lit "c"]
    /\ PrimFloat.is_nan (VectorStore.score rb) = true
    /\ PrimFloat.leb (VectorStore.score rb) (VectorStore.score ra) = false
    /\ PrimFloat.ltb (VectorStore.score ra) (VectorStore.score rc) = true
    /\ VectorStore.search Sample.overflowStore [1; 1]%float (Some (-1)) None
       = Ok [ra; rb]
    /\ (len [ra; rb] >? -1) = true
    /\ VectorStore.search Sample.importedShort [1; 0; 0]%float (Some 5) None
       = Throw SameDimensions.
Proof.
  do 3 eexists. split; [vm_compute; reflexivity|].
  repeat split.
Qed.

(** C5, amended. For a store whose embeddings have the configured
    dimension, a query of that dimension and [topK >= 0], when no score is
    NaN: [search] returns, the number of results is the smaller of [topK]
    and the number of documents that pass the filter, the scores do not
    increase along the results, each result is a stored document that passes
    the filter, scored by the configured metric, and nothing passing gives
    the empty array. *)
Theorem search_ranked (s : VectorStore.Store) (query : list float)
    (topK : option Z) (flt : option (VectorStore.VectorDocument -> bool)) :
  len query = VectorStore.dimensions (VectorStore.config s) ->
  dimensioned s ->
  0 <= effectiveTopK topK ->
  Forall (scoreIsNumber s query)
    (passing flt (VectorStore.values (VectorStore.documents s))) ->
  exists results,
    VectorStore.search s query topK flt = Ok results
    /\ len results
       = Z.min (effectiveTopK topK)
           (len (passing flt (VectorStore.values (VectorStore.documents s))))
    /\ descending results
    /\ Forall (fun r =>
                 In (VectorStore.document r)
                   (passing flt (VectorStore.values (VectorStore.documents s)))
                 /\ scoredBy s query r) results
    /\ (passing flt (VectorStore.values (VectorStore.documents s)) = [] ->
        results = []).
Proof.
  intros Hq Hdim Htop Hnum.
  assert (Hlens : Forall (fun d => len query = len (VectorStore.embedding d))
                    (VectorStore.values (VectorStore.documents s))).
  { eapply Forall_impl; [|exact Hdim]. simpl. intros d Hd. congruence. }
  destruct (scan_defined s query flt _ Hlens) as [scanned [Hscan [Hdocs Hby]]].
  assert (Hnan : Forall (fun r => PrimFloat.is_nan (VectorStore.score r) = false)
                   scanned).
  { rewrite Forall_forall in Hnum, Hby. apply Forall_forall. intros r Hr.
    assert (Hin : In (VectorStore.document r)
                    (passing flt (VectorStore.values (VectorStore.documents s))))
      by (rewrite <- Hdocs; apply in_map, Hr).
    specialize (Hnum _ Hin). unfold scoreIsNumber in Hnum.
    destruct (Hby r Hr) as [_ Hsc]. rewrite Hsc in Hnum. exact Hnum. }
  assert (Hlen : len (sort VectorStore.higherFirst scanned)
                 = len (passing flt (VectorStore.values (VectorStore.documents s)))).
  { unfold len. rewrite sort_length, <- Hdocs, length_map. reflexivity. }
  exists (slice (sort VectorStore.higherFirst scanned) 0 (effectiveTopK topK)).
  split; [|split; [|split; [|split]]].
  - unfold VectorStore.search. rewrite Hq, Z.eqb_refl. simpl negb. cbv iota.
    rewrite Hscan. reflexivity.
  - rewrite slice_prefix by exact Htop. rewrite Hlen.
    unfold len at 1. rewrite length_firstn. unfold len in *. lia.
  - rewrite slice_prefix by exact Htop.
    apply Sorted_firstn, sort_higherFirst_descending, Hnan.
  - rewrite slice_prefix by exact Htop.
    apply Forall_firstn_skipn.
    apply Forall_forall. intros r Hr. rewrite sort_In in Hr.
    rewrite Forall_forall in Hby. split; [|apply Hby, Hr].
    rewrite <- Hdocs. apply in_map, Hr.
  - intros Hnone. rewrite Hnone in Hdocs.
    destruct scanned; [|discriminate].
    rewrite slice_prefix by exact Htop. apply firstn_nil.
Qed.

(** C5, on the similarity test: the query [[1, 0, 0]] against [doc1] and
    [doc2] with [topK = 2] gives both, [doc1] first. *)
Lemma search_ranked_witness :
  exists results,
    VectorStore.search Sample.fullStore [1; 0; 0]%float (Some 2) None = Ok results
    /\ len results = 2
    /\ descending results
    /\ map VectorStore.id (map VectorStore.document results)
       = [lit "doc1"; lit "doc2"].
Proof.
  destruct (search_ranked Sample.fullStore [1; 0; 0]%float (Some 2) None)
    as [results [Hs [Hlen [Hdesc _]]]].
  - reflexivity.
  - repeat constructor.
  - simpl. lia.
  - repeat constructor.
  - exists results. split; [exact Hs|]. split; [exact Hlen|].
    split; [exact Hdesc|].
    vm_compute in Hs. injection Hs as <-. reflexivity.
Defined.

(** ** The retriever *)

Section RetrieverFacts.
Import Retrieval.

Lemma join_head (x : jsstring) (rest : list jsstring) (sep : jsstring) :
  exists post, join (x :: rest) sep = x ++ post.
Proof.
  destruct rest as [|y rest]; simpl.
  - exists []. rewrite app_nil_r. reflexivity.
  - eexists. reflexivity.
Qed.

Lemma formatDocument_content (r : VectorStore.SearchResult) (cfg : RetrievalConfig) :
  exists pre,
    formatDocument r cfg = pre ++ VectorStore.content (VectorStore.document r).
Proof.
  unfold formatDocument.
  destruct (includeMetadata cfg);
    [destruct (VectorStore.metadata (VectorStore.document r)) as [m|]|];
    try (exists []; reflexivity).
  destruct (truthy (join (metaPairs m) (lit ", "))); [|exists []; reflexivity].
  exists ((lit "[" ++ join (metaPairs m) (lit ", ") ++ lit "]") ++ [10%N]).
  rewrite <- app_assoc. reflexivity.
Qed.

Lemma filter_below_minScore (cfg : RetrievalConfig)
    (results : list VectorStore.SearchResult) :
  Forall (fun r => PrimFloat.ltb (VectorStore.score r) (minScore cfg) = true)
    results ->
  filter (fun r => PrimFloat.leb (minScore cfg) (VectorStore.score r)) results = [].
Proof.
  induction 1 as [|r results Hr _ IH]; simpl; [reflexivity|].
  rewrite (ltb_true_not_leb _ _ Hr). exact IH.
Qed.

End RetrieverFacts.

(** C6, as stated, fails. The one document, ["hello"], scores 1 against the
    query and [minScore] is 0.5, but with [maxContextLength = 3] its five
    code units do not fit: the document is among the results and the context
    is empty. *)
Lemma retrieve_best_left_out_of_context :
  exists best,
    Retrieval.retrieve Sample.helloStore Sample.unitEmbed Retrieval.defaultConfig
      (lit "hi") (Sample.retrievalOptions None (Some 3))
    = Ok {| Retrieval.query := lit "hi"; Retrieval.documents := [best];
            Retrieval.context := []; Retrieval.tokenEstimate := 0 |}
    /\ VectorStore.content (VectorStore.document best) = lit "hello"
    /\ PrimFloat.leb 0.5 (VectorStore.score best) = true
    /\ includes [] (VectorStore.content (VectorStore.document best)) = false.
Proof.
  eexists. split; [vm_compute; reflexivity|]. repeat split.
Qed.

(** C6, amended. When the provider embeds the query and the search answers:
    if every candidate scores below [minScore], [retrieve] returns a result
    with no documents and the empty context; if the first candidate scores
    at least [minScore] and its formatted text is no longer than
    [maxContextLength], [retrieve] returns a result whose first document it
    is and whose context includes its content. *)
Theorem retrieve_threshold (store : VectorStore.Store)
    (embed : jsstring -> result Embeddings.EmbeddingResult)
    (this_config : Retrieval.RetrievalConfig) (q : jsstring)
    (options : Retrieval.PartialRetrievalConfig)
    (e : Embeddings.EmbeddingResult) (results : list VectorStore.SearchResult) :
  embed q = Ok e ->
  VectorStore.search store (Embeddings.embedding e)
    (Some (Retrieval.topK (Retrieval.spread this_config options)))
    (Some (fun _ => true)) = Ok results ->
  (Forall (fun r => PrimFloat.ltb (VectorStore.score r)
                      (Retrieval.minScore (Retrieval.spread this_config options))
                    = true) results ->
   Retrieval.retrieve store embed this_config q options
   = Ok {| Retrieval.query := q; Retrieval.documents := [];
           Retrieval.context := []; Retrieval.tokenEstimate := 0 |})
  /\ (forall best rest,
        results = best :: rest ->
        PrimFloat.leb (Retrieval.minScore (Retrieval.spread this_config options))
          (VectorStore.score best) = true ->
        len (Retrieval.formatDocument best (Retrieval.spread this_config options))
        <= Retrieval.maxContextLength (Retrieval.spread this_config options) ->
        exists r,
          Retrieval.retrieve store embed this_config q options = Ok r
          /\ hd_error (Retrieval.documents r) = Some best
          /\ includes (Retrieval.context r)
               (VectorStore.content (VectorStore.document best)) = true).
Proof.
  intros He Hs. unfold Retrieval.retrieve, bind. rewrite He, Hs. split.
  - intros Hlow. rewrite (filter_below_minScore _ _ Hlow). reflexivity.
  - intros best rest -> Hbest Hfits. eexists. split; [reflexivity|].
    cbn [Retrieval.documents Retrieval.context filter].
    rewrite Hbest. split; [reflexivity|].
    unfold Retrieval.buildContext. cbn [Retrieval.collect].
    replace (0 + len (Retrieval.formatDocument best
                        (Retrieval.spread this_config options))
             >? Retrieval.maxContextLength (Retrieval.spread this_config options))
      with false
      by (symmetry; rewrite Z.gtb_ltb; apply Z.ltb_ge; lia).
    match goal with |- context [join (?x :: ?l) ?sep] =>
      destruct (join_head x l sep) as [post ->] end.
    destruct (formatDocument_content best (Retrieval.spread this_config options))
      as [pre ->].
    rewrite <- app_assoc. apply includes_infix.
Qed.

(** C6, on the store that holds ["hello"]: with [minScore = 2], above
    every score, no document and the empty context come back. *)
Lemma retrieve_threshold_witness :
  Retrieval.retrieve Sample.helloStore Sample.unitEmbed Retrieval.defaultConfig
    (lit "hi") (Sample.retrievalOptions (Some 2%float) None)
  = Ok {| Retrieval.query := lit "hi"; Retrieval.documents := [];
          Retrieval.context := []; Retrieval.tokenEstimate := 0 |}.
Proof.
  assert (Hs : exists results,
             VectorStore.search Sample.helloStore [1; 0; 0]%float
               (Some 5) (Some (fun _ => true)) = Ok results
             /\ Forall (fun r => PrimFloat.ltb (VectorStore.score r) 2 = true)
                  results).
  { eexists. split; [vm_compute; reflexivity | repeat constructor]. }
  destruct Hs as [results [Hs Hlow]].
  exact (proj1 (retrieve_threshold Sample.helloStore Sample.unitEmbed
                  Retrieval.defaultConfig (lit "hi")
                  (Sample.retrievalOptions (Some 2%float) None)
                  _ results eq_refl Hs) Hlow).
Defined.

(** ** Further properties the specification lists *)

(** [euclideanDistance([0,0,0],[3,4,0])] is 5 and
    [euclideanDistance([0,0,0],[1,0,0])] is 1. *)
Theorem euclideanDistance_examples :
  Embeddings.euclideanDistance [0; 0; 0]%float [3; 4; 0]%float = Ok 5%float
  /\ Embeddings.euclideanDistance [0; 0; 0]%float [1; 0; 0]%float = Ok 1%float.
Proof. split; reflexivity. Qed.

(** [add] of a document whose embedding has another length than the
    configured [dimensions] throws the mismatch error; no store is returned,
    so the documents stay as they were. *)
Theorem add_dimension_mismatch (s : VectorStore.Store)
    (doc : VectorStore.NewDocument) (now : Z) :
  len (VectorStore.n_embedding doc)
  <> VectorStore.dimensions (VectorStore.config s) ->
  VectorStore.add s doc now
  = Throw (EmbeddingDimensionsMismatch
             (VectorStore.dimensions (VectorStore.config s))
             (len (VectorStore.n_embedding doc))).
Proof.
  intros H. unfold VectorStore.add.
  apply Z.eqb_neq in H. rewrite H. reflexivity.
Qed.

(** On an embedding of length 2 for a store of dimension 3. *)
Lemma add_dimension_mismatch_witness :
  VectorStore.add (Sample.storeOf 3 None) (Sample.doc "doc1" [0.5; 0.25]%float) 1
  = Throw (EmbeddingDimensionsMismatch 3 2).
Proof.
  apply (add_dimension_mismatch (Sample.storeOf 3 None)
           (Sample.doc "doc1" [0.5; 0.25]%float) 1).
  vm_compute. discriminate.
Defined.

(** [chunkText("short text", { maxChunkSize: 100 })] is one chunk, the
    input. *)
Theorem chunkText_short_text :
  Chunking.chunkText 0 (lit "short text")
    {| Chunking.p_maxChunkSize := Some 100; Chunking.p_chunkOverlap := None;
       Chunking.p_separators := None; Chunking.p_preserveStructure := None |}
  = Some [Sample.chunkOf (lit "short text") 0 0 10].
Proof. reflexivity. Qed.

(** The similarity test: against the query [[1, 0, 0]], the document with
    the embedding [[0.9, 0.1, 0]] ranks above the one with [[0, 0.1, 0.9]],
    with a greater score. *)
Theorem search_similarity_test :
  exists s r1 r2,
    VectorStore.addBatch (Sample.storeOf 3 None)
      [(Sample.doc "doc1" [Sample.nineTenths; Sample.oneTenth; 0]%float, 1);
       (Sample.doc "doc2" [0; Sample.oneTenth; Sample.nineTenths]%float, 1)] = Ok s
    /\ VectorStore.search s [1; 0; 0]%float (Some 2) None = Ok [r1; r2]
    /\ VectorStore.id (VectorStore.document r1) = lit "doc1"
    /\ VectorStore.id (VectorStore.document r2) = lit "doc2"
    /\ PrimFloat.ltb (VectorStore.score r2) (VectorStore.score r1) = true.
Proof.
  do 3 eexists. split; [reflexivity|]. split; [vm_compute; reflexivity|].
  repeat split.
Qed.

(** X1, on the ten code units ["a, b, c, d"] with a budget of three
    tokens: a hundred rounds do not end it. *)
Lemma split_short_over_budget_witness :
  Tokenization.split 100 (lit "a, b, c, d") 3 = None.
Proof.
  apply (split_short_over_budget (lit "a, b, c, d") 3).
  - simpl. lia.
  - vm_compute. reflexivity.
  - reflexivity.
Defined.
(** ** The vector store: reads, writes and removals *)

Section StoreFacts.
Import VectorStore.

Lemma mapGet_mapSet_same (m : DocMap) (k : jsstring) (v : VectorDocument) :
  mapGet (mapSet m k v) k = Some v.
Proof.
  induction m as [|[k' v'] m IH]; simpl.
  - destruct (str_eq_dec k k); congruence.
  - destruct (str_eq_dec k' k) as [E|E]; simpl.
    + destruct (str_eq_dec k' k); congruence.
    + destruct (str_eq_dec k' k); [contradiction|exact IH].
Qed.

Lemma mapGet_mapSet_other (m : DocMap) (k k' : jsstring) (v : VectorDocument) :
  k' <> k -> mapGet (mapSet m k v) k' = mapGet m k'.
Proof.
  intros Hk. induction m as [|[k0 v0] m IH]; simpl.
  - destruct (str_eq_dec k k'); congruence.
  - destruct (str_eq_dec k0 k) as [E|E]; simpl.
    + destruct (str_eq_dec k0 k'); congruence.
    + destruct (str_eq_dec k0 k'); [reflexivity|exact IH].
Qed.

Lemma mapGet_mapDelete_other (m : DocMap) (k k' : jsstring) :
  k' <> k -> mapGet (mapDelete m k) k' = mapGet m k'.
Proof.
  intros Hk. induction m as [|[k0 v0] m IH]; simpl; [reflexivity|].
  destruct (str_eq_dec k0 k) as [E|E]; simpl.
  - destruct (str_eq_dec k0 k'); congruence.
  - destruct (str_eq_dec k0 k'); [reflexivity|exact IH].
Qed.

Lemma mapGet_absent (m : DocMap) (k : jsstring) :
  ~ In k (map fst m) -> mapGet m k = None.
Proof.
  induction m as [|[k0 v0] m IH]; simpl; [reflexivity|].
  intros Hn. destruct (str_eq_dec k0 k) as [E|E].
  - exfalso. apply Hn. left. exact E.
  - apply IH. intros Hin. apply Hn. right. exact Hin.
Qed.

Lemma mapGet_mapDelete_same (m : DocMap) (k : jsstring) :
  NoDup (map fst m) -> mapGet (mapDelete m k) k = None.
Proof.
  induction m as [|[k0 v0] m IH]; simpl; [reflexivity|].
  intros Hnd. inversion Hnd as [|? ? Hnotin Hnd']; subst.
  destruct (str_eq_dec k0 k) as [E|E]; simpl.
  - subst k0. apply mapGet_absent, Hnotin.
  - destruct (str_eq_dec k0 k); [contradiction|]. apply IH, Hnd'.
Qed.

Lemma mapHas_In (m : DocMap) (k : jsstring) :
  mapHas m k = true <-> In k (map fst m).
Proof.
  induction m as [|[k0 v0] m IH]; simpl.
  - split; [discriminate|contradiction].
  - destruct (str_eq_dec k0 k) as [E|E].
    + split; [intros _; left; exact E|reflexivity].
    + rewrite IH. split; [intros H; right; exact H|].
      intros [H|H]; [contradiction|exact H].
Qed.

Lemma mapDelete_present (m : DocMap) (k : jsstring) :
  In k (map fst m) -> S (length (mapDelete m k)) = length m.
Proof.
  induction m as [|[k0 v0] m IH]; simpl; [contradiction|].
  intros Hin. destruct (str_eq_dec k0 k) as [E|E]; [reflexivity|].
  simpl. f_equal. apply IH. destruct Hin; [contradiction|assumption].
Qed.

Lemma mapDelete_absent (m : DocMap) (k : jsstring) :
  ~ In k (map fst m) -> mapDelete m k = m.
Proof.
  induction m as [|[k0 v0] m IH]; simpl; [reflexivity|].
  intros Hn. destruct (str_eq_dec k0 k) as [E|E].
  - exfalso. apply Hn. left. exact E.
  - f_equal. apply IH. intros Hin. apply Hn. right. exact Hin.
Qed.

Lemma mapSet_length_le (m : DocMap) (k : jsstring) (v : VectorDocument) :
  (length (mapSet m k v) <= S (length m))%nat.
Proof.
  induction m as [|[k0 v0] m IH]; simpl; [lia|].
  destruct (str_eq_dec k0 k); simpl; lia.
Qed.

Lemma add_inv (s s' : Store) (doc : NewDocument) (now : Z) :
  add s doc now = Ok s' ->
  len (n_embedding doc) = dimensions (config s)
  /\ documents s'
     = mapSet (evictOldest s) (n_id doc) (snd (stored (doc, now)))
  /\ config s' = config s.
Proof.
  unfold add. destruct (len (n_embedding doc) =? dimensions (config s)) eqn:E;
    simpl; [|discriminate].
  intros H. injection H as <-. apply Z.eqb_eq in E. repeat split. exact E.
Qed.

Lemma key_of_value (m : DocMap) (d : VectorDocument) :
  keysAreIds m -> In d (values m) -> In (id d) (map fst m).
Proof.
  intros Hk Hin. unfold values in Hin. apply in_map_iff in Hin.
  destruct Hin as [[k v] [E Hin]]. simpl in E. subst v.
  unfold keysAreIds in Hk. rewrite Forall_forall in Hk.
  specialize (Hk _ Hin). simpl in Hk. rewrite <- Hk.
  apply in_map_iff. exists (k, d). split; [reflexivity|exact Hin].
Qed.

(** The head of the sorted documents is one of them, and none is older. *)
Lemma sort_olderFirst_head (l : list VectorDocument) (oldest : VectorDocument)
    (rest : list VectorDocument) :
  sort olderFirst l = oldest :: rest ->
  In oldest l /\ forall d, In d l -> createdAt oldest <= createdAt d.
Proof.
  intros Hs.
  assert (Hsorted : Sorted (fun a b => createdAt a <= createdAt b)
                      (sort olderFirst l)).
  { apply sort_sorted; unfold olderFirst; intros e x _ _ H.
    - apply Z.ltb_lt in H. lia.
    - apply Z.ltb_ge in H. lia. }
  rewrite Hs in Hsorted. apply Sorted_StronglySorted in Hsorted.
  - split.
    + rewrite <- (sort_In _ olderFirst), Hs. left. reflexivity.
    + intros d Hd. rewrite <- (sort_In _ olderFirst), Hs in Hd.
      destruct Hd as [<-|Hd]; [lia|].
      inversion Hsorted as [|? ? _ Hall]; subst.
      rewrite Forall_forall in Hall. apply Hall, Hd.
  - intros a b c Hab Hbc. lia.
Qed.

Lemma evictOldest_length (s : Store) (cap : Z) :
  keysAreIds (documents s) ->
  maxDocuments (config s) = Some cap ->
  0 < cap ->
  len (documents s) <= cap ->
  len (evictOldest s) < cap.
Proof.
  intros Hk Hcap Hpos Hsize. unfold evictOldest, atCapacity. rewrite Hcap.
  destruct (cap =? 0) eqn:E0; [apply Z.eqb_eq in E0; lia|]. simpl.
  destruct (len (documents s) >=? cap) eqn:Efull.
  - destruct (sort olderFirst (values (documents s))) as [|oldest rest] eqn:Es.
    + apply (f_equal (@length _)) in Es. rewrite sort_length in Es.
      unfold values in Es. rewrite length_map in Es. unfold len in *.
      simpl in Es. lia.
    + destruct (sort_olderFirst_head _ _ _ Es) as [Hin _].
      pose proof (mapDelete_present _ _ (key_of_value _ _ Hk Hin)) as Hl.
      unfold len in *. lia.
  - rewrite Z.geb_leb in Efull. apply Z.leb_gt in Efull. exact Efull.
Qed.

Lemma values_mapDelete (P : VectorDocument -> Prop) (m : DocMap) (k : jsstring) :
  Forall P (values m) -> Forall P (values (mapDelete m k)).
Proof.
  induction m as [|[k0 v0] m IH]; simpl; [trivial|].
  intros H. inversion H as [|? ? Hv Hm]; subst.
  destruct (str_eq_dec k0 k); [exact Hm|].
  simpl. constructor; [exact Hv|apply IH, Hm].
Qed.

Lemma values_mapSet (P : VectorDocument -> Prop) (m : DocMap) (k : jsstring)
    (v : VectorDocument) :
  Forall P (values m) -> P v -> Forall P (values (mapSet m k v)).
Proof.
  intros H Hv. induction m as [|[k0 v0] m IH]; simpl.
  - constructor; [exact Hv|constructor].
  - inversion H as [|? ? Hv0 Hm]; subst.
    destruct (str_eq_dec k0 k); simpl; constructor; auto.
Qed.

End StoreFacts.

(** X2. What [add] writes can be read back: after [add(doc)], [get(doc.id)]
    is the document with the clock reading as its creation time; and when
    the store was not at capacity every other id reads as before. *)
Theorem add_then_get (s s' : VectorStore.Store) (doc : VectorStore.NewDocument)
    (now : Z) :
  VectorStore.add s doc now = Ok s' ->
  VectorStore.get s' (VectorStore.n_id doc) = Some (snd (stored (doc, now)))
  /\ (VectorStore.atCapacity s = false ->
      forall k, k <> VectorStore.n_id doc ->
                VectorStore.get s' k = VectorStore.get s k).
Proof.
  intros Hadd. destruct (add_inv _ _ _ _ Hadd) as [_ [Hdocs _]].
  unfold VectorStore.get. rewrite Hdocs. split.
  - apply mapGet_mapSet_same.
  - intros Hfree k Hk. rewrite mapGet_mapSet_other by exact Hk.
    unfold VectorStore.evictOldest. rewrite Hfree. reflexivity.
Qed.

(** X2, on the store of the capacity test with a limit of 3: [doc3] is
    read back, and [doc1] is still there. *)
Lemma add_then_get_witness :
  exists s',
    VectorStore.add
      (Sample.orEmpty (VectorStore.addBatch (Sample.storeOf 3 (Some 3))
         [(Sample.doc "doc1" [0.5; 0.25; 0.125]%float, 1);
          (Sample.doc "doc2" [0.25; 0.5; 0.75]%float, 2)]))
      (Sample.doc "doc3" [1; 0; 0]%float) 3 = Ok s'
    /\ VectorStore.get s' (lit "doc3")
       = Some (snd (stored (Sample.doc "doc3" [1; 0; 0]%float, 3)))
    /\ option_map VectorStore.createdAt (VectorStore.get s' (lit "doc1")) = Some 1.
Proof.
  eexists. split; [reflexivity|].
  match goal with |- VectorStore.get ?s' _ = _ /\ _ =>
    destruct (add_then_get
                (Sample.orEmpty (VectorStore.addBatch (Sample.storeOf 3 (Some 3))
                   [(Sample.doc "doc1" [0.5; 0.25; 0.125]%float, 1);
                    (Sample.doc "doc2" [0.25; 0.5; 0.75]%float, 2)]))
                s' (Sample.doc "doc3" [1; 0; 0]%float) 3 eq_refl) as [Hget Hframe]
  end.
  split; [exact Hget|].
  rewrite (Hframe eq_refl (lit "doc1")); [reflexivity|discriminate].
Defined.

(** X3. The capacity is an invariant of [add]: in a store within a
    positive [maxDocuments], whatever the id and the clock, the store is
    within it after [add], and after every [addBatch]. *)
Theorem addBatch_within_capacity (cap : Z)
    (calls : list (VectorStore.NewDocument * Z)) (s s' : VectorStore.Store) :
  0 < cap ->
  VectorStore.maxDocuments (VectorStore.config s) = Some cap ->
  wellFormed s ->
  VectorStore.size s <= cap ->
  VectorStore.addBatch s calls = Ok s' ->
  VectorStore.size s' <= cap /\ wellFormed s'.
Proof.
  intros Hpos. revert s. induction calls as [|[doc now] calls IH];
    intros s Hcap Hwf Hsize Hrun.
  - simpl in Hrun. injection Hrun as <-. split; assumption.
  - simpl in Hrun. unfold bind in Hrun.
    destruct (VectorStore.add s doc now) as [s1|e] eqn:Hadd; [|discriminate].
    destruct (add_inv _ _ _ _ Hadd) as [_ [Hdocs Hcfg]].
    apply (IH s1).
    + rewrite Hcfg. exact Hcap.
    + eapply add_wellFormed; eassumption.
    + unfold VectorStore.size. rewrite Hdocs.
      pose proof (evictOldest_length s cap (proj2 Hwf) Hcap Hpos Hsize) as He.
      pose proof (mapSet_length_le (VectorStore.evictOldest s)
                    (VectorStore.n_id doc) (snd (stored (doc, now)))) as Hl.
      unfold len in *. lia.
    + exact Hrun.
Qed.

(** X3, on the store of the capacity test: writing [doc1] again and then
    [doc3] leaves at most two documents. *)
Lemma addBatch_within_capacity_witness :
  exists s',
    VectorStore.addBatch Sample.fullStore
      [(Sample.doc "doc1" [1; 0; 0]%float, 3);
       (Sample.doc "doc3" [1; 0; 0]%float, 4)] = Ok s'
    /\ VectorStore.size s' <= 2.
Proof.
  eexists. split; [reflexivity|].
  refine (proj1 (addBatch_within_capacity 2
            [(Sample.doc "doc1" [1; 0; 0]%float, 3);
             (Sample.doc "doc3" [1; 0; 0]%float, 4)]
            Sample.fullStore _ _ _ _ _ eq_refl)).
  - lia.
  - reflexivity.
  - split; simpl.
    + repeat constructor; simpl; intuition discriminate.
    + repeat constructor.
  - vm_compute. discriminate.
Defined.

(** X4. At capacity [add] evicts one document, and it is one of least
    creation time: it can no longer be read (unless it is the id being
    written), and every id other than it and the one written reads as
    before. *)
Theorem add_evicts_an_oldest (s s' : VectorStore.Store)
    (doc : VectorStore.NewDocument) (now : Z) :
  wellFormed s ->
  VectorStore.atCapacity s = true ->
  VectorStore.documents s <> [] ->
  VectorStore.add s doc now = Ok s' ->
  exists victim,
    In victim (VectorStore.export s)
    /\ (forall d, In d (VectorStore.export s) ->
                  VectorStore.createdAt victim <= VectorStore.createdAt d)
    /\ (VectorStore.id victim <> VectorStore.n_id doc ->
        VectorStore.get s' (VectorStore.id victim) = None)
    /\ (forall k, k <> VectorStore.id victim -> k <> VectorStore.n_id doc ->
                  VectorStore.get s' k = VectorStore.get s k).
Proof.
  intros [Hnd Hk] Hfull Hne Hadd.
  destruct (add_inv _ _ _ _ Hadd) as [_ [Hdocs _]].
  unfold VectorStore.evictOldest in Hdocs. rewrite Hfull in Hdocs.
  destruct (sort VectorStore.olderFirst
              (VectorStore.values (VectorStore.documents s)))
    as [|oldest rest] eqn:Es.
  - exfalso. apply (f_equal (@length _)) in Es. rewrite sort_length in Es.
    unfold VectorStore.values in Es. rewrite length_map in Es.
    destruct (VectorStore.documents s); [congruence|discriminate].
  - destruct (sort_olderFirst_head _ _ _ Es) as [Hin Hleast].
    exists oldest. unfold VectorStore.export, VectorStore.get. rewrite Hdocs.
    split; [exact Hin|]. split; [exact Hleast|]. split.
    + intros Hother. rewrite mapGet_mapSet_other by exact Hother.
      apply mapGet_mapDelete_same, Hnd.
    + intros k Hk1 Hk2. rewrite mapGet_mapSet_other by exact Hk2.
      apply mapGet_mapDelete_other, Hk1.
Qed.

(** X4, on the store of the capacity test: adding [doc3] evicts [doc1],
    the older of the two. *)
Lemma add_evicts_an_oldest_witness :
  exists s' victim,
    VectorStore.add Sample.fullStore (Sample.doc "doc3" [1; 0; 0]%float) 3 = Ok s'
    /\ In victim (VectorStore.export Sample.fullStore)
    /\ VectorStore.get s' (VectorStore.id victim) = None
    /\ VectorStore.createdAt victim <= 1.
Proof.
  eexists.
  match goal with |- exists victim, VectorStore.add ?s ?d ?n = Ok ?s' /\ _ =>
    destruct (add_evicts_an_oldest s s' d n) as [victim [Hin [Hleast [Hgone _]]]]
  end.
  - split; simpl.
    + repeat constructor; simpl; intuition discriminate.
    + repeat constructor.
  - reflexivity.
  - discriminate.
  - reflexivity.
  - exists victim. split; [reflexivity|]. split; [exact Hin|]. split.
    + apply Hgone. simpl in Hin. destruct Hin as [<-|[<-|[]]]; discriminate.
    + apply (Hleast (snd (stored (Sample.doc "doc1" [0.5; 0.25; 0.125]%float, 1)))).
      left. reflexivity.
Defined.

(** X5. [delete(id)] answers whether the id was stored; afterwards the id
    reads as [undefined], every other id reads as before, and the size has
    gone down by one exactly when the answer is [true]. *)
Theorem delete_removes (s : VectorStore.Store) (k : jsstring) :
  wellFormed s ->
  fst (VectorStore.delete s k)
  = match VectorStore.get s k with Some _ => true | None => false end
  /\ VectorStore.get (snd (VectorStore.delete s k)) k = None
  /\ (forall k', k' <> k ->
        VectorStore.get (snd (VectorStore.delete s k)) k' = VectorStore.get s k')
  /\ VectorStore.size (snd (VectorStore.delete s k))
     = VectorStore.size s - (if fst (VectorStore.delete s k) then 1 else 0).
Proof.
  intros [Hnd _]. unfold VectorStore.delete, VectorStore.get, VectorStore.size.
  simpl. split; [apply mapGet_mapHas|]. split; [apply mapGet_mapDelete_same, Hnd|].
  split; [intros k' Hk; apply mapGet_mapDelete_other, Hk|].
  destruct (VectorStore.mapHas (VectorStore.documents s) k) eqn:Hhas.
  - apply mapHas_In in Hhas. pose proof (mapDelete_present _ _ Hhas) as Hl.
    unfold len. lia.
  - rewrite mapDelete_absent; [lia|].
    intros Hin. apply mapHas_In in Hin. congruence.
Qed.

(** X5, on the store of the capacity test: deleting [doc1] answers
    [true] and leaves one document. *)
Lemma delete_removes_witness :
  fst (VectorStore.delete Sample.fullStore (lit "doc1")) = true
  /\ VectorStore.get (snd (VectorStore.delete Sample.fullStore (lit "doc1")))
       (lit "doc1") = None
  /\ VectorStore.size (snd (VectorStore.delete Sample.fullStore (lit "doc1"))) = 1.
Proof.
  destruct (delete_removes Sample.fullStore (lit "doc1")) as [Hb [Hget [_ Hsize]]].
  - split; simpl.
    + repeat constructor; simpl; intuition discriminate.
    + repeat constructor.
  - split; [reflexivity|]. split; [exact Hget|]. exact Hsize.
Defined.

(** X6. [import] files every document as it is, behind the stored ones,
    whatever [maxDocuments] and [dimensions] say: with ids that are new and
    distinct the size grows by the number of documents, nothing is evicted
    and no embedding is checked. *)
Theorem import_appends_unchecked (s : VectorStore.Store)
    (docs : list VectorStore.VectorDocument) :
  keysAreIds (VectorStore.documents s) ->
  NoDup (map fst (VectorStore.documents s) ++ map VectorStore.id docs) ->
  VectorStore.export (VectorStore.import s docs) = VectorStore.export s ++ docs
  /\ VectorStore.size (VectorStore.import s docs) = VectorStore.size s + len docs
  /\ forall d, In d docs ->
       VectorStore.get (VectorStore.import s docs) (VectorStore.id d) = Some d.
Proof.
  intros Hk Hnd.
  assert (Hdocs : VectorStore.documents (VectorStore.import s docs)
                  = VectorStore.documents s
                    ++ map (fun d => (VectorStore.id d, d)) docs).
  { unfold VectorStore.import. simpl.
    rewrite <- (import_appends (map (fun d => (VectorStore.id d, d)) docs)
                  (VectorStore.documents s)).
    - unfold VectorStore.values. rewrite map_map. simpl. rewrite map_id.
      reflexivity.
    - rewrite map_app, map_map. simpl. exact Hnd.
    - unfold keysAreIds. apply Forall_forall. intros kv Hin.
      apply in_map_iff in Hin. destruct Hin as [d [<- _]]. reflexivity. }
  unfold VectorStore.export, VectorStore.size, VectorStore.get.
  rewrite Hdocs. split; [|split].
  - unfold VectorStore.values. rewrite map_app, map_map. simpl.
    rewrite map_id. reflexivity.
  - rewrite len_app. unfold len. rewrite length_map. reflexivity.
  - intros d Hd. clear Hdocs.
    assert (Hnd' : NoDup (map fst (VectorStore.documents s
                                   ++ map (fun d => (VectorStore.id d, d)) docs))).
    { rewrite map_app, map_map. simpl. exact Hnd. }
    assert (Hin : In (VectorStore.id d, d)
                    (VectorStore.documents s
                     ++ map (fun d => (VectorStore.id d, d)) docs)).
    { apply in_or_app. right. apply in_map_iff. exists d. split; [reflexivity|exact Hd]. }
    revert Hnd' Hin.
    generalize (VectorStore.documents s ++ map (fun d => (VectorStore.id d, d)) docs).
    intros m. induction m as [|[k0 v0] m IH]; simpl; [contradiction|].
    intros Hn [E|Hin].
    + injection E as -> ->. destruct (VectorStore.str_eq_dec (VectorStore.id d) (VectorStore.id d));
        [reflexivity|contradiction].
    + inversion Hn as [|? ? Hnotin Hn']; subst.
      destruct (VectorStore.str_eq_dec k0 (VectorStore.id d)) as [E|E].
      * exfalso. apply Hnotin. subst k0.
        apply in_map_iff. exists (VectorStore.id d, d). split; [reflexivity|exact Hin].
      * apply IH; assumption.
Qed.

(** X6, on the store of the capacity test, which is full with two
    documents: importing a third of another dimension gives three. *)
Lemma import_appends_unchecked_witness :
  VectorStore.size
    (VectorStore.import Sample.fullStore
       [{| VectorStore.id := lit "short"; VectorStore.content := lit "short";
           VectorStore.embedding := [1; 0]%float; VectorStore.metadata := None;
           VectorStore.createdAt := 0 |}]) = 3.
Proof.
  refine (proj1 (proj2 (import_appends_unchecked Sample.fullStore
            [{| VectorStore.id := lit "short"; VectorStore.content := lit "short";
                VectorStore.embedding := [1; 0]%float; VectorStore.metadata := None;
                VectorStore.createdAt := 0 |}] _ _))).
  - repeat constructor.
  - repeat constructor; simpl; intuition discriminate.
Defined.

(** X7. [addBatch] does not roll back: when the documents in front of the
    first one of a wrong dimension all fit, the batch rejects with the
    mismatch error of that document, the documents in front of it are stored
    as by a batch of their own, and the ones behind it are never written. *)
Theorem addBatch_stops_at_first_mismatch (s : VectorStore.Store)
    (before after : list (VectorStore.NewDocument * Z))
    (doc : VectorStore.NewDocument) (now : Z) :
  Forall (fun c => len (VectorStore.n_embedding (fst c))
                   = VectorStore.dimensions (VectorStore.config s)) before ->
  len (VectorStore.n_embedding doc)
  <> VectorStore.dimensions (VectorStore.config s) ->
  exists s',
    VectorStore.addBatch s before = Ok s'
    /\ VectorStoreRun.addBatchRun s (before ++ (doc, now) :: after)
       = (s', Some (EmbeddingDimensionsMismatch
                      (VectorStore.dimensions (VectorStore.config s))
                      (len (VectorStore.n_embedding doc))))
    /\ VectorStore.addBatch s (before ++ (doc, now) :: after)
       = Throw (EmbeddingDimensionsMismatch
                  (VectorStore.dimensions (VectorStore.config s))
                  (len (VectorStore.n_embedding doc))).
Proof.
  intros Hfit Hbad. revert s Hfit Hbad.
  induction before as [|[d t] before IH]; intros s Hfit Hbad.
  - exists s. simpl. unfold bind, VectorStore.add.
    apply Z.eqb_neq in Hbad. rewrite Hbad. simpl. repeat split.
  - inversion Hfit as [|? ? Hd Hrest]; subst. simpl in Hd.
    assert (Hadd : exists s1, VectorStore.add s d t = Ok s1).
    { unfold VectorStore.add. rewrite Hd, Z.eqb_refl. simpl. eexists. reflexivity. }
    destruct Hadd as [s1 Hadd].
    destruct (add_inv _ _ _ _ Hadd) as [_ [_ Hcfg]].
    destruct (IH s1) as [s' [H1 [H2 H3]]].
    + rewrite Hcfg. exact Hrest.
    + rewrite Hcfg. exact Hbad.
    + exists s'. simpl. unfold bind. rewrite Hadd.
      rewrite Hcfg in H2, H3. repeat split; assumption.
Qed.

(** X7, on a batch whose second document has two components for a store
    of dimension 3: the first document is stored, the third is not. *)
Lemma addBatch_stops_at_first_mismatch_witness :
  exists s',
    VectorStoreRun.addBatchRun (Sample.storeOf 3 None)
      ([(Sample.doc "doc1" [1; 0; 0]%float, 1)]
       ++ (Sample.doc "doc2" [1; 0]%float, 2)
          :: [(Sample.doc "doc3" [0; 0; 1]%float, 3)])
    = (s', Some (EmbeddingDimensionsMismatch 3 2))
    /\ map fst (VectorStore.documents s') = [lit "doc1"].
Proof.
  destruct (addBatch_stops_at_first_mismatch (Sample.storeOf 3 None)
              [(Sample.doc "doc1" [1; 0; 0]%float, 1)]
              [(Sample.doc "doc3" [0; 0; 1]%float, 3)]
              (Sample.doc "doc2" [1; 0]%float) 2) as [s' [H1 [H2 _]]].
  - repeat constructor.
  - vm_compute. discriminate.
  - exists s'. split; [exact H2|].
    vm_compute in H1. injection H1 as <-. reflexivity.
Defined.

(** X8. A store that was filled through [add] and [addBatch] alone holds
    embeddings of the configured dimension only, and [search] with a query
    of that dimension never throws on it. *)
Theorem search_after_addBatch_answers (p : VectorStore.PartialConfig)
    (calls : list (VectorStore.NewDocument * Z)) (s : VectorStore.Store)
    (query : list float) (topK : option Z)
    (flt : option (VectorStore.VectorDocument -> bool)) :
  VectorStore.addBatch (VectorStore.new p) calls = Ok s ->
  len query = VectorStore.dimensions (VectorStore.config s) ->
  dimensioned s
  /\ exists results, VectorStore.search s query topK flt = Ok results.
Proof.
  intros Hrun Hq.
  assert (Hdim : dimensioned s).
  { assert (H0 : dimensioned (VectorStore.new p)) by constructor.
    revert Hrun H0. generalize (VectorStore.new p). clear Hq.
    induction calls as [|[doc now] calls IH]; intros s0 Hrun H0.
    - simpl in Hrun. injection Hrun as <-. exact H0.
    - simpl in Hrun. unfold bind in Hrun.
      destruct (VectorStore.add s0 doc now) as [s1|e] eqn:Hadd; [|discriminate].
      apply (IH s1 Hrun).
      destruct (add_inv _ _ _ _ Hadd) as [Hlen [Hdocs Hcfg]].
      unfold dimensioned in *. rewrite Hdocs, Hcfg.
      assert (He : Forall (fun d => len (VectorStore.embedding d)
                                    = VectorStore.dimensions (VectorStore.config s0))
                     (VectorStore.values (VectorStore.evictOldest s0))).
      { unfold VectorStore.evictOldest.
        destruct (VectorStore.atCapacity s0); [|exact H0].
        destruct (sort VectorStore.olderFirst
                    (VectorStore.values (VectorStore.documents s0)));
          [exact H0|].
        apply values_mapDelete, H0. }
      apply values_mapSet; [exact He|exact Hlen]. }
  split; [exact Hdim|].
  assert (Hlens : Forall (fun d => len query = len (VectorStore.embedding d))
                    (VectorStore.values (VectorStore.documents s))).
  { eapply Forall_impl; [|exact Hdim]. simpl. intros d Hd. congruence. }
  destruct (scan_defined s query flt _ Hlens) as [scanned [Hscan _]].
  unfold VectorStore.search. rewrite Hq, Z.eqb_refl. simpl negb. cbv iota.
  rewrite Hscan. eexists. reflexivity.
Qed.

(** X8, on the store of the capacity test and the query [[1, 0, 0]]. *)
Lemma search_after_addBatch_answers_witness :
  exists results,
    VectorStore.search Sample.fullStore [1; 0; 0]%float None None = Ok results.
Proof.
  exact (proj2 (search_after_addBatch_answers
                  {| VectorStore.p_dimensions := Some 3;
                     VectorStore.p_similarityMetric := None;
                     VectorStore.p_maxDocuments := Some 2 |}
                  [(Sample.doc "doc1" [0.5; 0.25; 0.125]%float, 1);
                   (Sample.doc "doc2" [0.25; 0.5; 0.75]%float, 2)]
                  Sample.fullStore [1; 0; 0]%float None None eq_refl eq_refl)).
Defined.

(** ** The similarity of the zero vector *)

Section ZeroVector.
Import Embeddings.

Lemma cosineStep_zero_left (n : nat) (b : list float) (d mb : float) :
  snd (fst (fold_left cosineStep (combine (repeat 0%float n) b) (d, 0%float, mb)))
  = 0%float.
Proof.
  revert b d mb. induction n as [|n IH]; intros b d mb; [reflexivity|].
  destruct b as [|y b]; [reflexivity|]. simpl. apply IH.
Qed.

Lemma cosineStep_zero_right (n : nat) (a : list float) (d ma : float) :
  snd (fold_left cosineStep (combine a (repeat 0%float n)) (d, ma, 0%float))
  = 0%float.
Proof.
  revert a d ma. induction n as [|n IH]; intros a d ma.
  - destruct a; reflexivity.
  - destruct a as [|x a]; [reflexivity|]. simpl. apply IH.
Qed.

Lemma cosineSimilarity_zero_left (n : nat) (b : list float) :
  length b = n -> cosineSimilarity (repeat 0%float n) b = Ok 0%float.
Proof.
  intros Hlen. unfold cosineSimilarity, len.
  rewrite repeat_length, Hlen, Z.eqb_refl. simpl negb. cbv iota.
  pose proof (cosineStep_zero_left n b 0 0) as H.
  destruct (fold_left cosineStep (combine (repeat 0%float n) b)
              (0%float, 0%float, 0%float)) as [[d ma] mb].
  simpl in H. subst ma. reflexivity.
Qed.

Lemma cosineSimilarity_zero_right (n : nat) (a : list float) :
  length a = n -> cosineSimilarity a (repeat 0%float n) = Ok 0%float.
Proof.
  intros Hlen. unfold cosineSimilarity, len.
  rewrite repeat_length, Hlen, Z.eqb_refl. simpl negb. cbv iota.
  pose proof (cosineStep_zero_right n a 0 0) as H.
  destruct (fold_left cosineStep (combine a (repeat 0%float n))
              (0%float, 0%float, 0%float)) as [[d ma] mb].
  simpl in H. subst mb.
  destruct (PrimFloat.eqb (PrimFloat.sqrt ma) 0); reflexivity.
Qed.

End ZeroVector.

(** X9. The cosine similarity of the zero vector with any vector of its
    length is 0, on either side and whatever the other vector holds: the
    guard on the magnitudes answers before the division. *)
Theorem cosineSimilarity_zero_vector (n : nat) (b : list float) :
  length b = n ->
  Embeddings.cosineSimilarity (repeat 0%float n) b = Ok 0%float
  /\ Embeddings.cosineSimilarity b (repeat 0%float n) = Ok 0%float.
Proof.
  intros Hlen. split.
  - apply cosineSimilarity_zero_left, Hlen.
  - apply cosineSimilarity_zero_right, Hlen.
Qed.

(** X9, against a vector with an infinite component. *)
Lemma cosineSimilarity_zero_vector_witness :
  Embeddings.cosineSimilarity [0; 0]%float [infinity; 1]%float = Ok 0%float.
Proof.
  exact (proj1 (cosineSimilarity_zero_vector 2 [infinity; 1]%float eq_refl)).
Defined.

(** ** The retriever: what comes back *)

Section ContextFacts.
Import Retrieval.

Lemma join_length (parts : list jsstring) (sep : jsstring) :
  len (join parts sep)
  = fold_right (fun p acc => len p + acc) 0 parts
    + len sep * Z.max 0 (len parts - 1).
Proof.
  induction parts as [|p parts IH]; [unfold len; simpl; lia|].
  destruct parts as [|p' parts].
  - simpl. unfold len. simpl. lia.
  - change (join (p :: p' :: parts) sep) with (p ++ sep ++ join (p' :: parts) sep).
    rewrite !len_app, IH. simpl fold_right.
    unfold len. simpl length. lia.
Qed.

Lemma collect_prefix (cfg : RetrievalConfig)
    (results : list VectorStore.SearchResult) (currentLength : Z) :
  exists n,
    collect cfg results currentLength
    = map (fun r => formatDocument r cfg) (firstn n results)
    /\ (n = 0%nat
        \/ currentLength
           + fold_right (fun p acc => len p + acc) 0
               (map (fun r => formatDocument r cfg) (firstn n results))
           <= maxContextLength cfg)
    /\ forall r, nth_error results n = Some r ->
         currentLength
         + fold_right (fun p acc => len p + acc) 0
             (map (fun r => formatDocument r cfg) (firstn n results))
         + len (formatDocument r cfg) > maxContextLength cfg.
Proof.
  revert currentLength. induction results as [|r results IH]; intros cur.
  - exists 0%nat. simpl. split; [reflexivity|]. split; [left; reflexivity|].
    discriminate.
  - simpl. destruct (cur + len (formatDocument r cfg) >? maxContextLength cfg) eqn:E.
    + exists 0%nat. simpl. split; [reflexivity|]. split; [left; reflexivity|].
      intros r' H. injection H as <-. rewrite Z.gtb_ltb in E.
      apply Z.ltb_lt in E. lia.
    + rewrite Z.gtb_ltb in E. apply Z.ltb_ge in E.
      destruct (IH (cur + len (formatDocument r cfg))) as [n [Hc [Hsum Hnext]]].
      exists (S n). simpl. split; [rewrite Hc; reflexivity|]. split.
      * right. destruct Hsum as [->|Hsum]; simpl; lia.
      * intros r' H. specialize (Hnext r' H). lia.
Qed.

End ContextFacts.

(** X10. [buildContext] takes the results in order for as long as their
    formatted texts fit together into [maxContextLength], and stops at the
    first that does not, also when a later one would fit. The separators
    between the texts are not counted: the context is longer than the texts
    by seven code units for each. *)
Theorem buildContext_takes_a_prefix (results : list VectorStore.SearchResult)
    (cfg : Retrieval.RetrievalConfig) :
  exists n,
    let parts := map (fun r => Retrieval.formatDocument r cfg) (firstn n results) in
    Retrieval.buildContext results cfg
    = join parts ([10; 10]%N ++ lit "---" ++ [10; 10]%N)
    /\ (n = 0%nat
        \/ fold_right (fun p acc => len p + acc) 0 parts
           <= Retrieval.maxContextLength cfg)
    /\ len (Retrieval.buildContext results cfg)
       = fold_right (fun p acc => len p + acc) 0 parts
         + 7 * Z.max 0 (len parts - 1)
    /\ forall r, nth_error results n = Some r ->
         fold_right (fun p acc => len p + acc) 0 parts
         + len (Retrieval.formatDocument r cfg)
         > Retrieval.maxContextLength cfg.
Proof.
  destruct (collect_prefix cfg results 0) as [n [Hc [Hsum Hnext]]].
  exists n. cbv zeta. unfold Retrieval.buildContext. rewrite Hc.
  split; [reflexivity|]. split; [|split].
  - destruct Hsum as [->|Hsum]; [left; reflexivity|right; lia].
  - rewrite join_length. reflexivity.
  - intros r Hr. specialize (Hnext r Hr). lia.
Qed.

(** X11. Whatever [retrieve] returns: no document scores below [minScore]
    (nor NaN), there are at most [topK] documents when [topK] is not
    negative, the query is handed back, and the token estimate is a quarter
    of the length of the context, rounded up. When the provider throws,
    [retrieve] throws the same error. *)
Theorem retrieve_returns_passing (store : VectorStore.Store)
    (embed : jsstring -> result Embeddings.EmbeddingResult)
    (this_config : Retrieval.RetrievalConfig) (q : jsstring)
    (options : Retrieval.PartialRetrievalConfig) :
  (forall r,
     Retrieval.retrieve store embed this_config q options = Ok r ->
     Forall (fun d => PrimFloat.leb
                        (Retrieval.minScore (Retrieval.spread this_config options))
                        (VectorStore.score d) = true)
       (Retrieval.documents r)
     /\ (0 <= Retrieval.topK (Retrieval.spread this_config options) ->
         len (Retrieval.documents r)
         <= Retrieval.topK (Retrieval.spread this_config options))
     /\ Retrieval.query r = q
     /\ Retrieval.context r
        = Retrieval.buildContext (Retrieval.documents r)
            (Retrieval.spread this_config options)
     /\ 4 * Retrieval.tokenEstimate r - 3 <= len (Retrieval.context r)
        <= 4 * Retrieval.tokenEstimate r)
  /\ (forall e, embed q = Throw e ->
        Retrieval.retrieve store embed this_config q options = Throw e).
Proof.
  split.
  - intros r. unfold Retrieval.retrieve, bind.
    generalize (Retrieval.spread this_config options). intros cfg.
    destruct (embed q) as [qe|e]; [|discriminate].
    destruct (VectorStore.search store (Embeddings.embedding qe)
                (Some (Retrieval.topK cfg))
                (Some (fun _ => true))) as [results|e] eqn:Hs; [|discriminate].
    intros H. injection H as <-. cbn [Retrieval.documents Retrieval.query
      Retrieval.context Retrieval.tokenEstimate].
    split; [|split; [|split; [|split]]].
    + apply Forall_forall. intros d Hd. apply filter_In in Hd. apply Hd.
    + intros Htop. unfold VectorStore.search in Hs.
      destruct (negb (len (Embeddings.embedding qe)
                      =? VectorStore.dimensions (VectorStore.config store)));
        [discriminate|].
      unfold bind in Hs.
      destruct (VectorStore.scan store (Embeddings.embedding qe)
                  (Some (fun _ => true))
                  (VectorStore.values (VectorStore.documents store)))
        as [scanned|e]; [|discriminate].
      injection Hs as <-.
      pose proof (slice_window_length _ (sort VectorStore.higherFirst scanned) 0
                    (Retrieval.topK cfg) (Z.le_refl 0) Htop) as Hw.
      rewrite Z.add_0_l in Hw.
      match goal with |- len (filter ?f ?l) <= _ =>
        pose proof (filter_length_le f l) as Hf end.
      unfold len in *. lia.
    + reflexivity.
    + reflexivity.
    + match goal with |- context [(?n + 3) / 4] =>
        pose proof (Z.div_mod (n + 3) 4 ltac:(lia));
        pose proof (Z.mod_pos_bound (n + 3) 4 ltac:(lia)) end.
      lia.
  - intros e He. unfold Retrieval.retrieve, bind. rewrite He. reflexivity.
Qed.

(** X11, on the store that holds ["hello"] and the default configuration:
    the one document comes back, which scores at least 0.5. *)
Lemma retrieve_returns_passing_witness :
  exists r,
    Retrieval.retrieve Sample.helloStore Sample.unitEmbed Retrieval.defaultConfig
      (lit "hi") (Sample.retrievalOptions None None) = Ok r
    /\ Forall (fun d => PrimFloat.leb 0.5 (VectorStore.score d) = true)
         (Retrieval.documents r)
    /\ len (Retrieval.documents r) <= 5.
Proof.
  eexists. split; [vm_compute; reflexivity|].
  match goal with |- Forall _ (Retrieval.documents ?r) /\ _ =>
    destruct (proj1 (retrieve_returns_passing Sample.helloStore Sample.unitEmbed
                       Retrieval.defaultConfig (lit "hi")
                       (Sample.retrievalOptions None None)) r eq_refl)
      as [Hpass [Htop _]]
  end.
  split; [exact Hpass|]. apply Htop. simpl. lia.
Defined.

(** ** Merging: what the merged chunks are made of *)

Section MergeFacts.
Import Chunking.

Lemma join_snoc (l : list jsstring) (x a sep : jsstring) :
  join ((a :: l) ++ [x]) sep = join (a :: l) sep ++ sep ++ x.
Proof.
  revert a. induction l as [|b l IH]; intros a; [reflexivity|].
  change (join ((a :: b :: l) ++ [x]) sep)
    with (a ++ sep ++ join ((b :: l) ++ [x]) sep).
  rewrite IH.
  change (join (a :: b :: l) sep) with (a ++ sep ++ join (b :: l) sep).
  rewrite <- !app_assoc. reflexivity.
Qed.

Lemma mergeLoop_groups (minSize : Z) (chunks : list TextChunk) :
  forall (merged : list TextChunk) (cur : TextChunk)
         (gs : list (TextChunk * list TextChunk)) (g : TextChunk * list TextChunk),
    Forall2 mergedFrom gs merged ->
    mergedFrom g cur ->
    exists groups,
      ungroup groups = (fst g :: snd g) ++ chunks
      /\ Forall2 mergedFrom (gs ++ groups)
           (mergeLoop minSize chunks merged (Some cur)).
Proof.
  induction chunks as [|chunk rest IH]; intros merged cur gs g Hgs Hg.
  - exists [g]. split.
    + unfold ungroup. simpl. rewrite !app_nil_r. reflexivity.
    + simpl. apply Forall2_app; [exact Hgs|].
      constructor; [|constructor]. exact Hg.
  - simpl. destruct (len (content cur) <? minSize).
    + destruct (IH merged
                  {| content := content cur ++ [10; 10]%N ++ content chunk;
                     index := index cur; startOffset := startOffset cur;
                     endOffset := endOffset chunk; metadata := metadata cur |}
                  gs (fst g, snd g ++ [chunk]) Hgs) as [groups [Hun Hall]].
      * destruct Hg as [Hc [Hs [He Hm]]].
        unfold mergedFrom. cbn [content startOffset endOffset metadata fst snd].
        split; [|split; [|split]].
        -- rewrite Hc.
           change (map content (fst g :: snd g ++ [chunk]))
             with (content (fst g) :: map content (snd g ++ [chunk])).
           rewrite map_app.
           exact (eq_sym (join_snoc (map content (snd g)) (content chunk)
                            (content (fst g)) [10; 10]%N)).
        -- exact Hs.
        -- rewrite last_last. reflexivity.
        -- exact Hm.
      * exists groups. split; [|exact Hall].
        rewrite Hun. simpl. rewrite <- app_assoc. reflexivity.
    + destruct (IH (merged ++ [cur])
                  {| content := content chunk; index := len (merged ++ [cur]);
                     startOffset := startOffset chunk;
                     endOffset := endOffset chunk; metadata := metadata chunk |}
                  (gs ++ [g]) (chunk, [])) as [groups [Hun Hall]].
      * apply Forall2_app; [exact Hgs|]. constructor; [exact Hg|constructor].
      * repeat split.
      * exists (g :: groups). split.
        -- unfold ungroup in *. simpl. rewrite Hun. reflexivity.
        -- rewrite <- app_assoc in Hall. exact Hall.
Qed.

Lemma mergeLoop_min_size (minSize : Z) (chunks : list TextChunk) :
  forall (merged : list TextChunk) (cur : TextChunk) (out : list TextChunk)
         (final : TextChunk),
    Forall (fun c => minSize <= len (content c)) merged ->
    mergeLoop minSize chunks merged (Some cur) = out ++ [final] ->
    Forall (fun c => minSize <= len (content c)) out.
Proof.
  induction chunks as [|chunk rest IH]; intros merged cur out final Hbig Hrun.
  - simpl in Hrun. apply app_inj_tail in Hrun. destruct Hrun as [<- _]. exact Hbig.
  - simpl in Hrun. destruct (len (content cur) <? minSize) eqn:E.
    + eapply IH; eassumption.
    + eapply IH; [|exact Hrun]. apply Z.ltb_ge in E.
      apply Forall_app. split; [exact Hbig|]. constructor; [exact E|constructor].
Qed.

Lemma mergeLoop_indices (minSize : Z) (chunks : list TextChunk) :
  forall (merged : list TextChunk) (cur : TextChunk),
  exists o os,
    mergeLoop minSize chunks merged (Some cur) = merged ++ o :: os
    /\ index o = (if (length os =? 0)%nat then len merged else index cur)
    /\ map index os
       = map Z.of_nat (seq (S (length merged)) (length os)).
Proof.
  induction chunks as [|chunk rest IH]; intros merged cur.
  - simpl. eexists. exists []. split; [reflexivity|]. split; reflexivity.
  - simpl. destruct (len (content cur) <? minSize).
    + destruct (IH merged
                  {| content := content cur ++ [10; 10]%N ++ content chunk;
                     index := index cur; startOffset := startOffset cur;
                     endOffset := endOffset chunk; metadata := metadata cur |})
        as [o [os [Hrun [Ho Hos]]]].
      exists o, os. split; [exact Hrun|]. split; [exact Ho|exact Hos].
    + destruct (IH (merged ++ [cur])
                  {| content := content chunk; index := len (merged ++ [cur]);
                     startOffset := startOffset chunk;
                     endOffset := endOffset chunk; metadata := metadata chunk |})
        as [o [os [Hrun [Ho Hos]]]].
      exists cur, (o :: os). split; [|split].
      * rewrite Hrun, <- app_assoc. reflexivity.
      * reflexivity.
      * simpl. f_equal.
        -- rewrite Ho. cbn [index]. destruct (length os =? 0)%nat;
             unfold len; rewrite length_app; simpl; f_equal; lia.
        -- rewrite Hos. rewrite length_app. simpl.
           replace (length merged + 1)%nat with (S (length merged)) by lia.
           reflexivity.
Qed.

End MergeFacts.

(** X12. [mergeSmallChunks] cuts the chunks into groups of neighbours, in
    order and without leaving one out, and returns one chunk for each
    group: the contents of the group joined by a blank line, from the start
    offset of its first chunk to the end offset of its last, with the
    metadata of the first. *)
Theorem mergeSmallChunks_groups (chunks : list Chunking.TextChunk) (minSize : Z) :
  exists groups,
    ungroup groups = chunks
    /\ Forall2 mergedFrom groups (Chunking.mergeSmallChunks chunks minSize).
Proof.
  unfold Chunking.mergeSmallChunks. destruct chunks as [|first rest].
  - exists []. split; [reflexivity|constructor].
  - simpl.
    destruct (mergeLoop_groups minSize rest [] first [] (first, []))
      as [groups [Hun Hall]].
    + constructor.
    + repeat split.
    + exists groups. split; [exact Hun|exact Hall].
Qed.

(** X13. Every chunk that [mergeSmallChunks] returns, but for the last,
    has at least [minSize] code units. *)
Theorem mergeSmallChunks_min_size (chunks : list Chunking.TextChunk) (minSize : Z)
    (out : list Chunking.TextChunk) (final : Chunking.TextChunk) :
  Chunking.mergeSmallChunks chunks minSize = out ++ [final] ->
  Forall (fun c => minSize <= len (Chunking.content c)) out.
Proof.
  unfold Chunking.mergeSmallChunks. destruct chunks as [|first rest]; simpl.
  - intros H. destruct out; discriminate.
  - apply mergeLoop_min_size. constructor.
Qed.

(** X13, on chunks of 150, 20 and 30 code units with [minSize = 100]:
    the first of the two chunks returned has 150. *)
Lemma mergeSmallChunks_min_size_witness :
  Forall (fun c => 100 <= len (Chunking.content c)) [Sample.chunkOfLength 150].
Proof.
  apply (mergeSmallChunks_min_size
           [Sample.chunkOfLength 150; Sample.chunkOfLength 20;
            Sample.chunkOfLength 30] 100 [Sample.chunkOfLength 150]
           {| Chunking.content :=
                Chunking.content (Sample.chunkOfLength 20) ++ [10; 10]%N
                ++ Chunking.content (Sample.chunkOfLength 30);
              Chunking.index := 1; Chunking.startOffset := 0;
              Chunking.endOffset := 30; Chunking.metadata := None |}).
  vm_compute. reflexivity.
Defined.

(** X14. [mergeSmallChunks] numbers the chunks it returns by position, but
    for the first: when more than one chunk comes back, the first keeps the
    index that the first input chunk came with. *)
Theorem mergeSmallChunks_indices (first : Chunking.TextChunk)
    (rest : list Chunking.TextChunk) (minSize : Z) :
  exists o os,
    Chunking.mergeSmallChunks (first :: rest) minSize = o :: os
    /\ Chunking.index o
       = (if (length os =? 0)%nat then 0 else Chunking.index first)
    /\ map Chunking.index os = map Z.of_nat (seq 1 (length os)).
Proof.
  unfold Chunking.mergeSmallChunks. simpl.
  destruct (mergeLoop_indices minSize rest [] first) as [o [os [Hrun [Ho Hos]]]].
  exists o, os. split; [exact Hrun|]. split; [exact Ho|exact Hos].
Qed.

(** ** The chunker: order, offsets, and the inputs it hangs on *)

Section ChunkOrderFacts.
Import Chunking.

Lemma split_go_no_match (sep s : jsstring) :
  includes s sep = false -> split_go sep s 0 = [s].
Proof.
  induction s as [|c r IH]; intros H; [reflexivity|].
  rewrite includes_unfold in H. apply orb_false_iff in H. destruct H as [H1 H2].
  cbn [split_go]. rewrite H1, (IH H2). reflexivity.
Qed.

Lemma split_no_match (s sep : jsstring) :
  includes s sep = false -> split s sep = [s].
Proof.
  intros H. destruct sep as [|p sep].
  - destruct s; discriminate.
  - apply split_go_no_match, H.
Qed.

Lemma splitRecursively_diverges (cfg : ChunkConfig) (fuel : nat) (text : jsstring)
    (seps : list jsstring) :
  maxChunkSize cfg <= chunkOverlap cfg ->
  maxChunkSize cfg < len text ->
  0 < len text ->
  Forall (fun sep => includes text sep = false) seps ->
  splitRecursively cfg fuel seps text = None.
Proof.
  intros Hstride Hlong Hpos Hseps.
  induction Hseps as [|sep seps Hsep _ IH]; rewrite splitRecursively_unfold;
    (replace (len text <=? maxChunkSize cfg) with false
       by (symmetry; apply Z.leb_gt; exact Hlong)).
  - apply hardSplit_diverges; lia.
  - rewrite (split_no_match _ _ Hsep). cbn [accumulate truthy].
    replace (len text <=? maxChunkSize cfg) with false
      by (symmetry; apply Z.leb_gt; exact Hlong).
    replace (len text >? maxChunkSize cfg) with true
      by (symmetry; rewrite Z.gtb_ltb; apply Z.ltb_lt; exact Hlong).
    rewrite IH. reflexivity.
Qed.

Lemma overlapLoop_bounds (cfg : ChunkConfig) (raw : list jsstring) :
  forall (prev : option jsstring) (i off : Z),
    Forall (fun c => i <= index c /\ off <= startOffset c <= endOffset c)
      (overlapLoop cfg raw prev i off).
Proof.
  induction raw as [|r raw IH]; intros prev i off; simpl; constructor.
  - simpl. pose proof (len_nonneg _ r). lia.
  - eapply Forall_impl; [|apply (IH (Some r) (i + 1) (off + len r))].
    simpl. intros c Hc. pose proof (len_nonneg _ r). lia.
Qed.

Lemma overlapLoop_ordered (cfg : ChunkConfig) (raw : list jsstring) :
  forall (prev : option jsstring) (i off : Z),
    StronglySorted
      (fun a b => index a < index b /\ endOffset a <= startOffset b)
      (overlapLoop cfg raw prev i off).
Proof.
  induction raw as [|r raw IH]; intros prev i off; simpl; constructor.
  - apply IH.
  - eapply Forall_impl; [|apply (overlapLoop_bounds cfg raw (Some r) (i + 1) (off + len r))].
    simpl. intros c Hc. lia.
Qed.

Lemma StronglySorted_filter (A : Type) (R : A -> A -> Prop) (f : A -> bool)
    (l : list A) :
  StronglySorted R l -> StronglySorted R (filter f l).
Proof.
  induction 1 as [|a l Hl IH Ha]; simpl; [constructor|].
  destruct (f a); [|exact IH]. constructor; [exact IH|].
  apply Forall_forall. intros x Hx. apply filter_In in Hx.
  rewrite Forall_forall in Ha. apply Ha, Hx.
Qed.

End ChunkOrderFacts.

(** X15. With a step [maxChunkSize - chunkOverlap] that is not positive,
    [chunkText] never returns on a text that is longer than [maxChunkSize]
    and holds none of the separators: the text reaches the hard split whole,
    and its loop does not advance. *)
Theorem chunkText_never_returns (text : jsstring)
    (config : Chunking.PartialChunkConfig) :
  Chunking.maxChunkSize (Chunking.spread config)
  <= Chunking.chunkOverlap (Chunking.spread config) ->
  Chunking.maxChunkSize (Chunking.spread config) < len text ->
  0 < len text ->
  Forall (fun sep => includes text sep = false)
    (Chunking.separators (Chunking.spread config)) ->
  forall fuel, Chunking.chunkText fuel text config = None.
Proof.
  intros Hstride Hlong Hpos Hseps fuel. unfold Chunking.chunkText.
  rewrite splitRecursively_diverges; trivial.
Qed.

(** X15, on 1001 letters with [chunkOverlap = 1000], the default
    [maxChunkSize]. *)
Lemma chunkText_never_returns_witness :
  Chunking.chunkText 5000 (repeat_str (lit "a") 1001)
    {| Chunking.p_maxChunkSize := None; Chunking.p_chunkOverlap := Some 1000;
       Chunking.p_separators := None; Chunking.p_preserveStructure := None |}
  = None.
Proof.
  apply (chunkText_never_returns (repeat_str (lit "a") 1001)
           {| Chunking.p_maxChunkSize := None; Chunking.p_chunkOverlap := Some 1000;
              Chunking.p_separators := None; Chunking.p_preserveStructure := None |}).
  - simpl. lia.
  - vm_compute. reflexivity.
  - vm_compute. reflexivity.
  - repeat constructor.
Defined.

(** X16. In what [chunkText] returns the indices increase strictly and the
    offset ranges follow each other without overlap: a chunk ends where a
    later one starts, or before; no index and no offset is negative. *)
Theorem chunkText_ordered (fuel : nat) (text : jsstring)
    (config : Chunking.PartialChunkConfig) (chunks : list Chunking.TextChunk) :
  Chunking.chunkText fuel text config = Some chunks ->
  StronglySorted
    (fun a b => Chunking.index a < Chunking.index b
                /\ Chunking.endOffset a <= Chunking.startOffset b) chunks
  /\ Forall (fun c => 0 <= Chunking.index c
                      /\ 0 <= Chunking.startOffset c <= Chunking.endOffset c)
       chunks.
Proof.
  unfold Chunking.chunkText.
  destruct (Chunking.splitRecursively (Chunking.spread config) fuel
              (Chunking.separators (Chunking.spread config)) text) as [raw|];
    [|discriminate].
  intros H. injection H as <-. split.
  - apply StronglySorted_filter, overlapLoop_ordered.
  - apply Forall_forall. intros c Hc. apply filter_In in Hc.
    destruct Hc as [Hc _].
    pose proof (overlapLoop_bounds (Chunking.spread config) raw None 0 0) as Hb.
    rewrite Forall_forall in Hb. apply Hb, Hc.
Qed.

(** X16, on the two paragraphs of 500 letters. *)
Lemma chunkText_ordered_witness :
  exists chunks,
    Chunking.chunkText 2000 Sample.twoParagraphs Chunking.emptyConfig = Some chunks
    /\ StronglySorted
         (fun a b => Chunking.index a < Chunking.index b
                     /\ Chunking.endOffset a <= Chunking.startOffset b) chunks.
Proof.
  destruct (Chunking.chunkText 2000 Sample.twoParagraphs Chunking.emptyConfig)
    as [chunks|] eqn:E.
  - exists chunks. split; [reflexivity|].
    exact (proj1 (chunkText_ordered 2000 Sample.twoParagraphs
                    Chunking.emptyConfig chunks E)).
  - vm_compute in E. discriminate.
Defined.

(** ** Sentence chunks *)

Section SentenceFacts.
Import Chunking Sentences.

Lemma matchSentences_covers (s : jsstring) :
  forall (cur : jsstring) (inRun : bool),
    (if inRun then sentence cur else unterminated cur) ->
    exists rest,
      unterminated rest
      /\ cur ++ s = concat (matchSentences s cur inRun) ++ rest
      /\ Forall sentence (matchSentences s cur inRun)
      /\ (matchSentences s cur inRun = [] -> inRun = false /\ unterminated s).
Proof.
  induction s as [|c r IH]; intros cur inRun Hcur.
  - destruct inRun; simpl.
    + exists []. split; [constructor|]. split; [rewrite !app_nil_r; reflexivity|].
      split; [constructor; [exact Hcur|constructor]|discriminate].
    + exists cur. split; [exact Hcur|]. split; [rewrite app_nil_r; reflexivity|].
      split; [constructor|]. intros _. split; [reflexivity|constructor].
  - cbn [matchSentences]. destruct (isTerminator c) eqn:Ec.
    + destruct (IH (cur ++ [c]) true) as [rest [Hrest [Heq [Hall Hnone]]]].
      * destruct inRun.
        -- destruct Hcur as [body [c0 [run [-> [Hb Hr]]]]].
           exists body, c0, (run ++ [c]). split; [|split].
           ++ rewrite <- app_assoc. reflexivity.
           ++ exact Hb.
           ++ change (c0 :: run ++ [c]) with ((c0 :: run) ++ [c]).
              apply Forall_app. split; [exact Hr|]. constructor; [exact Ec|constructor].
        -- exists cur, c, []. split; [reflexivity|]. split; [exact Hcur|].
           constructor; [exact Ec|constructor].
      * exists rest. split; [exact Hrest|]. split.
        -- rewrite <- Heq, <- app_assoc. reflexivity.
        -- split; [exact Hall|]. intros Hn. destruct (Hnone Hn). discriminate.
    + destruct inRun.
      * destruct (IH [c] false) as [rest [Hrest [Heq [Hall _]]]].
        -- constructor; [exact Ec|constructor].
        -- exists rest. split; [exact Hrest|]. split.
           ++ simpl. rewrite <- app_assoc. simpl in Heq. rewrite <- Heq. reflexivity.
           ++ split; [constructor; [exact Hcur|exact Hall]|discriminate].
      * destruct (IH (cur ++ [c]) false) as [rest [Hrest [Heq [Hall Hnone]]]].
        -- apply Forall_app. split; [exact Hcur|]. constructor; [exact Ec|constructor].
        -- exists rest. split; [exact Hrest|]. split.
           ++ rewrite <- Heq, <- app_assoc. reflexivity.
           ++ split; [exact Hall|]. intros Hn. destruct (Hnone Hn) as [_ Hr].
              split; [reflexivity|]. constructor; [exact Ec|exact Hr].
Qed.

Lemma matchSentences_unterminated (s : jsstring) (cur : jsstring) :
  unterminated s -> matchSentences s cur false = [].
Proof.
  intros H. revert cur. induction H as [|c r Hc _ IH]; intros cur; [reflexivity|].
  cbn [matchSentences]. rewrite Hc. apply IH.
Qed.

Lemma sentencesOf_nonempty (text : jsstring) : 0 < len (sentencesOf text).
Proof.
  unfold sentencesOf. destruct (matchSentences text [] false); unfold len; simpl; lia.
Qed.

Lemma sentenceLoop_stuck (sentences : list jsstring) (n : Z) (fuel : nat) :
  n <= 0 ->
  forall i count offset,
    i < len sentences ->
    sentenceLoop fuel sentences n i count offset = None.
Proof.
  intros Hn. induction fuel as [|fuel IH]; intros i count offset Hi; simpl;
    (replace (i <? len sentences) with true by (symmetry; apply Z.ltb_lt; exact Hi));
    [reflexivity|].
  rewrite IH by lia. reflexivity.
Qed.

Lemma sentenceLoop_returns (sentences : list jsstring) (n : Z) (fuel : nat) :
  1 <= n ->
  forall i count offset,
    0 <= i < len sentences + n ->
    i = count * n ->
    (Z.to_nat (len sentences - i) <= fuel)%nat ->
    exists chunks,
      sentenceLoop fuel sentences n i count offset = Some chunks
      /\ chained count offset chunks
      /\ len chunks = (len sentences - i + n - 1) / n
      /\ Forall (fun c =>
                   content c
                   = trim (join (slice sentences (index c * n) (index c * n + n))
                             [32%N]))
           chunks.
Proof.
  intros Hn. induction fuel as [|fuel IH]; intros i count offset Hi Hcount Hfuel.
  - simpl. replace (i <? len sentences) with false
      by (symmetry; apply Z.ltb_ge; lia).
    exists []. split; [reflexivity|]. split; [exact I|]. split; [|constructor].
    symmetry. apply Z.div_small. lia.
  - simpl. destruct (i <? len sentences) eqn:E.
    + apply Z.ltb_lt in E.
      destruct (IH (i + n) (count + 1)
                  (offset + (len (trim (join (slice sentences i (i + n)) [32%N])) + 1)))
        as [chunks [Hrun [Hch [Hlen Hall]]]];
        [unfold len in *; lia|lia|unfold len in *; lia|].
      rewrite Hrun. eexists. split; [reflexivity|]. split; [|split].
      * simpl. repeat split.
        replace (offset + len (trim (join (slice sentences i (i + n)) [32%N])) + 1)
          with (offset + (len (trim (join (slice sentences i (i + n)) [32%N])) + 1))
          by lia.
        exact Hch.
      * match goal with |- len (?c :: chunks) = _ =>
          replace (len (c :: chunks)) with (len chunks + 1)
            by (unfold len; simpl length; lia) end.
        rewrite Hlen.
        replace (len sentences - i + n - 1)
          with (len sentences - (i + n) + n - 1 + 1 * n) by lia.
        rewrite Z.div_add by lia. lia.
      * constructor; [|exact Hall]. cbn [content index]. rewrite <- Hcount.
        reflexivity.
    + apply Z.ltb_ge in E.
      exists []. split; [reflexivity|]. split; [exact I|]. split; [|constructor].
      symmetry. apply Z.div_small. lia.
Qed.

End SentenceFacts.

(** X17. The sentences of [chunkBySentences] are the text cut behind each
    run of terminators; what follows the last terminator is in no sentence.
    A text without a terminator is its one sentence. *)
Theorem sentencesOf_drops_the_tail (text : jsstring) :
  (unterminated text /\ Sentences.sentencesOf text = [text])
  \/ (exists rest,
        text = concat (Sentences.sentencesOf text) ++ rest
        /\ unterminated rest
        /\ Forall sentence (Sentences.sentencesOf text)
        /\ Sentences.sentencesOf text <> []).
Proof.
  unfold Sentences.sentencesOf.
  destruct (matchSentences_covers text [] false) as [rest [Hrest [Heq [Hall Hnone]]]];
    [constructor|].
  destruct (Sentences.matchSentences text [] false) as [|m ms] eqn:E.
  - left. split; [apply Hnone; reflexivity|reflexivity].
  - right. exists rest. split; [exact Heq|]. split; [exact Hrest|].
    split; [exact Hall|discriminate].
Qed.

(** X18. [chunkBySentences] with [sentencesPerChunk] at least 1 returns:
    the number of chunks is the number of sentences over
    [sentencesPerChunk], rounded up; the chunks are numbered from 0; the
    first starts at offset 0, each ends its own length behind its start and
    the next starts one code unit further; each is the trimmed join of
    the [sentencesPerChunk] sentences from the one at [index *
    sentencesPerChunk] on, or of those that are left. *)
Theorem chunkBySentences_returns (text : jsstring) (n : Z) (fuel : nat) :
  1 <= n ->
  (length (Sentences.sentencesOf text) <= fuel)%nat ->
  exists chunks,
    Sentences.chunkBySentences fuel text (Some n) = Some chunks
    /\ chained 0 0 chunks
    /\ len chunks = (len (Sentences.sentencesOf text) + n - 1) / n
    /\ Forall (fun c =>
                 Chunking.content c
                 = trim (join (slice (Sentences.sentencesOf text)
                                 (Chunking.index c * n) (Chunking.index c * n + n))
                           [32%N]))
         chunks.
Proof.
  intros Hn Hfuel. unfold Sentences.chunkBySentences.
  destruct (sentenceLoop_returns (Sentences.sentencesOf text) n fuel Hn 0 0 0)
    as [chunks [Hrun [Hch [Hlen Hall]]]].
  - pose proof (sentencesOf_nonempty text). lia.
  - reflexivity.
  - unfold len. lia.
  - exists chunks. rewrite Z.sub_0_r in Hlen. repeat split; assumption.
Qed.

(** X18, on the six sentences of the unit test, two to a chunk: three
    chunks. *)
Lemma chunkBySentences_returns_witness :
  exists chunks,
    Sentences.chunkBySentences 6
      (lit "Sentence one. Sentence two. Sentence three. Sentence four. Sentence five. Sentence six.")
      (Some 2) = Some chunks
    /\ len chunks = 3.
Proof.
  destruct (chunkBySentences_returns
              (lit "Sentence one. Sentence two. Sentence three. Sentence four. Sentence five. Sentence six.")
              2 6) as [chunks [Hrun [_ [Hlen _]]]].
  - lia.
  - vm_compute. lia.
  - exists chunks. split; [exact Hrun|]. rewrite Hlen. reflexivity.
Defined.

(** X19. With [sentencesPerChunk] zero or negative [chunkBySentences]
    never returns, whatever the text: the loop index does not get past the
    first sentence. *)
Theorem chunkBySentences_never_returns (text : jsstring) (n : Z) :
  n <= 0 ->
  forall fuel, Sentences.chunkBySentences fuel text (Some n) = None.
Proof.
  intros Hn fuel. unfold Sentences.chunkBySentences.
  apply sentenceLoop_stuck; [exact Hn|apply sentencesOf_nonempty].
Qed.

(** X19, on the empty text with no sentence to a chunk. *)
Lemma chunkBySentences_never_returns_witness :
  Sentences.chunkBySentences 1000 [] (Some 0) = None.
Proof.
  apply (chunkBySentences_never_returns [] 0). lia.
Defined.

(** ** The token counter: budgets *)

Section BudgetFacts.
Import Tokenization.

Lemma extra_nonneg (w : jsstring) : 0 <= extra w.
Proof.
  unfold extra. destruct (len w >? 10); [|lia].
  apply Z.div_pos; [apply len_nonneg|lia].
Qed.

Lemma extra_mono (a b : jsstring) :
  (length a <= length b)%nat -> extra a <= extra b.
Proof.
  intros H. unfold extra, len.
  destruct (Z.of_nat (length a) >? 10) eqn:Ea;
    destruct (Z.of_nat (length b) >? 10) eqn:Eb;
    rewrite Z.gtb_ltb in Ea, Eb.
  - apply Z.div_le_mono; lia.
  - apply Z.ltb_lt in Ea. apply Z.ltb_ge in Eb. lia.
  - apply Z.div_pos; lia.
  - lia.
Qed.

Lemma weight_nonneg (words : list jsstring) : 0 <= weight words.
Proof.
  induction words as [|w words IH]; cbn [weight]; [lia|].
  pose proof (extra_nonneg w). lia.
Qed.

Lemma fold_left_extra (words : list jsstring) (acc : Z) :
  fold_left (fun acc word => if len word >? 10 then acc + len word / 5 else acc)
    words acc
  = acc + fold_right (fun w s => extra w + s) 0 words.
Proof.
  revert acc. induction words as [|w words IH]; intros acc; simpl; [lia|].
  rewrite IH. unfold extra. destruct (len w >? 10); lia.
Qed.

Lemma tokens2_weight (text : jsstring) :
  tokens2 text = weight (splitWs text) + len (filter isPunctuation text).
Proof.
  unfold tokens2. rewrite fold_left_extra.
  generalize (splitWs text). intros words.
  assert (H : 2 * len words + 2 * (0 + fold_right (fun w s => extra w + s) 0 words)
              = weight words).
  { induction words as [|w words IH]; [reflexivity|].
    cbn [fold_right weight]. unfold len in *. cbn [length].
    rewrite Nat2Z.inj_succ. lia. }
  lia.
Qed.

Lemma splitWs_go_cons (s : jsstring) (inWs : bool) :
  exists h t, splitWs_go s inWs = h :: t.
Proof.
  revert inWs. induction s as [|c r IH]; intros inWs; simpl.
  - eexists. eexists. reflexivity.
  - destruct (isWhiteSpace c).
    + destruct inWs; [apply IH|eexists; eexists; reflexivity].
    + destruct (IH false) as [h [t ->]]. eexists. eexists. reflexivity.
Qed.

Lemma splitWs_go_prefix (s : jsstring) :
  forall (n : nat) (inWs : bool),
  exists hp tp hs ts,
    splitWs_go (firstn n s) inWs = hp :: tp
    /\ splitWs_go s inWs = hs :: ts
    /\ (length hp <= length hs)%nat
    /\ weight tp <= weight ts.
Proof.
  induction s as [|c r IH]; intros n inWs.
  - rewrite firstn_nil. cbn [splitWs_go]. exists [], [], [], [].
    repeat split; cbn [length weight]; lia.
  - destruct n as [|n].
    + destruct (splitWs_go_cons (c :: r) inWs) as [hs [ts Hs]].
      exists [], [], hs, ts. rewrite Hs. cbn [firstn splitWs_go].
      repeat split; [cbn [length]; lia|]. apply weight_nonneg.
    + cbn [firstn splitWs_go]. destruct (IH n true) as [hp1 [tp1 [hs1 [ts1 [Hp1 [Hs1 [Hh1 Ht1]]]]]]].
      destruct (IH n false) as [hp0 [tp0 [hs0 [ts0 [Hp0 [Hs0 [Hh0 Ht0]]]]]]].
      destruct (isWhiteSpace c).
      * destruct inWs.
        -- exists hp1, tp1, hs1, ts1. repeat split; assumption.
        -- exists [], (hp1 :: tp1), [], (hs1 :: ts1). rewrite Hp1, Hs1.
           repeat split; [lia|]. cbn [weight].
           pose proof (extra_mono hp1 hs1 Hh1). lia.
      * rewrite Hp0, Hs0. exists (c :: hp0), tp0, (c :: hs0), ts0.
        repeat split; [cbn [length]; lia|exact Ht0].
Qed.

Lemma filter_firstn_length (A : Type) (f : A -> bool) (n : nat) (l : list A) :
  (length (filter f (firstn n l)) <= length (filter f l))%nat.
Proof.
  revert n. induction l as [|x l IH]; intros n.
  - rewrite firstn_nil. simpl. lia.
  - destruct n as [|n]; simpl; [lia|].
    specialize (IH n). destruct (f x); simpl; lia.
Qed.

Lemma tokens2_firstn (n : nat) (s : jsstring) :
  tokens2 (firstn n s) <= tokens2 s.
Proof.
  rewrite !tokens2_weight. unfold splitWs.
  destruct (splitWs_go_prefix s n false) as [hp [tp [hs [ts [-> [-> [Hh Ht]]]]]]].
  pose proof (filter_firstn_length _ isPunctuation n s) as Hf.
  pose proof (extra_mono hp hs Hh). cbn [weight]. unfold len. lia.
Qed.

Lemma weight_inWs (s : jsstring) :
  weight (splitWs_go s false) <= 2 + weight (splitWs_go s true).
Proof.
  destruct s as [|c r]; cbn [splitWs_go]; [cbn [weight]; lia|].
  destruct (isWhiteSpace c).
  - cbn [weight]. change (extra []) with 0. lia.
  - pose proof (weight_nonneg
                  match splitWs_go r false with
                  | [] => [[c]]
                  | p :: ps => (c :: p) :: ps
                  end). lia.
Qed.

Lemma tokens2_trimStart (s : jsstring) : tokens2 (trimStart s) <= tokens2 s.
Proof.
  induction s as [|c r IH]; [simpl; lia|].
  simpl trimStart. destruct (isWhiteSpace c) eqn:Ec; [|lia].
  eapply Z.le_trans; [exact IH|].
  rewrite !tokens2_weight. unfold splitWs. cbn [splitWs_go]. rewrite Ec.
  pose proof (weight_inWs r) as Hw.
  assert (Hf : len (filter isPunctuation r) <= len (filter isPunctuation (c :: r))).
  { cbn [filter]. destruct (isPunctuation c); unfold len; cbn [length]; lia. }
  cbn [weight]. change (extra []) with 0. lia.
Qed.

Lemma trimStart_suffix (s : jsstring) : exists k, trimStart s = skipn k s.
Proof.
  induction s as [|c r [k IH]]; [exists 0%nat; reflexivity|].
  simpl. destruct (isWhiteSpace c); [exists (S k); exact IH|exists 0%nat; reflexivity].
Qed.

Lemma trimEnd_prefix (s : jsstring) : exists k, trimEnd s = firstn k s.
Proof.
  unfold trimEnd. destruct (trimStart_suffix (rev s)) as [k ->].
  rewrite skipn_rev, rev_involutive. eexists. reflexivity.
Qed.

Lemma tokens2_trim (s : jsstring) : tokens2 (trim s) <= tokens2 s.
Proof.
  unfold trim. destruct (trimEnd_prefix (trimStart s)) as [k ->].
  eapply Z.le_trans; [apply tokens2_firstn|apply tokens2_trimStart].
Qed.

Lemma count_mono (a b : jsstring) : tokens2 a <= tokens2 b -> count a <= count b.
Proof. intros H. unfold count. apply Z.div_le_mono; lia. Qed.

Lemma count_slice_prefix (s : jsstring) (k : Z) :
  0 <= k -> count (slice s 0 k) <= count s.
Proof.
  intros Hk. rewrite slice_prefix by exact Hk. apply count_mono, tokens2_firstn.
Qed.

Lemma count_positive (text : jsstring) : 1 <= count text.
Proof.
  unfold count. rewrite tokens2_weight. unfold splitWs.
  destruct (splitWs_go_cons text false) as [h [t ->]].
  cbn [weight]. pose proof (extra_nonneg h). pose proof (weight_nonneg t).
  pose proof (len_nonneg _ (filter isPunctuation text)).
  apply Z.div_le_lower_bound; lia.
Qed.

(** The answer of the binary search is the [low] it started from, or a
    prefix length within the budget. *)
Lemma searchLoop_within (text : jsstring) (maxTokens : Z) (low high : nat) :
  searchLoop text maxTokens low high = low
  \/ count (slice text 0 (Z.of_nat (searchLoop text maxTokens low high)))
     <= maxTokens.
Proof.
  apply (searchLoop_elim
           (fun text maxTokens low high r =>
              r = low \/ count (slice text 0 (Z.of_nat r)) <= maxTokens)).
  - clear. intros text maxTokens low high _ IHup IHdown _.
    destruct (count (slice text 0 (Z.of_nat ((low + high) / 2))) <=? maxTokens)
      eqn:E.
    + apply Z.leb_le in E. destruct IHup as [->|H]; right; assumption.
    + exact IHdown.
  - clear. intros. left. reflexivity.
Qed.

Lemma startsWithWs_trimStart (s : jsstring) :
  startsWithWs s = false -> trimStart s = s.
Proof. destruct s as [|c r]; simpl; [reflexivity|]. intros ->. reflexivity. Qed.

Lemma trim_idempotent (s : jsstring) : trim (trim s) = trim s.
Proof.
  unfold trim at 1. rewrite (startsWithWs_trimStart _ (trim_no_leading_ws s)).
  unfold trimEnd. pose proof (trim_no_trailing_ws s) as H.
  unfold endsWithWs in H. rewrite (startsWithWs_trimStart _ H).
  apply rev_involutive.
Qed.

End BudgetFacts.

Section TruncateFacts.
Import Tokenization.

Lemma lastIndexOf_of_empty (c : N) (pat : jsstring) :
  lastIndexOf [] (c :: pat) = None.
Proof. reflexivity. Qed.

Lemma truncate_over_budget (text : jsstring) (maxTokens : Z) :
  maxTokens < count text ->
  truncate text maxTokens = []
  \/ count (truncate text maxTokens) <= maxTokens.
Proof.
  intros Hover. unfold truncate.
  replace (count text <=? maxTokens) with false
    by (symmetry; apply Z.leb_gt; exact Hover).
  cbv zeta.
  destruct (searchLoop_within text maxTokens 0 (length text)) as [H0|Hin].
  - left. rewrite H0. change (Z.of_nat 0) with 0. rewrite slice_0_0. reflexivity.
  - right. set (low := searchLoop text maxTokens 0 (length text)) in *.
    eapply Z.le_trans; [apply count_mono, tokens2_trim|].
    destruct (lastIndexOf (slice text 0 (Z.of_nat low)) [46; 32]%N) as [i|];
      [|exact Hin].
    destruct (pastSeventyPercent (Some i) low); [|exact Hin].
    eapply Z.le_trans; [apply count_slice_prefix; lia|exact Hin].
Qed.

Lemma truncate_without_budget (text : jsstring) (maxTokens : Z) :
  maxTokens < 1 -> truncate text maxTokens = [].
Proof.
  intros Hmax. pose proof (count_positive text) as Hc.
  destruct (truncate_over_budget text maxTokens) as [H|H]; [lia|exact H|].
  pose proof (count_positive (truncate text maxTokens)). lia.
Qed.

Lemma splitLoop_within (maxTokens : Z) (fuel : nat) :
  1 <= maxTokens ->
  forall remaining parts out,
    Forall (fun p => count p <= maxTokens) parts ->
    splitLoop fuel maxTokens remaining parts = Some out ->
    Forall (fun p => count p <= maxTokens) out.
Proof.
  intros Hmax. induction fuel as [|fuel IH]; intros remaining parts out Hparts;
    rewrite splitLoop_unfold; destruct (len remaining >? 0);
    try (intros H; injection H as <-; exact Hparts);
    destruct (count remaining <=? maxTokens) eqn:E;
    try (intros H; injection H as <-; apply Forall_app; split;
         [exact Hparts|constructor; [apply Z.leb_le, E|constructor]]);
    [discriminate|].
  apply IH. apply Forall_app. split; [exact Hparts|].
  constructor; [|constructor]. apply Z.leb_gt in E.
  destruct (truncate_over_budget remaining maxTokens) as [-> | H];
    [lia|change (count []) with 1; lia|exact H].
Qed.

Lemma splitLoop_stuck (maxTokens : Z) (text : jsstring) (fuel : nat) :
  maxTokens < 1 -> trim text = text -> truthy text = true ->
  forall parts, splitLoop fuel maxTokens text parts = None.
Proof.
  intros Hmax Htrim Hne. pose proof (count_positive text) as Hc.
  induction fuel as [|fuel IH]; intros parts; rewrite splitLoop_unfold;
    (replace (len text >? 0) with true
       by (destruct text; [discriminate|reflexivity]));
    (replace (count text <=? maxTokens) with false
       by (symmetry; apply Z.leb_gt; lia));
    [reflexivity|].
  rewrite (truncate_without_budget text maxTokens Hmax).
  change (len (@nil N)) with 0. rewrite sliceFrom_0, Htrim. apply IH.
Qed.

End TruncateFacts.

(** X20. The token count is at least 1, also of the empty string; it does
    not go up when the text is cut to a prefix, and not when it is
    trimmed. *)
Theorem count_monotone (text : jsstring) (k : Z) :
  0 <= k ->
  1 <= Tokenization.count text
  /\ Tokenization.count (slice text 0 k) <= Tokenization.count text
  /\ Tokenization.count (trim text) <= Tokenization.count text.
Proof.
  intros Hk. split; [apply count_positive|]. split.
  - apply count_slice_prefix, Hk.
  - apply count_mono, tokens2_trim.
Qed.

(** X20, on the first five code units of ["hello, world"]. *)
Lemma count_monotone_witness :
  1 <= Tokenization.count (lit "hello, world")
  /\ Tokenization.count (slice (lit "hello, world") 0 5)
     <= Tokenization.count (lit "hello, world")
  /\ Tokenization.count (trim (lit "hello, world"))
     <= Tokenization.count (lit "hello, world").
Proof.
  apply (count_monotone (lit "hello, world") 5). lia.
Defined.

(** X21. With a budget of at least one token, what [truncate] returns
    counts no more tokens than the budget. *)
Theorem truncate_within_budget (text : jsstring) (maxTokens : Z) :
  1 <= maxTokens ->
  Tokenization.count (Tokenization.truncate text maxTokens) <= maxTokens.
Proof.
  intros Hmax.
  destruct (Z_lt_le_dec maxTokens (Tokenization.count text)) as [Hover|Hin].
  - destruct (truncate_over_budget text maxTokens Hover) as [-> | H];
      [change (Tokenization.count []) with 1; lia|exact H].
  - unfold Tokenization.truncate.
    replace (Tokenization.count text <=? maxTokens) with true
      by (symmetry; apply Z.leb_le; exact Hin).
    exact Hin.
Qed.

(** X21, on a sentence of nine words with a budget of four tokens. *)
Lemma truncate_within_budget_witness :
  Tokenization.count
    (Tokenization.truncate (lit "one two three four five six seven eight nine") 4)
  <= 4.
Proof.
  apply (truncate_within_budget
           (lit "one two three four five six seven eight nine") 4). lia.
Defined.

(** X22. With a budget of at least one token, whenever [split] returns,
    every part counts no more tokens than the budget. *)
Theorem split_parts_within_budget (fuel : nat) (text : jsstring) (maxTokens : Z)
    (parts : list jsstring) :
  1 <= maxTokens ->
  Tokenization.split fuel text maxTokens = Some parts ->
  Forall (fun p => Tokenization.count p <= maxTokens) parts.
Proof.
  intros Hmax. unfold Tokenization.split.
  apply splitLoop_within; [exact Hmax|constructor].
Qed.

(** X22, on a text of thirty words with a budget of ten tokens. *)
Lemma split_parts_within_budget_witness :
  exists parts,
    Tokenization.split 10
      (repeat_str (lit "lorem ipsum dolor ") 10) 10 = Some parts
    /\ Forall (fun p => Tokenization.count p <= 10) parts.
Proof.
  destruct (Tokenization.split 10 (repeat_str (lit "lorem ipsum dolor ") 10) 10)
    as [parts|] eqn:E.
  - exists parts. split; [reflexivity|].
    apply (split_parts_within_budget 10
             (repeat_str (lit "lorem ipsum dolor ") 10) 10 parts);
      [lia|exact E].
  - vm_compute in E. discriminate.
Defined.

(** X23. With a budget below one token [truncate] returns the empty
    string, and [split] never returns on a text that is not white space
    alone: after the first round the remainder is the trimmed text, for
    good. *)
Theorem split_without_budget_never_returns (text : jsstring) (maxTokens : Z) :
  maxTokens < 1 ->
  Tokenization.truncate text maxTokens = []
  /\ (truthy (trim text) = true ->
      forall fuel, Tokenization.split fuel text maxTokens = None).
Proof.
  intros Hmax. split; [apply truncate_without_budget, Hmax|].
  intros Hne fuel. unfold Tokenization.split. generalize (@nil jsstring) as parts.
  intros parts. pose proof (count_positive text) as Hc.
  rewrite splitLoop_unfold.
  replace (len text >? 0) with true
    by (destruct text; [discriminate|reflexivity]).
  replace (Tokenization.count text <=? maxTokens) with false
    by (symmetry; apply Z.leb_gt; lia).
  destruct fuel as [|fuel]; [reflexivity|].
  rewrite (truncate_without_budget text maxTokens Hmax).
  change (len (@nil N)) with 0. rewrite sliceFrom_0.
  apply splitLoop_stuck; [exact Hmax|apply trim_idempotent|exact Hne].
Qed.

(** X23, on ["hello world"] with a budget of 0. *)
Lemma split_without_budget_never_returns_witness :
  Tokenization.split 1000 (lit "hello world") 0 = None.
Proof.
  apply (proj2 (split_without_budget_never_returns (lit "hello world") 0
                  ltac:(lia)) eq_refl).
Defined.

(** ** The character counter *)

Section SimpleFacts.
Import SimpleTokenCounter.

Lemma binary_round_aux_sign (sx : bool) (m e : Z) (l : location) :
  match binary_round_aux prec emax sx m e l with
  | S754_zero s | S754_infinity s | S754_finite s _ _ => s = sx
  | S754_nan => True
  end.
Proof.
  unfold binary_round_aux.
  destruct (shr_fexp prec emax m e l) as [mrs' e'].
  destruct (shr_fexp prec emax
              (round_nearest_even (shr_m mrs') (loc_of_shr_record mrs')) e'
              loc_Exact) as [mrs'' e''].
  destruct (shr_m mrs''); [reflexivity| |exact I].
  destruct (e'' <=? emax - prec); reflexivity.
Qed.

Lemma of_uint63_notNegative (n : int) :
  notNegative (Prim2SF (PrimFloat.of_uint63 n)).
Proof.
  rewrite of_uint63_spec. pose proof (Uint63.to_Z_bounded n) as Hn.
  destruct (Uint63.to_Z n) as [|p|p]; [reflexivity| |lia].
  unfold binary_normalize, binary_round.
  destruct (shl_align p 0 (fexp prec emax (Z.pos (digits2_pos p) + 0))) as [mz ez].
  pose proof (binary_round_aux_sign false (Z.pos mz) ez loc_Exact) as H.
  unfold notNegative.
  destruct (binary_round_aux prec emax false (Z.pos mz) ez loc_Exact); exact H.
Qed.

Lemma mul_notNegative (x y : float) (my : positive) (ey : Z) :
  notNegative (Prim2SF x) ->
  Prim2SF y = S754_finite false my ey ->
  notNegative (Prim2SF (x * y)).
Proof.
  intros Hx Hy. rewrite FloatAxioms.mul_spec, Hy. unfold SF64mul, SFmul.
  destruct (Prim2SF x) as [s|s| |s mx ex]; simpl in Hx; subst; try reflexivity.
  pose proof (binary_round_aux_sign (xorb false false) (Z.pos (mx * my))
                (ex + ey) loc_Exact) as H.
  unfold notNegative.
  destruct (binary_round_aux prec emax (xorb false false) (Z.pos (mx * my))
              (ex + ey) loc_Exact); exact H.
Qed.

Lemma ltb_notNegative (x z : float) :
  notNegative (Prim2SF x) ->
  Prim2SF z = S754_zero false
  \/ (exists m e, Prim2SF z = S754_finite true m e) ->
  PrimFloat.ltb x z = false.
Proof.
  intros Hx Hz. rewrite FloatAxioms.ltb_spec. unfold SFltb.
  destruct Hz as [-> | [m [e ->]]];
    destruct (Prim2SF x) as [s|s| |s mx ex]; simpl in Hx; subst; reflexivity.
Qed.

(** For [maxChars] that is not negative, no occurrence and an occurrence
    at index 0 are not beyond [maxChars * factor]. *)
Lemma beyond_start (index : option nat) (maxChars : Z) (factor : float)
    (m : positive) (e : Z) :
  0 <= maxChars ->
  Prim2SF factor = S754_finite false m e ->
  beyond index maxChars factor = true ->
  exists i, index = Some (S i).
Proof.
  intros Hmax Hf. unfold beyond.
  assert (Hn : notNegative (Prim2SF (floatOfZ maxChars * factor))).
  { eapply mul_notNegative; [|exact Hf]. unfold floatOfZ.
    replace (maxChars <? 0) with false by (symmetry; apply Z.ltb_ge; exact Hmax).
    apply of_uint63_notNegative. }
  destruct index as [[|i]|]; [| intros _; exists i; reflexivity |].
  - rewrite (ltb_notNegative _ _ Hn); [discriminate|]. left. reflexivity.
  - rewrite (ltb_notNegative _ _ Hn); [discriminate|]. right.
    eexists. eexists. vm_compute. reflexivity.
Qed.

Lemma startsWith_length (pat s : jsstring) :
  startsWith pat s = true -> (length pat <= length s)%nat.
Proof.
  revert s. induction pat as [|p pat IH]; intros s; simpl; [lia|].
  destruct s as [|c s]; [discriminate|]. intros H.
  apply andb_true_iff in H. destruct H as [_ H]. specialize (IH _ H). simpl. lia.
Qed.

Lemma lastIndexOf_go_bound (pat s : jsstring) :
  forall (i : nat) (best : option nat) (j : nat),
    lastIndexOf_go pat s i best = Some j ->
    best = Some j \/ (j + length pat <= i + length s)%nat.
Proof.
  induction s as [|c r IH]; intros i best j; simpl.
  - destruct pat; simpl; [|auto]. intros H. injection H as <-. right. simpl. lia.
  - intros H. apply IH in H. destruct H as [H|H]; [|right; lia].
    destruct (startsWith pat (c :: r)) eqn:E; [|left; exact H].
    injection H as <-. right. apply startsWith_length in E. simpl in E. lia.
Qed.

Lemma lastIndexOf_bound (s pat : jsstring) (j : nat) :
  lastIndexOf s pat = Some j -> (j + length pat <= length s)%nat.
Proof.
  intros H. apply lastIndexOf_go_bound in H. destruct H as [H|H];
    [discriminate|lia].
Qed.

Lemma splitPoint_bounds (remaining : jsstring) (maxChars : Z) :
  1 <= maxChars -> 1 <= splitPoint remaining maxChars <= maxChars.
Proof.
  intros Hmax. unfold splitPoint.
  pose proof (slice_window_length _ remaining 0 maxChars (Z.le_refl 0)
                ltac:(lia)) as Hw.
  rewrite Z.add_0_l in Hw. unfold len in Hw.
  destruct (beyond (lastIndexOf (slice remaining 0 maxChars) [46%N; 32%N])
              maxChars 0.5) eqn:E1.
  - destruct (beyond_start _ maxChars 0.5%float 4503599627370496 (-53)
                ltac:(lia) eq_refl E1) as [i Hi].
    rewrite Hi. apply lastIndexOf_bound in Hi. simpl in Hi. simpl indexOr. lia.
  - destruct (beyond (lastIndexOf (slice remaining 0 maxChars) [32%N])
                maxChars seventy) eqn:E2; [|lia].
    destruct (beyond_start _ maxChars seventy 6305039478318694 (-53)
                ltac:(lia) eq_refl E2) as [i Hi].
    rewrite Hi. apply lastIndexOf_bound in Hi. simpl in Hi. simpl indexOr. lia.
Qed.

Lemma sliceFrom_length (A : Type) (l : list A) (k : Z) :
  0 <= k -> length (sliceFrom l k) = (length l - Z.to_nat k)%nat.
Proof.
  intros Hk. unfold sliceFrom, relIndex.
  replace (k <? 0) with false by (symmetry; apply Z.ltb_ge; exact Hk).
  rewrite length_skipn. lia.
Qed.

Lemma simple_splitLoop_unfold (fuel : nat) (maxChars : Z) (remaining : jsstring)
    (parts : list jsstring) :
  splitLoop fuel maxChars remaining parts =
  if len remaining >? 0 then
    if len remaining <=? maxChars then Some (parts ++ [remaining])
    else
      match fuel with
      | O => None
      | S fuel' =>
          splitLoop fuel' maxChars
            (trim (sliceFrom remaining (splitPoint remaining maxChars)))
            (parts ++ [trim (slice remaining 0 (splitPoint remaining maxChars))])
      end
  else Some parts.
Proof. destruct fuel; reflexivity. Qed.

Lemma simple_splitLoop_returns (maxChars : Z) (fuel : nat) :
  1 <= maxChars ->
  forall remaining parts,
    (length remaining <= fuel)%nat ->
    Forall (fun p => len p <= maxChars) parts ->
    exists out,
      splitLoop fuel maxChars remaining parts = Some out
      /\ Forall (fun p => len p <= maxChars) out.
Proof.
  intros Hmax. induction fuel as [|fuel IH]; intros remaining parts Hfuel Hparts;
    rewrite simple_splitLoop_unfold.
  - destruct remaining; [|simpl in Hfuel; lia].
    exists parts. split; [reflexivity|exact Hparts].
  - destruct (len remaining >? 0) eqn:E0;
      [|exists parts; split; [reflexivity|exact Hparts]].
    destruct (len remaining <=? maxChars) eqn:E1.
    + eexists. split; [reflexivity|]. apply Forall_app. split; [exact Hparts|].
      constructor; [apply Z.leb_le, E1|constructor].
    + pose proof (splitPoint_bounds remaining maxChars Hmax) as Hsp.
      apply Z.leb_gt in E1. apply IH.
      * pose proof (trim_length (sliceFrom remaining (splitPoint remaining maxChars))).
        rewrite (sliceFrom_length _ remaining) in H by lia.
        unfold len in E1. lia.
      * apply Forall_app. split; [exact Hparts|]. constructor; [|constructor].
        pose proof (trim_length (slice remaining 0 (splitPoint remaining maxChars))).
        pose proof (slice_window_length _ remaining 0
                      (splitPoint remaining maxChars) (Z.le_refl 0) ltac:(lia)) as Hw.
        rewrite Z.add_0_l in Hw. unfold len in *. lia.
Qed.

Lemma simple_splitLoop_stuck (text : jsstring) (fuel : nat) :
  trim text = text -> truthy text = true ->
  forall parts, splitLoop fuel 0 text parts = None.
Proof.
  intros Htrim Hne.
  assert (Hsp : splitPoint text 0 = 0).
  { unfold splitPoint. rewrite slice_0_0. reflexivity. }
  induction fuel as [|fuel IH]; intros parts; rewrite simple_splitLoop_unfold;
    (replace (len text >? 0) with true
       by (destruct text; [discriminate|reflexivity]));
    (replace (len text <=? 0) with false
       by (destruct text; [discriminate|reflexivity]));
    [reflexivity|].
  rewrite Hsp, sliceFrom_0, Htrim. apply IH.
Qed.

End SimpleFacts.

(** X24. The character counter's [split] returns for every budget of at
    least one token, and no part counts more tokens than the budget. *)
Theorem simple_split_returns (charsPerToken : Z) (text : jsstring)
    (maxTokens : Z) (fuel : nat) :
  1 <= charsPerToken ->
  1 <= maxTokens ->
  maxTokens * charsPerToken < 2 ^ 53 ->
  (length text <= fuel)%nat ->
  exists parts,
    SimpleTokenCounter.split charsPerToken fuel text maxTokens = Some parts
    /\ Forall (fun p => SimpleTokenCounter.count charsPerToken p <= maxTokens)
         parts.
Proof.
  intros Hc Hm _ Hfuel. unfold SimpleTokenCounter.split.
  destruct (simple_splitLoop_returns (maxTokens * charsPerToken) fuel
              ltac:(nia) text [] Hfuel (Forall_nil _)) as [out [Hrun Hall]].
  exists out. split; [exact Hrun|].
  eapply Forall_impl; [|exact Hall]. simpl. intros p Hp.
  unfold SimpleTokenCounter.count.
  apply Z.lt_succ_r, Z.div_lt_upper_bound; nia.
Qed.

(** X24, on a text of eight words with a budget of three tokens of four
    code units. *)
Lemma simple_split_returns_witness :
  exists parts,
    SimpleTokenCounter.split 4 40 (lit "hello world. this is a test of the thing") 3
    = Some parts
    /\ Forall (fun p => SimpleTokenCounter.count 4 p <= 3) parts.
Proof.
  apply (simple_split_returns 4 (lit "hello world. this is a test of the thing")
           3 40); [lia|lia|reflexivity|simpl; lia].
Defined.

(** X25. The character counter's [truncate] returns at most
    [maxTokens * charsPerToken] code units and the three of the ellipsis:
    with four code units to a token the result can count one token more
    than the budget. *)
Theorem simple_truncate_length (charsPerToken : Z) (text : jsstring)
    (maxTokens : Z) :
  0 <= maxTokens * charsPerToken ->
  len (SimpleTokenCounter.truncate charsPerToken text maxTokens)
  <= maxTokens * charsPerToken + 3.
Proof.
  intros Hmax. unfold SimpleTokenCounter.truncate. cbv zeta.
  destruct (len text <=? maxTokens * charsPerToken) eqn:E;
    [apply Z.leb_le in E; lia|].
  pose proof (slice_window_length _ text 0 (maxTokens * charsPerToken)
                (Z.le_refl 0) Hmax) as Hw.
  rewrite Z.add_0_l in Hw.
  set (truncated := slice text 0 (maxTokens * charsPerToken)) in *.
  destruct (SimpleTokenCounter.beyond (lastIndexOf truncated [46%N; 32%N])
              (maxTokens * charsPerToken) SimpleTokenCounter.seventy) eqn:E1.
  - destruct (beyond_start _ _ SimpleTokenCounter.seventy 6305039478318694 (-53)
                Hmax eq_refl E1) as [i Hi].
    rewrite Hi. apply lastIndexOf_bound in Hi. simpl in Hi.
    pose proof (slice_window_length _ truncated 0
                  (SimpleTokenCounter.indexOr (Some (S i)) + 1)
                  (Z.le_refl 0) ltac:(simpl; lia)) as Hw'.
    rewrite Z.add_0_l in Hw'. simpl SimpleTokenCounter.indexOr in *.
    unfold len in *. lia.
  - destruct (SimpleTokenCounter.beyond (lastIndexOf truncated [32%N])
                (maxTokens * charsPerToken) SimpleTokenCounter.ninety) eqn:E2.
    + destruct (beyond_start _ _ SimpleTokenCounter.ninety 8106479329266893 (-53)
                  Hmax eq_refl E2) as [i Hi].
      rewrite Hi. apply lastIndexOf_bound in Hi. simpl in Hi.
      pose proof (slice_window_length _ truncated 0
                    (SimpleTokenCounter.indexOr (Some (S i)))
                    (Z.le_refl 0) ltac:(simpl; lia)) as Hw'.
      rewrite Z.add_0_l in Hw'. simpl SimpleTokenCounter.indexOr in *.
      rewrite len_app. change (len (lit "...")) with 3.
      unfold len in *. lia.
    + rewrite len_app. change (len (lit "...")) with 3. lia.
Qed.

(** X25, on nine letters with a budget of one token of four code units:
    seven code units come back, which count two tokens. *)
Lemma simple_truncate_length_witness :
  len (SimpleTokenCounter.truncate 4 (lit "aaaaaaaaa") 1) <= 1 * 4 + 3
  /\ SimpleTokenCounter.count 4 (SimpleTokenCounter.truncate 4 (lit "aaaaaaaaa") 1)
     = 2.
Proof.
  split; [|reflexivity].
  apply (simple_truncate_length 4 (lit "aaaaaaaaa") 1). lia.
Defined.

(** X26. With a budget of no tokens the character counter's [split] never
    returns on a text that is not white space alone: the split point is 0
    in every round. *)
Theorem simple_split_never_returns (charsPerToken : Z) (text : jsstring) :
  truthy (trim text) = true ->
  forall fuel, SimpleTokenCounter.split charsPerToken fuel text 0 = None.
Proof.
  intros Hne fuel. unfold SimpleTokenCounter.split. rewrite Z.mul_0_l.
  generalize (@nil jsstring) as parts. intros parts.
  rewrite simple_splitLoop_unfold.
  replace (len text >? 0) with true
    by (destruct text; [discriminate|reflexivity]).
  replace (len text <=? 0) with false
    by (destruct text; [discriminate|reflexivity]).
  destruct fuel as [|fuel]; [reflexivity|].
  replace (SimpleTokenCounter.splitPoint text 0) with 0
    by (unfold SimpleTokenCounter.splitPoint; rewrite slice_0_0; reflexivity).
  rewrite sliceFrom_0.
  apply simple_splitLoop_stuck; [apply trim_idempotent|exact Hne].
Qed.

(** X26, on ["hello world"]. *)
Lemma simple_split_never_returns_witness :
  SimpleTokenCounter.split 4 1000 (lit "hello world") 0 = None.
Proof.
  apply (simple_split_never_returns 4 (lit "hello world")). reflexivity.
Defined.

(** ** The local embedding *)

Section LocalFacts.
Import LocalEmbedding.

Lemma toInt32_range (z : Z) : - 2 ^ 31 <= toInt32 z < 2 ^ 31.
Proof.
  unfold toInt32. pose proof (Z.mod_pos_bound (z + 2 ^ 31) (2 ^ 32) ltac:(lia)).
  lia.
Qed.

Lemma toInt32_congruent (a b : Z) :
  (a - b) mod 2 ^ 32 = 0 -> toInt32 a = toInt32 b.
Proof.
  intros H. unfold toInt32. f_equal.
  apply Z.mod_divide in H; [|lia]. destruct H as [k Hk].
  replace (a + 2 ^ 31) with (b + 2 ^ 31 + k * 2 ^ 32) by lia.
  apply Z.mod_add. lia.
Qed.

Lemma toInt32_self (z : Z) : (toInt32 z - z) mod 2 ^ 32 = 0.
Proof.
  unfold toInt32.
  pose proof (Z.div_mod (z + 2 ^ 31) (2 ^ 32) ltac:(lia)) as H.
  replace ((z + 2 ^ 31) mod 2 ^ 32 - 2 ^ 31 - z)
    with (- ((z + 2 ^ 31) / 2 ^ 32) * 2 ^ 32) by lia.
  apply Z.mod_mul. lia.
Qed.

Lemma hashStep_polynomial (h p : Z) (c : N) :
  (h - p) mod 2 ^ 32 = 0 ->
  (hashStep h c - (31 * p + Z.of_N c)) mod 2 ^ 32 = 0.
Proof.
  intros H. unfold hashStep.
  pose proof (toInt32_self (toInt32 (h * 2 ^ 5) - h + Z.of_N c)) as H1.
  pose proof (toInt32_self (h * 2 ^ 5)) as H2.
  apply Z.mod_divide in H, H1, H2; try lia. apply Z.mod_divide; [lia|].
  destruct H as [k Hk], H1 as [k1 Hk1], H2 as [k2 Hk2].
  exists (k1 + k2 + 31 * k). lia.
Qed.

Lemma fold_hashStep_polynomial (str : jsstring) :
  forall h p,
    (h - p) mod 2 ^ 32 = 0 ->
    (fold_left hashStep str h
     - fold_left (fun h c => 31 * h + Z.of_N c) str p) mod 2 ^ 32 = 0.
Proof.
  induction str as [|c str IH]; intros h p H; simpl; [exact H|].
  apply IH, hashStep_polynomial, H.
Qed.

Lemma fold_hashStep_range (str : jsstring) (h : Z) :
  - 2 ^ 31 <= h < 2 ^ 31 ->
  - 2 ^ 31 <= fold_left hashStep str h < 2 ^ 31.
Proof.
  revert h. induction str as [|c str IH]; intros h H; simpl; [exact H|].
  apply IH. unfold hashStep. apply toInt32_range.
Qed.

Lemma bump_length (embedding : list float) (i : nat) :
  length (bump embedding i) = length embedding.
Proof.
  revert i. induction embedding as [|v rest IH]; intros i; [reflexivity|].
  destruct i; simpl; [reflexivity|]. rewrite IH. reflexivity.
Qed.

Lemma histogram_length (dimensions : nat) (tokens : list jsstring) :
  length (histogram dimensions tokens) = dimensions.
Proof.
  unfold histogram.
  assert (H : forall e, length
                (fold_left
                   (fun embedding token =>
                      bump embedding
                        (Z.to_nat (Z.rem (Z.abs (hashString token))
                                     (Z.of_nat dimensions))))
                   tokens e) = length e).
  { induction tokens as [|t tokens IH]; intros e; simpl; [reflexivity|].
    rewrite IH. apply bump_length. }
  rewrite H. apply repeat_length.
Qed.

Lemma sum_of_squares_zero (n : nat) :
  fold_left (fun sum val => sum + val * val)%float (repeat 0%float n) 0%float
  = 0%float.
Proof. induction n as [|n IH]; [reflexivity|exact IH]. Qed.

End LocalFacts.

(** X27. [hashString] is the polynomial of the code units in powers of
    31, taken to a signed 32-bit integer: the two differ by a multiple of
    [2^32], and the hash is within the 32-bit range. *)
Theorem hashString_polynomial (str : jsstring) :
  LocalEmbedding.hashString str = LocalEmbedding.toInt32 (polynomial str)
  /\ - 2 ^ 31 <= LocalEmbedding.hashString str < 2 ^ 31.
Proof.
  assert (Hr : - 2 ^ 31 <= LocalEmbedding.hashString str < 2 ^ 31)
    by (apply fold_hashStep_range; lia).
  split; [|exact Hr].
  pose proof (fold_hashStep_polynomial str 0 0 eq_refl) as H.
  fold (LocalEmbedding.hashString str) in H. fold (polynomial str) in H.
  pose proof (toInt32_congruent _ _ H) as Hc. rewrite <- Hc.
  unfold LocalEmbedding.toInt32.
  rewrite Z.mod_small by lia. lia.
Qed.

(** X28. [computeTFIDF] returns [dimensions] components whatever the
    tokens, so [add] takes the embedding in a store of that dimension; for
    no tokens it returns the zero vector, whose cosine similarity with
    every vector of that length is 0. *)
Theorem computeTFIDF_dimensions (dimensions : nat) (tokens : list jsstring)
    (s : VectorStore.Store) (name text : jsstring) (now : Z) (b : list float) :
  VectorStore.dimensions (VectorStore.config s) = Z.of_nat dimensions ->
  length b = dimensions ->
  len (LocalEmbedding.computeTFIDF dimensions tokens) = Z.of_nat dimensions
  /\ (exists s',
        VectorStore.add s
          {| VectorStore.n_id := name; VectorStore.n_content := text;
             VectorStore.n_embedding :=
               LocalEmbedding.computeTFIDF dimensions tokens;
             VectorStore.n_metadata := None |} now = Ok s')
  /\ LocalEmbedding.computeTFIDF dimensions [] = repeat 0%float dimensions
  /\ Embeddings.cosineSimilarity (LocalEmbedding.computeTFIDF dimensions []) b
     = Ok 0%float.
Proof.
  intros Hdim Hb.
  assert (Hlen : len (LocalEmbedding.computeTFIDF dimensions tokens)
                 = Z.of_nat dimensions).
  { unfold LocalEmbedding.computeTFIDF, len. cbv zeta.
    destruct (PrimFloat.ltb 0 _); rewrite ?length_map, histogram_length;
      reflexivity. }
  assert (Hzero : LocalEmbedding.computeTFIDF dimensions []
                  = repeat 0%float dimensions).
  { unfold LocalEmbedding.computeTFIDF, LocalEmbedding.histogram. simpl fold_left.
    cbv zeta. rewrite sum_of_squares_zero. reflexivity. }
  split; [exact Hlen|]. split; [|split; [exact Hzero|]].
  - unfold VectorStore.add. cbn [VectorStore.n_embedding].
    rewrite Hlen, Hdim, Z.eqb_refl. simpl negb. cbv iota. eexists. reflexivity.
  - rewrite Hzero. apply cosineSimilarity_zero_left, Hb.
Qed.

(** X28, on two tokens in four dimensions. *)
Lemma computeTFIDF_dimensions_witness :
  len (LocalEmbedding.computeTFIDF 4 [lit "hello"; lit "abc"]) = 4.
Proof.
  exact (proj1 (computeTFIDF_dimensions 4 [lit "hello"; lit "abc"]
                  (Sample.storeOf 4 None) (lit "doc1") (lit "hello abc") 1
                  [1; 0; 0; 0]%float eq_refl eq_refl)).
Defined.

(** ** The indexer *)

Section IndexerFacts.
Import Indexer.

Lemma lit_app (a b : string) : lit (a ++ b) = lit a ++ lit b.
Proof.
  unfold lit. induction a as [|c a IH]; [reflexivity|].
  simpl. f_equal. exact IH.
Qed.

Lemma digits_no_minus (d : Decimal.uint) :
  Forall (fun c => c <> 45%N) (lit (DecimalString.NilEmpty.string_of_uint d)).
Proof.
  induction d; simpl; constructor; try exact IHd; discriminate.
Qed.

Lemma decimal_no_minus (z : Z) :
  0 <= z -> Forall (fun c => c <> 45%N) (decimal z).
Proof.
  intros Hz. unfold decimal. destruct z as [|p|p]; [| |lia].
  - repeat constructor. discriminate.
  - simpl Z.to_int. simpl DecimalString.NilZero.string_of_int.
    unfold DecimalString.NilZero.string_of_uint.
    pose proof (DecimalPos.Unsigned.to_uint_nonnil p) as Hn.
    destruct (Pos.to_uint p) eqn:E; [contradiction| | | | | | | | | |];
      rewrite <- E; apply digits_no_minus.
Qed.

Lemma lit_injective (a b : string) : lit a = lit b -> a = b.
Proof.
  unfold lit. revert b. induction a as [|c a IH]; intros [|c' b]; simpl;
    try discriminate; [reflexivity|].
  intros H. injection H as Hc H. f_equal; [|apply IH, H].
  rewrite <- (ascii_N_embedding c), <- (ascii_N_embedding c'), Hc. reflexivity.
Qed.

Lemma decimal_injective (a b : Z) : decimal a = decimal b -> a = b.
Proof.
  unfold decimal. intros H. apply lit_injective in H.
  assert (Hnn : forall z, Z.to_int z <> Decimal.Pos Decimal.Nil
                          /\ Z.to_int z <> Decimal.Neg Decimal.Nil).
  { intros [|p|p]; simpl; split; try discriminate;
      intros E; injection E as E;
      exact (DecimalPos.Unsigned.to_uint_nonnil p E). }
  apply (f_equal DecimalString.NilZero.int_of_string) in H.
  rewrite !DecimalString.NilZero.isi in H by apply Hnn.
  injection H as H. apply DecimalZ.to_int_inj, H.
Qed.

(** A string is cut at its last minus sign in one way only. *)
Lemma cut_at_last_minus (a a' b b' : jsstring) :
  Forall (fun c => c <> 45%N) b ->
  Forall (fun c => c <> 45%N) b' ->
  a ++ 45%N :: b = a' ++ 45%N :: b' ->
  a = a' /\ b = b'.
Proof.
  intros Hb Hb' H. apply (f_equal (@rev N)) in H.
  rewrite !rev_app_distr in H. simpl in H. rewrite <- !app_assoc in H. simpl in H.
  apply Forall_rev in Hb, Hb'.
  assert (Hcut : forall x x' y y' : list N,
             Forall (fun c => c <> 45%N) x -> Forall (fun c => c <> 45%N) x' ->
             x ++ 45%N :: y = x' ++ 45%N :: y' -> x = x' /\ y = y').
  { clear. induction x as [|c x IH]; intros x' y y' Hx Hx' E.
    - destruct x' as [|c' x']; simpl in E.
      + injection E as E. split; [reflexivity|exact E].
      + injection E as Ec _. inversion Hx' as [|? ? Hc _]; subst. congruence.
    - destruct x' as [|c' x']; simpl in E.
      + injection E as Ec _. inversion Hx as [|? ? Hc _]; subst. congruence.
      + injection E as Ec E. inversion Hx; inversion Hx'; subst.
        destruct (IH x' y y') as [-> ->]; auto. }
  destruct (Hcut _ _ _ _ Hb Hb' H) as [E1 E2].
  split.
  - rewrite <- (rev_involutive a), <- (rev_involutive a'), E2. reflexivity.
  - rewrite <- (rev_involutive b), <- (rev_involutive b'), E1. reflexivity.
Qed.

Lemma docId_injective (now now' counter counter' : Z) :
  0 <= counter -> 0 <= counter' ->
  docId now counter = docId now' counter' ->
  now = now' /\ counter = counter'.
Proof.
  intros Hc Hc' H. unfold docId in H.
  apply app_inv_head in H.
  change (lit "-") with [45%N] in H. simpl in H.
  destruct (cut_at_last_minus _ _ _ _ (decimal_no_minus _ Hc)
              (decimal_no_minus _ Hc') H) as [E1 E2].
  split; apply decimal_injective; assumption.
Qed.

Variable embed : jsstring -> result Embeddings.EmbeddingResult.

Lemma index_counter (ix : Indexer) (content : jsstring)
    (metadata : option Metadata) (now added : Z) :
  idCounter (fst (index embed ix content metadata now added)) = idCounter ix + 1
  /\ forall k, snd (index embed ix content metadata now added) = Ok k ->
       k = docId now (idCounter ix).
Proof.
  unfold index. destruct (embed content) as [e|e]; simpl.
  - destruct (VectorStore.add _ _ _); simpl; split; try reflexivity;
      intros k H; [injection H as <-; reflexivity|discriminate].
  - split; [reflexivity|discriminate].
Qed.

Lemma indexEach_ids (calls : list (jsstring * option Metadata * Z * Z)) :
  forall ix,
    0 <= idCounter ix ->
    NoDup (idsOf (snd (indexEach embed ix calls)))
    /\ Forall (fun k => exists now counter,
                 idCounter ix <= counter /\ k = docId now counter)
         (idsOf (snd (indexEach embed ix calls))).
Proof.
  induction calls as [|[[[content metadata] now] added] calls IH]; intros ix Hix.
  - simpl. split; constructor.
  - simpl. pose proof (index_counter ix content metadata now added) as [Hc Hid].
    destruct (index embed ix content metadata now added) as [ix' r].
    simpl in Hc, Hid. destruct (IH ix' ltac:(lia)) as [Hnd Hall].
    destruct (indexEach embed ix' calls) as [final rs]. simpl in *.
    destruct r as [k|e]; simpl.
    + specialize (Hid k eq_refl). subst k. split.
      * constructor; [|exact Hnd]. intros Hin.
        rewrite Forall_forall in Hall. destruct (Hall _ Hin) as [n [c [Hle E]]].
        apply docId_injective in E; lia.
      * constructor; [exists now, (idCounter ix); split; [lia|reflexivity]|].
        eapply Forall_impl; [|exact Hall]. simpl.
        intros k [n [c [Hle E]]]. exists n, c. split; [lia|exact E].
    + split; [exact Hnd|]. eapply Forall_impl; [|exact Hall]. simpl.
      intros k [n [c [Hle E]]]. exists n, c. split; [lia|exact E].
Qed.

End IndexerFacts.

(** X29. The ids that one indexer hands out are pairwise distinct,
    whatever the clock shows, also within one millisecond and also when
    calls in between throw: the counter in the id goes up with every
    call. The counter stays below [2^53], where its increment is exact. *)
Theorem index_ids_distinct
    (embed : jsstring -> result Embeddings.EmbeddingResult)
    (ix : Indexer.Indexer)
    (calls : list (jsstring * option Metadata * Z * Z)) :
  0 <= Indexer.idCounter ix ->
  Indexer.idCounter ix + len calls <= 2 ^ 53 ->
  NoDup (Indexer.idsOf (snd (Indexer.indexEach embed ix calls))).
Proof.
  intros Hix _. apply indexEach_ids, Hix.
Qed.

(** X29, on two calls at the same clock reading. *)
Lemma index_ids_distinct_witness :
  NoDup
    (Indexer.idsOf
       (snd (Indexer.indexEach Sample.unitEmbed
               {| Indexer.vectorStore := Sample.storeOf 3 None;
                  Indexer.idCounter := 0 |}
               [(lit "first", None, 1730000000000, 1730000000000);
                (lit "second", None, 1730000000000, 1730000000000)]))).
Proof.
  apply (index_ids_distinct Sample.unitEmbed
           {| Indexer.vectorStore := Sample.storeOf 3 None;
              Indexer.idCounter := 0 |}
           [(lit "first", None, 1730000000000, 1730000000000);
            (lit "second", None, 1730000000000, 1730000000000)]).
  - simpl. lia.
  - vm_compute. discriminate.
Defined.

(** X30. When [index] returns an id, the store holds under it the content,
    the metadata and the embedding of the provider, with the time of the
    [add]; and whether it returns or throws, the counter has gone up by
    one. When the provider throws, [index] throws the same error and the
    store is as it was. The counter is below [2^53], where its increment is
    exact. *)
Theorem index_then_get
    (embed : jsstring -> result Embeddings.EmbeddingResult)
    (ix : Indexer.Indexer) (content : jsstring) (metadata : option Metadata)
    (now added : Z) :
  0 <= Indexer.idCounter ix < 2 ^ 53 ->
  Indexer.idCounter (fst (Indexer.index embed ix content metadata now added))
  = Indexer.idCounter ix + 1
  /\ (forall k,
        snd (Indexer.index embed ix content metadata now added) = Ok k ->
        k = Indexer.docId now (Indexer.idCounter ix)
        /\ exists e,
             embed content = Ok e
             /\ VectorStore.get
                  (Indexer.vectorStore
                     (fst (Indexer.index embed ix content metadata now added))) k
                = Some {| VectorStore.id := k; VectorStore.content := content;
                          VectorStore.embedding := Embeddings.embedding e;
                          VectorStore.metadata := metadata;
                          VectorStore.createdAt := added |})
  /\ (forall e,
        embed content = Throw e ->
        Indexer.index embed ix content metadata now added
        = ({| Indexer.vectorStore := Indexer.vectorStore ix;
              Indexer.idCounter := Indexer.idCounter ix + 1 |}, Throw e)).
Proof.
  intros _. split; [apply index_counter|]. split.
  - intros k. unfold Indexer.index. destruct (embed content) as [e|e];
      [|discriminate].
    destruct (VectorStore.add (Indexer.vectorStore ix) _ added) as [s'|err] eqn:Hadd;
      [|discriminate].
    simpl. intros H. injection H as <-. split; [reflexivity|].
    exists e. split; [reflexivity|].
    destruct (add_inv _ _ _ _ Hadd) as [_ [Hdocs _]].
    unfold VectorStore.get. rewrite Hdocs. apply mapGet_mapSet_same.
  - intros e He. unfold Indexer.index. rewrite He. reflexivity.
Qed.

(** X30, on the first document of an indexer over an empty store of
    dimension 3. *)
Lemma index_then_get_witness :
  exists k,
    snd (Indexer.index Sample.unitEmbed
           {| Indexer.vectorStore := Sample.storeOf 3 None;
              Indexer.idCounter := 0 |}
           (lit "first") None 1730000000000 1730000000001) = Ok k
    /\ k = lit "doc-1730000000000-0"
    /\ option_map VectorStore.content
         (VectorStore.get
            (Indexer.vectorStore
               (fst (Indexer.index Sample.unitEmbed
                       {| Indexer.vectorStore := Sample.storeOf 3 None;
                          Indexer.idCounter := 0 |}
                       (lit "first") None 1730000000000 1730000000001))) k)
       = Some (lit "first").
Proof.
  eexists. split; [reflexivity|].
  destruct (proj1 (proj2 (index_then_get Sample.unitEmbed
                            {| Indexer.vectorStore := Sample.storeOf 3 None;
                               Indexer.idCounter := 0 |}
                            (lit "first") None 1730000000000 1730000000001
                            ltac:(simpl; lia)))
              _ eq_refl) as [Hk [e [_ Hget]]].
  split; [reflexivity|]. rewrite Hget. reflexivity.
Defined.
